(** * A verification development for the synthetic e-commerce data generator

    The development embeds [synthetic_data_generator.py] and the SQL text of
    [query_top_spenders.py] and proves properties of the embedded code.

    - Python numbers are modelled as they are at run time: unbounded
      integers ([Z]) and IEEE-754 binary64 floats ([spec_float] with
      precision 53), with Python's mixed arithmetic and comparison rules.
    - The two hidden inputs of the generator are explicit: the state of the
      [random] module, as a tape of raw draws, and the wall clock read by
      [datetime.now()].
    - Exceptions are values: a generator returns [Ok] or [Raise]. *)

From Stdlib Require Import ZArith List Bool Lia String Ascii.
From Stdlib Require Import Sorting.Permutation Sorting.Sorted.
From Stdlib Require Import Floats.SpecFloat.
From stdpp Require Import base option list gmap strings pretty.

Open Scope Z_scope.

(* ===================================================================== *)
(** * Binary64 floats *)
(* ===================================================================== *)

Module F64.

Abbreviation float := spec_float.

Definition add : float -> float -> float := SFadd 53 1024.
Definition sub : float -> float -> float := SFsub 53 1024.
Definition mul : float -> float -> float := SFmul 53 1024.
Definition ltb : float -> float -> bool := SFltb.
Definition leb : float -> float -> bool := SFleb.

Definition is_finite (x : float) : bool :=
  match x with
  | S754_zero _ | S754_finite _ _ _ => true
  | _ => false
  end.

(** [n/d] rounded to the nearest integer, ties to even ([0 < d]). *)
Definition round_half_even (n d : Z) : Z :=
  let q := n / d in
  let r := n mod d in
  match 2 * r ?= d with
  | Lt => q
  | Gt => q + 1
  | Eq => if Z.even q then q else q + 1
  end.

(** [n / (d * 2^e)] rounded to the nearest integer, ties to even. *)
Definition scaled (n d e : Z) : Z :=
  match e with
  | Zneg p => round_half_even (n * 2 ^ Zpos p) d
  | _ => round_half_even n (d * 2 ^ e)
  end.

(** The largest [l] with [2^l <= n/d] ([0 < n], [0 < d]). *)
Definition ilog2 (n d : Z) : Z :=
  let k := Z.log2 n - Z.log2 d in
  let ge := match k with
            | Zneg p => d <=? n * 2 ^ Zpos p
            | _ => d * 2 ^ k <=? n
            end in
  if ge then k else k - 1.

(** The float nearest to [n/d] (for [0 <= n], [0 < d]) with sign [s],
    ties to even: the 53-bit mantissa is the rounded quotient at the
    exponent of [n/d], or at the subnormal exponent -1074. *)
Definition nearest (s : bool) (n d : Z) : float :=
  if n <=? 0 then S754_zero s
  else
    let e := Z.max (ilog2 n d - 52) (-1074) in
    let q := scaled n d e in
    let '(q, e) := if q =? 2 ^ 53 then (2 ^ 52, e + 1) else (q, e) in
    match q with
    | Zpos m => if e <=? 971 then S754_finite s m e else S754_infinity s
    | _ => S754_zero s
    end.

(** The float nearest to an integer. *)
Definition of_Z (z : Z) : float := nearest (z <? 0) (Z.abs z) 1.

(** The float nearest to [m * 2^e]. *)
Definition of_dyadic (m e : Z) : float :=
  match e with
  | Zneg p => nearest (m <? 0) (Z.abs m) (2 ^ Zpos p)
  | _ => nearest (m <? 0) (Z.abs m * 2 ^ e) 1
  end.

(** A positive decimal literal [n/d], as the Python parser reads it. *)
Definition lit (n d : Z) : float := nearest false n d.

(** The number of hundredths nearest to the magnitude of a finite float. *)
Definition hundredths (m : positive) (e : Z) : Z :=
  match e with
  | Zneg p => round_half_even (Zpos m * 100) (2 ^ Zpos p)
  | _ => Zpos m * 100 * 2 ^ e
  end.

(** [round(x, 2)] on a float: CPython prints the exact binary value with two
    correctly rounded decimals (ties to even) and reads the decimal string
    back as the nearest float; infinities and NaN round to themselves. *)
Definition round2 (x : float) : float :=
  match x with
  | S754_finite s m e => nearest s (hundredths m e) 100
  | _ => x
  end.

(** [int(x)] on a finite float: truncation toward zero. *)
Definition trunc (x : float) : option Z :=
  match x with
  | S754_zero _ => Some 0
  | S754_finite s m e =>
      let a := match e with
               | Zneg p => Zpos m / 2 ^ Zpos p
               | _ => Zpos m * 2 ^ e
               end in
      Some (if s then - a else a)
  | _ => None
  end.

(** Exact comparison of an integer with a float ([None] on NaN). *)
Definition compare_Z (z : Z) (x : float) : option comparison :=
  match x with
  | S754_nan => None
  | S754_infinity s => Some (if s then Gt else Lt)
  | S754_zero _ => Some (z ?= 0)
  | S754_finite s m e =>
      let v := if s then Zneg m else Zpos m in
      Some match e with
           | Zneg p => (z * 2 ^ Zpos p ?= v)
           | _ => (z ?= v * 2 ^ e)
           end
  end.

End F64.

Import F64.

(* ===================================================================== *)
(** * Python values, exceptions and the generator monad *)
(* ===================================================================== *)

Inductive exn : Type :=
| KeyError
| ValueError
| OverflowError
| ZeroDivisionError
| IndexError
| AttributeError.

Inductive result (A : Type) : Type :=
| Ok (a : A)
| Raise (e : exn).

Arguments Ok {A} a.
Arguments Raise {A} e.

#[global] Instance result_ret : MRet result := fun A a => Ok a.
#[global] Instance result_bind : MBind result := fun A B f r =>
  match r with
  | Ok a => f a
  | Raise e => Raise e
  end.

#[global] Instance result_fmap : FMap result := fun A B f r =>
  match r with
  | Ok a => Ok (f a)
  | Raise e => Raise e
  end.

(** A Python number: an [int] or a [float]. *)
Inductive num : Type :=
| Int (z : Z)
| Float (x : float).

Module Num.

(** Conversion of an operand to [float]; an [int] beyond the float range
    raises [OverflowError]. *)
Definition to_float (a : num) : result float :=
  match a with
  | Float x => Ok x
  | Int z => let x := F64.of_Z z in
             if F64.is_finite x then Ok x else Raise OverflowError
  end.

Definition lift2 (fz : Z -> Z -> Z) (ff : float -> float -> float)
    (a b : num) : result num :=
  match a, b with
  | Int x, Int y => Ok (Int (fz x y))
  | _, _ => x ← to_float a; y ← to_float b; Ok (Float (ff x y))
  end.

Definition add : num -> num -> result num := lift2 Z.add F64.add.
Definition sub : num -> num -> result num := lift2 Z.sub F64.sub.
Definition mul : num -> num -> result num := lift2 Z.mul F64.mul.

(** True division [x / y] of two ints: the correctly rounded quotient. *)
Definition int_truediv (x y : Z) : result float :=
  if y =? 0 then Raise ZeroDivisionError
  else
    let q := F64.nearest (negb (Z.sgn x * Z.sgn y >=? 0)) (Z.abs x) (Z.abs y) in
    if F64.is_finite q then Ok q else Raise OverflowError.

(** [round(a, 2)]: an int is returned unchanged. *)
Definition round2 (a : num) : num :=
  match a with
  | Int z => Int z
  | Float x => Float (F64.round2 x)
  end.

(** [int(a)]. *)
Definition to_int (a : num) : result Z :=
  match a with
  | Int z => Ok z
  | Float S754_nan => Raise ValueError
  | Float x => match F64.trunc x with
               | Some z => Ok z
               | None => Raise OverflowError
               end
  end.

(** [abs(a)]. *)
Definition abs (a : num) : num :=
  match a with
  | Int z => Int (Z.abs z)
  | Float x => Float (SFabs x)
  end.

(** Python compares an int with a float exactly. *)
Definition compare (a b : num) : option comparison :=
  match a, b with
  | Int x, Int y => Some (x ?= y)
  | Int x, Float y => F64.compare_Z x y
  | Float x, Int y => CompOpp <$> F64.compare_Z y x
  | Float x, Float y => SFcompare x y
  end.

Definition ltb (a b : num) : bool :=
  match compare a b with Some Lt => true | _ => false end.
Definition leb (a b : num) : bool :=
  match compare a b with Some (Lt | Eq) => true | _ => false end.
Definition gtb (a b : num) : bool := ltb b a.
Definition geb (a b : num) : bool := leb b a.

(** The builtins [min(a, b)] and [max(a, b)]: the first argument is kept
    unless the second is strictly smaller (larger). *)
Definition min (a b : num) : num := if ltb b a then b else a.
Definition max (a b : num) : num := if gtb b a then b else a.

End Num.

(** ** The hidden inputs: random tape and wall clock *)

(** [rand_bits] feeds the integer and uniform draws, [rand_normals] the
    standard normal deviates, each given as [(m, e)] for [m * 2^e]; an
    exhausted tape yields zeros.  The clock
    shows [clock_now] (microseconds since midnight before ordinal day 0)
    and advances by the next tick at every reading. *)
Record World : Type := mkWorld {
  rand_bits : list Z;
  rand_normals : list (Z * Z);
  clock_now : Z;
  clock_ticks : list N
}.

Definition M (A : Type) : Type := World -> result (A * World).

#[global] Instance M_ret : MRet M := fun A a w => Ok (a, w).
#[global] Instance M_bind : MBind M := fun A B f m w =>
  match m w with
  | Ok (a, w') => f a w'
  | Raise e => Raise e
  end.

#[global] Instance M_fmap : FMap M := fun A B f m w =>
  match m w with
  | Ok (a, w') => Ok (f a, w')
  | Raise e => Raise e
  end.

Definition raise {A} (e : exn) : M A := fun _ => Raise e.

Definition lift {A} (r : result A) : M A := fun w =>
  match r with
  | Ok a => Ok (a, w)
  | Raise e => Raise e
  end.

Definition next_bits : M Z := fun w =>
  match rand_bits w with
  | [] => Ok (0, w)
  | b :: bs => Ok (b, mkWorld bs (rand_normals w) (clock_now w) (clock_ticks w))
  end.

Definition next_normal : M float := fun w =>
  match rand_normals w with
  | [] => Ok (S754_zero false, w)
  | (m, e) :: zs =>
      Ok (F64.of_dyadic m e,
          mkWorld (rand_bits w) zs (clock_now w) (clock_ticks w))
  end.

Definition tick : M Z := fun w =>
  match clock_ticks w with
  | [] => Ok (clock_now w, w)
  | t :: ts =>
      Ok (clock_now w,
          mkWorld (rand_bits w) (rand_normals w) (clock_now w + Z.of_N t) ts)
  end.

(* ===================================================================== *)
(** * The library calls the generator makes *)
(* ===================================================================== *)

(** ** [random] *)

Module Random.

(** [_randbelow(n)]: an integer in [[0, n)]. *)
Definition randbelow (n : Z) : M Z :=
  b ← next_bits; mret (b mod n).

(** [random()]: a multiple of [2^-53] in [[0, 1)]. *)
Definition random : M float :=
  b ← next_bits; mret (F64.of_dyadic (b mod 2 ^ 53) (-53)).

(** [uniform(a, b)] is [a + (b - a) * random()]. *)
Definition uniform (a b : num) : M num :=
  r ← random;
  lift (d ← Num.sub b a; p ← Num.mul d (Float r); Num.add a p).

(** [randint(a, b)] is [a + _randbelow(b - a + 1)]. *)
Definition randint (a b : Z) : M Z :=
  if b <? a then raise ValueError
  else k ← randbelow (b - a + 1); mret (a + k).

(** [choice(seq)] is [seq[_randbelow(len(seq))]]. *)
Definition choice {A} (seq : list A) : M A :=
  i ← randbelow (Z.of_nat (length seq));
  match seq !! Z.to_nat i with
  | Some x => mret x
  | None => raise IndexError
  end.

(** [gauss(mu, sigma)] and [normalvariate(mu, sigma)] both return
    [mu + z * sigma] for a standard normal deviate [z]. *)
Definition gauss (mu sigma : num) : M num :=
  z ← next_normal;
  lift (p ← Num.mul (Float z) sigma; Num.add mu p).

Definition normalvariate (mu sigma : num) : M num := gauss mu sigma.

(** [itertools.accumulate(weights)]. *)
Fixpoint accumulate (acc : Z) (ws : list Z) : list Z :=
  match ws with
  | [] => []
  | w :: ws' => (acc + w) :: accumulate (acc + w) ws'
  end.

(** [bisect(a, x, 0, hi)] on an ascending list: how many of the first [hi]
    entries are not above [x]. *)
Fixpoint bisect (a : list Z) (x : float) (hi : nat) : nat :=
  match hi, a with
  | S hi', c :: a' =>
      if Num.ltb (Float x) (Int c) then 0%nat else S (bisect a' x hi')
  | _, _ => 0%nat
  end.

(** [choices(population, weights=ws)[0]]. *)
Definition choices1 {A} (population : list A) (ws : list Z) : M A :=
  let cum := accumulate 0 ws in
  if negb (length cum =? length population)%nat then raise ValueError
  else
    match last cum with
    | None => raise IndexError
    | Some t =>
        total ← lift (Num.to_float (Int t));
        if negb (F64.ltb (S754_zero false) total) then raise ValueError
        else
          r ← random;
          let i := bisect cum (F64.mul r total) (length population - 1) in
          match population !! i with
          | Some x => mret x
          | None => raise IndexError
          end
    end.

(** The selection loop of [sample]: [k] times, draw a position of the pool,
    take the element there and move the pool's last element into its place.
    CPython runs this loop on populations of up to 21 elements (the catalog
    has 20) and rejection sampling of positions on larger ones; both return
    the elements at [k] distinct positions. *)
Fixpoint sample_pool {A} (pool : list A) (k : nat) : M (list A) :=
  match k with
  | O => mret []
  | S k' =>
      let n := length pool in
      j ← randbelow (Z.of_nat n);
      match pool !! Z.to_nat j, pool !! (n - 1)%nat with
      | Some x, Some y =>
          rest ← sample_pool (take (n - 1) (<[Z.to_nat j := y]> pool)) k';
          mret (x :: rest)
      | _, _ => raise IndexError
      end
  end.

(** [sample(population, k)]. *)
Definition sample {A} (population : list A) (k : Z) : M (list A) :=
  if (k <? 0) || (Z.of_nat (length population) <? k) then raise ValueError
  else sample_pool population (Z.to_nat k).

(** The names the [random] module exports; [hasattr(random, a)] tests
    membership. *)
Definition attributes : list string :=
  ["Random"; "SystemRandom"; "betavariate"; "binomialvariate"; "choice";
   "choices"; "expovariate"; "gammavariate"; "gauss"; "getrandbits";
   "getstate"; "lognormvariate"; "normalvariate"; "paretovariate";
   "randbytes"; "randint"; "random"; "randrange"; "sample"; "seed";
   "setstate"; "shuffle"; "triangular"; "uniform"; "vonmisesvariate";
   "weibullvariate"]%string.

Definition hasattr (a : string) : bool :=
  existsb (String.eqb a) attributes.

End Random.

(** ** [datetime] *)

(** A [date] is its proleptic Gregorian ordinal (1 is 0001-01-01), a
    [datetime] the microseconds since midnight before ordinal 0, and a
    [timedelta] a number of microseconds. *)
Module Datetime.

Definition day_us : Z := 86400000000.
Definition max_ordinal : Z := 3652059.

Definition in_range (d : Z) : bool := (1 <=? d) && (d <=? max_ordinal).

(** [dt.date()]. *)
Definition date (dt : Z) : Z := dt / day_us.

(** [timedelta(days=d, hours=h, minutes=m)]. *)
Definition timedelta (d h m : Z) : result Z :=
  let us := ((d * 24 + h) * 60 + m) * 60000000 in
  if (-999999999 <=? us / day_us) && (us / day_us <=? 999999999)
  then Ok us else Raise OverflowError.

(** [dt + td] on a datetime. *)
Definition plus (dt td : Z) : result Z :=
  if in_range (date (dt + td)) then Ok (dt + td) else Raise OverflowError.

(** [d + td] on a date: only the whole days of [td] count. *)
Definition date_plus (d td : Z) : result Z :=
  if in_range (d + td / day_us) then Ok (d + td / day_us)
  else Raise OverflowError.

(** [datetime.combine(d, datetime.min.time())]. *)
Definition combine_min (d : Z) : Z := d * day_us.

(** [datetime.now()]. *)
Definition now : M Z := tick.

Definition is_leap (y : Z) : bool :=
  (y mod 4 =? 0) && (negb (y mod 100 =? 0) || (y mod 400 =? 0)).

Definition days_in_month (leap : bool) (m : Z) : Z :=
  match m with
  | 2 => if leap then 29 else 28
  | 4 | 6 | 9 | 11 => 30
  | _ => 31
  end.

Definition days_before_month (leap : bool) (m : Z) : Z :=
  match m with
  | 1 => 0 | 2 => 31 | 3 => 59 | 4 => 90 | 5 => 120 | 6 => 151
  | 7 => 181 | 8 => 212 | 9 => 243 | 10 => 273 | 11 => 304 | _ => 334
  end + (if (2 <? m) && leap then 1 else 0).

(** Year, month and day of an ordinal. *)
Definition ymd (ordinal : Z) : Z * Z * Z :=
  let n := ordinal - 1 in
  let n400 := n / 146097 in
  let n := n mod 146097 in
  let n100 := n / 36524 in
  let n := n mod 36524 in
  let n4 := n / 1461 in
  let n := n mod 1461 in
  let n1 := n / 365 in
  let n := n mod 365 in
  let year := n400 * 400 + 1 + n100 * 100 + n4 * 4 + n1 in
  if (n1 =? 4) || (n100 =? 4) then (year - 1, 12, 31)
  else
    let leap := (n1 =? 3) && (negb (n4 =? 24) || (n100 =? 3)) in
    let month := (n + 50) / 32 in
    let preceding := days_before_month leap month in
    if n <? preceding
    then (year, month - 1, n - days_before_month leap (month - 1) + 1)
    else (year, month, n - preceding + 1).

(** Decimal digits of a non-negative integer, zero-padded to [width]. *)
Fixpoint digits (width : nat) (z : Z) (acc : string) : string :=
  match width with
  | O => if (z =? 0)%Z then acc else (pretty z +:+ acc)%string
  | S w =>
      digits w (z / 10)
        (String (ascii_of_nat (48 + Z.to_nat (z mod 10))) acc)
  end.

(** [str(d)] on a date: [YYYY-MM-DD]. *)
Definition str_date (d : Z) : string :=
  let '(y, m, dd) := ymd d in
  (digits 4 y EmptyString +:+ "-" +:+ digits 2 m EmptyString +:+ "-" +:+ digits 2 dd EmptyString)%string.

(** [str(dt)] on a datetime: [YYYY-MM-DD HH:MM:SS], with [.ffffff] when
    the microsecond is not zero. *)
Definition str_datetime (dt : Z) : string :=
  let us := dt mod day_us in
  let s := us / 1000000 in
  (str_date (date dt) +:+ " " +:+ digits 2 (s / 3600) EmptyString +:+ ":"
   +:+ digits 2 (s / 60 mod 60) EmptyString +:+ ":" +:+ digits 2 (s mod 60) EmptyString
   +:+ (if (us mod 1000000 =? 0)%Z then EmptyString
        else "." +:+ digits 6 (us mod 1000000)%Z EmptyString))%string.

End Datetime.

(** ** [repr] of a float *)

(** The shortest decimal string that reads back as the same float, in the
    layout of [repr]: fixed notation when the decimal point falls within
    the digits or up to 4 zeros before and 16 digits after their start,
    exponent notation otherwise. *)
Module Repr.

(** The largest [p] with [10^p <= n/d] ([0 < n], [0 < d]). *)
Definition pow10_le (p n d : Z) : bool :=
  match p with
  | Zneg q => d <=? n * 10 ^ Zpos q
  | _ => d * 10 ^ p <=? n
  end.

Definition ilog10 (n d : Z) : Z :=
  let p := (Z.log2 n - Z.log2 d) * 30103 / 100000 in
  if pow10_le (p + 2) n d then p + 2
  else if pow10_le (p + 1) n d then p + 1
  else if pow10_le p n d then p
  else if pow10_le (p - 1) n d then p - 1
  else p - 2.

(** Numerator and denominator of [n/d * 10^s]. *)
Definition scale10 (n d s : Z) : Z * Z :=
  match s with
  | Zneg q => (n, d * 10 ^ Zpos q)
  | _ => (n * 10 ^ s, d)
  end.

(** Does the decimal [c * 10^(-s)] read back as [x]? *)
Definition reads_back (x : float) (c s : Z) : bool :=
  let '(n, d) := scale10 c 1 (- s) in
  match x, F64.nearest false n d with
  | S754_finite _ m e, S754_finite _ m' e' => (Zpos m =? Zpos m') && (e =? e')
  | _, _ => false
  end.

(** The shortest digits [c] (at most 17) and scale [s] with
    [c * 10^(-s)] reading back as [x = n/d]; the nearest such. *)
Fixpoint shortest (x : float) (n d p : Z) (k : nat) (fuel : nat) : Z * Z :=
  let s := Z.of_nat k - 1 - p in
  let '(a, b) := scale10 n d s in
  let c := F64.round_half_even a b in
  let c' := if c * b <? a then c + 1 else if a <? c * b then c - 1 else c in
  match fuel with
  | O => (c, s)
  | S fuel' =>
      if reads_back x c s then (c, s)
      else if reads_back x c' s then (c', s)
      else shortest x n d p (S k) fuel'
  end.

Fixpoint strip_zeros (c s : Z) (fuel : nat) : Z * Z :=
  match fuel with
  | O => (c, s)
  | S fuel' => if (c mod 10 =? 0) && negb (c =? 0)
               then strip_zeros (c / 10) (s - 1) fuel' else (c, s)
  end.

Definition zeros (n : Z) : string :=
  string_of_list_ascii (replicate (Z.to_nat n) "0"%char).

Definition repr_finite (m : positive) (e : Z) : string :=
  let '(n, d) := match e with
                 | Zneg q => (Zpos m, 2 ^ Zpos q)
                 | _ => (Zpos m * 2 ^ e, 1)
                 end in
  let p := ilog10 n d in
  let '(c, s) := shortest (S754_finite false m e) n d p 1 16 in
  let '(c, s) := strip_zeros c s 20 in
  let ds := pretty c in
  let len := Z.of_nat (String.length ds) in
  let decpt := len - s in
  if (decpt <=? -4) || (16 <? decpt) then
    let ex := decpt - 1 in
    let mant := match ds with
                | String c0 EmptyString => ds
                | String c0 rest => String c0 ("." +:+ rest)
                | EmptyString => ds
                end in
    (mant +:+ "e" +:+ (if (ex <? 0)%Z then "-" else "+")
     +:+ (if (Z.abs ex <? 10)%Z then "0" else EmptyString)
     +:+ pretty (Z.abs ex))%string
  else if decpt <=? 0 then ("0." +:+ zeros (- decpt) +:+ ds)%string
  else if len <=? decpt then (ds +:+ zeros (decpt - len) +:+ ".0")%string
  else (substring 0 (Z.to_nat decpt) ds +:+ "."
        +:+ substring (Z.to_nat decpt) (Z.to_nat (len - decpt)) ds)%string.

(** [repr(x)] on a float. *)
Definition repr (x : float) : string :=
  match x with
  | S754_nan => "nan"
  | S754_infinity s => if s then "-inf" else "inf"
  | S754_zero s => if s then "-0.0" else "0.0"
  | S754_finite s m e =>
      ((if s then "-" else EmptyString) +:+ repr_finite m e)%string
  end.

End Repr.

(* ===================================================================== *)
(** * The data model *)
(* ===================================================================== *)

Module Customer.
Record t : Type := mk {
  customer_id : Z;
  name : string;
  email : string;
  phone : string;
  state : string;
  signup_date : Z
}.
End Customer.

Module Product.
Record t : Type := mk {
  product_id : Z;
  name : string;
  category : string;
  unit_price : num;
  stock : Z
}.
End Product.

Module Order.
Record t : Type := mk {
  order_id : Z;
  customer_id : Z;
  order_datetime : Z;
  shipping_state : string
}.
End Order.

Module OrderDetail.
Record t : Type := mk {
  order_detail_id : Z;
  order_id : Z;
  product_id : Z;
  quantity : Z;
  unit_price : num;
  discount : num;
  line_total : num
}.
End OrderDetail.

Module Payment.
Record t : Type := mk {
  payment_id : Z;
  order_id : Z;
  payment_method : string;
  payment_datetime : Z;
  subtotal : num;
  tax : num;
  shipping : num;
  total : num;
  currency : string
}.
End Payment.

(* ===================================================================== *)
(** * synthetic_data_generator.py *)
(* ===================================================================== *)

Definition FIRST_NAMES : list string :=
  ["Emma"; "Liam"; "Olivia"; "Noah"; "Ava"; "Elijah"; "Sophia"; "Lucas";
   "Isabella"; "Mason"; "Mia"; "Ethan"; "Charlotte"; "Logan"; "Amelia";
   "James"; "Harper"; "Benjamin"; "Evelyn"; "Henry"]%string.

Definition LAST_NAMES : list string :=
  ["Smith"; "Johnson"; "Brown"; "Taylor"; "Anderson"; "Thomas"; "Jackson";
   "White"; "Harris"; "Martin"; "Thompson"; "Garcia"; "Martinez";
   "Robinson"; "Clark"; "Rodriguez"; "Lewis"; "Lee"; "Walker"; "Hall"]%string.

Definition PRODUCT_CATEGORIES : list (string * list (string * Z * Z)) :=
  [("Electronics",
    [("Wireless Earbuds", 59, 199); ("Smartphone Case", 9, 39);
     ("USB-C Charger", 12, 45); ("Laptop Sleeve", 18, 69);
     ("Smartwatch", 99, 349)]);
   ("Home",
    [("Ceramic Mug", 6, 20); ("Throw Pillow", 14, 55);
     ("Desk Lamp", 22, 110); ("Bath Towel Set", 25, 90);
     ("Knife Set", 35, 160)]);
   ("Beauty",
    [("Facial Cleanser", 10, 35); ("Sunscreen SPF 50", 12, 42);
     ("Shampoo", 8, 28); ("Serum", 22, 90); ("Moisturizer", 15, 60)]);
   ("Sports",
    [("Yoga Mat", 18, 60); ("Running Shoes", 55, 180);
     ("Water Bottle", 12, 40); ("Fitness Tracker", 59, 220);
     ("Bike Helmet", 35, 140)])]%string.

Definition PAYMENT_METHODS : list string :=
  ["credit_card"; "debit_card"; "paypal"; "gift_card"; "apple_pay"]%string.

Definition STATES : list string :=
  ["CA"; "NY"; "TX"; "FL"; "IL"; "PA"; "OH"; "GA"; "NC"; "WA"]%string.

(** [s.lower()] and [s.replace(" ", ".")] on ASCII text. *)
Definition lower_ascii (c : ascii) : ascii :=
  let n := nat_of_ascii c in
  if (65 <=? n)%nat && (n <=? 90)%nat then ascii_of_nat (n + 32) else c.

Fixpoint map_string (f : ascii -> ascii) (s : string) : string :=
  match s with
  | EmptyString => EmptyString
  | String c s' => String (f c) (map_string f s')
  end.

Definition space_to_dot (c : ascii) : ascii :=
  if Ascii.eqb c " " then "."%char else c.

Definition random_name : M string :=
  f ← Random.choice FIRST_NAMES;
  l ← Random.choice LAST_NAMES;
  mret (f +:+ " " +:+ l)%string.

Definition random_email (name : string) : M string :=
  let base := map_string space_to_dot (map_string lower_ascii name) in
  domain ← Random.choice
    ["gmail.com"; "yahoo.com"; "outlook.com"; "example.com"]%string;
  r ← Random.random;
  suffix ← (if F64.ltb r (F64.lit 7 10) then mret EmptyString
            else pretty <$> Random.randint 1 99);
  mret (base +:+ suffix +:+ "@" +:+ domain)%string.

Definition random_phone : M string :=
  a ← Random.randint 200 999;
  b ← Random.randint 200 999;
  c ← Random.randint 1000 9999;
  mret ("+1-" +:+ pretty a +:+ "-" +:+ pretty b +:+ "-" +:+ pretty c)%string.

Definition generate_customer (cid : Z) : M Customer.t :=
  name ← random_name;
  email ← random_email name;
  phone ← random_phone;
  state ← Random.choice STATES;
  now ← Datetime.now;
  days ← Random.randint 30 900;
  signup ← lift (td ← Datetime.timedelta days 0 0;
                 Datetime.date <$> Datetime.plus now (- td));
  mret (Customer.mk cid name email phone state signup).

Definition generate_customers (count : Z) : M (list Customer.t) :=
  mapM generate_customer (seqZ 1 count).

Definition generate_product (pid : Z) (category : string)
    (item : string * Z * Z) : M Product.t :=
  let '(name, min_price, max_price) := item in
  mu ← lift (Num.int_truediv (min_price + max_price) 2);
  sigma ← lift (Num.int_truediv (max_price - min_price) 6);
  x ← Random.normalvariate (Float mu) (Float sigma);
  let price := Num.round2 x in
  let price := Num.max (Int min_price) (Num.min (Int max_price) price) in
  stock ← Random.randint 50 500;
  mret (Product.mk pid name category price stock).

Fixpoint products_items (category : string) (items : list (string * Z * Z))
    (pid : Z) : M (list Product.t) :=
  match items with
  | [] => mret []
  | item :: items' =>
      p ← generate_product pid category item;
      ps ← products_items category items' (pid + 1);
      mret (p :: ps)
  end.

Fixpoint products_loop (cats : list (string * list (string * Z * Z)))
    (pid : Z) : M (list Product.t) :=
  match cats with
  | [] => mret []
  | (category, items) :: cats' =>
      ps ← products_items category items pid;
      qs ← products_loop cats' (pid + Z.of_nat (length items));
      mret (ps ++ qs)
  end.

Definition generate_products : M (list Product.t) :=
  products_loop PRODUCT_CATEGORIES 1.

Definition random_order_date (signup_date : Z) : M Z :=
  now ← Datetime.now;
  let days_since_signup := Datetime.date now - signup_date in
  let days_since_signup :=
    if days_since_signup <=? 0 then 1 else days_since_signup in
  mu ← lift (Num.int_truediv days_since_signup 2);
  sigma ← lift (Num.int_truediv days_since_signup 3);
  g ← Random.gauss (Float mu) (Float sigma);
  delta_days ← lift (Num.to_int (Num.abs g));
  let delta_days := Z.max 1 (Z.min days_since_signup delta_days) in
  order_date ← lift (td ← Datetime.timedelta delta_days 0 0;
                     Datetime.date_plus signup_date td);
  h ← Random.randint 8 21;
  m ← Random.randint 0 59;
  lift (td ← Datetime.timedelta 0 h m;
        Datetime.plus (Datetime.combine_min order_date) td).

(** The stable sort of [orders.sort(key=...)]: an element is inserted
    before the first later element whose key is not smaller. *)
Fixpoint insert_by_datetime (o : Order.t) (l : list Order.t) : list Order.t :=
  match l with
  | [] => [o]
  | x :: l' =>
      if Order.order_datetime o <=? Order.order_datetime x
      then o :: l
      else x :: insert_by_datetime o l'
  end.

Definition sort_by_datetime (l : list Order.t) : list Order.t :=
  foldr insert_by_datetime [] l.

Section GenerateOrders.

(** Whatever [random.poisson] would be if the module had that attribute. *)
Variable poisson : num -> M num.

Definition orders_count (avg_orders_per_customer : num) : M Z :=
  if Random.hasattr "poisson"
  then x ← poisson avg_orders_per_customer;
       n ← lift (Num.to_int x); mret (Z.max 1 n)
  else x ← Random.gauss avg_orders_per_customer (Int 1);
       n ← lift (Num.to_int x); mret (Z.max 1 n).

Fixpoint customer_orders (c : Customer.t) (n : nat) (oid : Z)
    : M (list Order.t) :=
  match n with
  | O => mret []
  | S n' =>
      order_dt ← random_order_date (Customer.signup_date c);
      rest ← customer_orders c n' (oid + 1);
      mret (Order.mk oid (Customer.customer_id c) order_dt (Customer.state c)
              :: rest)
  end.

(** The nested loops of [generate_orders], before the final sort. *)
Fixpoint orders_loop (customers : list Customer.t)
    (avg_orders_per_customer : num) (oid : Z) : M (list Order.t) :=
  match customers with
  | [] => mret []
  | c :: customers' =>
      n ← orders_count avg_orders_per_customer;
      os ← customer_orders c (Z.to_nat n) oid;
      rest ← orders_loop customers' avg_orders_per_customer
               (oid + Z.of_nat (length os));
      mret (os ++ rest)
  end.

Definition generate_orders (customers : list Customer.t)
    (avg_orders_per_customer : num) : M (list Order.t) :=
  orders ← orders_loop customers avg_orders_per_customer 1;
  mret (sort_by_datetime orders).

End GenerateOrders.

(** [max(1, int(random.gauss(2, 1)))], the draw behind [item_count] and
    [quantity]. *)
Definition gauss_count : M Z :=
  x ← Random.gauss (Int 2) (Int 1);
  n ← lift (Num.to_int x);
  mret (Z.max 1 n).

Definition order_line (order : Order.t) (product : Product.t)
    (detail_id : Z) : M OrderDetail.t :=
  quantity ← gauss_count;
  r ← Random.random;
  discount ← (if F64.ltb r (F64.lit 7 10) then mret (Int 0)
              else Num.round2 <$>
                     Random.uniform (Float (F64.lit 5 100))
                                    (Float (F64.lit 25 100)));
  line_total ← lift (a ← Num.mul (Product.unit_price product) (Int quantity);
                     b ← Num.sub (Int 1) discount;
                     Num.round2 <$> Num.mul a b);
  mret (OrderDetail.mk detail_id (Order.order_id order)
          (Product.product_id product) quantity
          (Product.unit_price product) discount line_total).

Fixpoint order_lines (order : Order.t) (chosen_products : list Product.t)
    (detail_id : Z) : M (list OrderDetail.t) :=
  match chosen_products with
  | [] => mret []
  | product :: rest =>
      d ← order_line order product detail_id;
      ds ← order_lines order rest (detail_id + 1);
      mret (d :: ds)
  end.

(** One iteration of the outer loop of [generate_order_details]: the
    [item_count] drawn for the order and the lines appended for it. *)
Definition order_block (products : list Product.t) (order : Order.t)
    (detail_id : Z) : M (Z * list OrderDetail.t) :=
  item_count ← gauss_count;
  chosen_products ←
    Random.sample products (Z.min item_count (Z.of_nat (length products)));
  ds ← order_lines order chosen_products detail_id;
  mret (item_count, ds).

Fixpoint details_loop (products : list Product.t) (orders : list Order.t)
    (detail_id : Z) : M (list (Z * list OrderDetail.t)) :=
  match orders with
  | [] => mret []
  | order :: orders' =>
      b ← order_block products order detail_id;
      bs ← details_loop products orders'
             (detail_id + Z.of_nat (length (snd b)));
      mret (b :: bs)
  end.

Definition generate_order_details (orders : list Order.t)
    (products : list Product.t) : M (list OrderDetail.t) :=
  blocks ← details_loop products orders 1;
  mret (concat (snd <$> blocks)).

(** First loop of [generate_payments]: the dict [detail_totals]. *)
Fixpoint detail_totals_loop (order_details : list OrderDetail.t)
    (detail_totals : gmap Z num) : result (gmap Z num) :=
  match order_details with
  | [] => Ok detail_totals
  | d :: ds =>
      let k := OrderDetail.order_id d in
      let detail_totals :=
        match detail_totals !! k with
        | Some _ => detail_totals
        | None => <[k := Int 0]> detail_totals
        end in
      match detail_totals !! k with
      | None => Raise KeyError
      | Some cur =>
          s ← Num.add cur (OrderDetail.line_total d);
          detail_totals_loop ds (<[k := s]> detail_totals)
      end
  end.

Definition payment (detail_totals : gmap Z num) (order : Order.t) (pid : Z)
    : M Payment.t :=
  match detail_totals !! Order.order_id order with
  | None => raise KeyError
  | Some gross =>
      rate ← Random.uniform (Float (F64.lit 5 100)) (Float (F64.lit 95 1000));
      tax ← lift (Num.round2 <$> Num.mul gross rate);
      shipping ← (if Num.geb gross (Int 75) then mret (Int 0)
                  else Num.round2 <$>
                         Random.uniform (Float (F64.lit 499 100))
                                        (Float (F64.lit 1499 100)));
      total ← lift (a ← Num.add gross tax; Num.round2 <$> Num.add a shipping);
      method ← Random.choices1 PAYMENT_METHODS [40; 25; 20; 10; 5];
      minutes ← Random.randint 5 90;
      paid ← lift (td ← Datetime.timedelta 0 0 minutes;
                   Datetime.plus (Order.order_datetime order) td);
      mret (Payment.mk pid (Order.order_id order) method paid
              (Num.round2 gross) tax shipping total "USD")
  end.

Fixpoint payments_loop (detail_totals : gmap Z num) (orders : list Order.t)
    (pid : Z) : M (list Payment.t) :=
  match orders with
  | [] => mret []
  | order :: orders' =>
      p ← payment detail_totals order pid;
      ps ← payments_loop detail_totals orders' (pid + 1);
      mret (p :: ps)
  end.

Definition generate_payments (orders : list Order.t)
    (order_details : list OrderDetail.t) : M (list Payment.t) :=
  detail_totals ← lift (detail_totals_loop order_details ∅);
  payments_loop detail_totals orders 1.

(** ** Writing the CSV files *)

(** A value stored in a row dict. *)
Inductive value : Type :=
| VStr (s : string)
| VNum (a : num)
| VDate (d : Z)
| VDatetime (dt : Z).

Definition row : Type := list (string * value).

Definition customer_row (c : Customer.t) : row :=
  [("customer_id", VNum (Int (Customer.customer_id c)));
   ("name", VStr (Customer.name c));
   ("email", VStr (Customer.email c));
   ("phone", VStr (Customer.phone c));
   ("state", VStr (Customer.state c));
   ("signup_date", VDate (Customer.signup_date c))]%string.

Definition product_row (p : Product.t) : row :=
  [("product_id", VNum (Int (Product.product_id p)));
   ("name", VStr (Product.name p));
   ("category", VStr (Product.category p));
   ("unit_price", VNum (Product.unit_price p));
   ("stock", VNum (Int (Product.stock p)))]%string.

Definition order_row (o : Order.t) : row :=
  [("order_id", VNum (Int (Order.order_id o)));
   ("customer_id", VNum (Int (Order.customer_id o)));
   ("order_datetime", VDatetime (Order.order_datetime o));
   ("shipping_state", VStr (Order.shipping_state o))]%string.

Definition order_detail_row (d : OrderDetail.t) : row :=
  [("order_detail_id", VNum (Int (OrderDetail.order_detail_id d)));
   ("order_id", VNum (Int (OrderDetail.order_id d)));
   ("product_id", VNum (Int (OrderDetail.product_id d)));
   ("quantity", VNum (Int (OrderDetail.quantity d)));
   ("unit_price", VNum (OrderDetail.unit_price d));
   ("discount", VNum (OrderDetail.discount d));
   ("line_total", VNum (OrderDetail.line_total d))]%string.

Definition payment_row (p : Payment.t) : row :=
  [("payment_id", VNum (Int (Payment.payment_id p)));
   ("order_id", VNum (Int (Payment.order_id p)));
   ("payment_method", VStr (Payment.payment_method p));
   ("payment_datetime", VDatetime (Payment.payment_datetime p));
   ("subtotal", VNum (Payment.subtotal p));
   ("tax", VNum (Payment.tax p));
   ("shipping", VNum (Payment.shipping p));
   ("total", VNum (Payment.total p));
   ("currency", VStr (Payment.currency p))]%string.

Definition dquote : ascii := ascii_of_nat 34.
Definition crlf : string :=
  String (ascii_of_nat 13) (String (ascii_of_nat 10) EmptyString).

Fixpoint needs_quote (s : string) : bool :=
  match s with
  | EmptyString => false
  | String c s' =>
      Ascii.eqb c "," || Ascii.eqb c dquote || Ascii.eqb c (ascii_of_nat 13)
      || Ascii.eqb c (ascii_of_nat 10) || needs_quote s'
  end.

Fixpoint double_quotes (s : string) : string :=
  match s with
  | EmptyString => EmptyString
  | String c s' =>
      if Ascii.eqb c dquote
      then String c (String c (double_quotes s'))
      else String c (double_quotes s')
  end.

(** A field as the [csv] writer emits it (minimal quoting). *)
Definition csv_field (s : string) : string :=
  if needs_quote s
  then String dquote (double_quotes s +:+ String dquote EmptyString)
  else s.

Fixpoint join (sep : string) (l : list string) : string :=
  match l with
  | [] => EmptyString
  | [s] => s
  | s :: l' => s +:+ sep +:+ join sep l'
  end.

Definition csv_line (fields : list string) : string :=
  join "," (csv_field <$> fields) +:+ crlf.

Fixpoint dict_get (key : string) (r : row) : option value :=
  match r with
  | [] => None
  | (k, v) :: r' => if String.eqb k key then Some v else dict_get key r'
  end.

Section WriteCsv.

(** [repr] on a float (the shortest decimal string that reads back as the
    same float), as the runtime provides it. *)
Variable repr_float : float -> string.

Definition str_value (v : value) : string :=
  match v with
  | VStr s => s
  | VNum (Int z) => pretty z
  | VNum (Float x) => repr_float x
  | VDate d => Datetime.str_date d
  | VDatetime dt => Datetime.str_datetime dt
  end.

(** One row of [DictWriter.writerows]: a key outside [fieldnames] raises
    [ValueError], a missing key is written as the empty string. *)
Definition csv_row (fieldnames : list string) (r : row) : result string :=
  if forallb (fun kv => existsb (String.eqb (fst kv)) fieldnames) r
  then Ok (csv_line ((fun k => match dict_get k r with
                               | Some v => str_value v
                               | None => EmptyString
                               end) <$> fieldnames))
  else Raise ValueError.

Fixpoint csv_rows (fieldnames : list string) (rows : list row)
    : result string :=
  match rows with
  | [] => Ok EmptyString
  | r :: rows' =>
      l ← csv_row fieldnames r;
      ls ← csv_rows fieldnames rows';
      Ok (l +:+ ls)%string
  end.

(** The text [write_csv] writes to its file. *)
Definition write_csv (rows : list row) (fieldnames : list string)
    : result string :=
  body ← csv_rows fieldnames rows;
  Ok (csv_line fieldnames +:+ body)%string.

(** The five files of a run. *)
Record Files : Type := mkFiles {
  customers_csv : string;
  products_csv : string;
  orders_csv : string;
  order_details_csv : string;
  payments_csv : string
}.

Variable poisson : num -> M num.

(** The collections [main] builds. *)
Definition generate (customer_count : Z)
    : M (list Customer.t * list Product.t * list Order.t
         * list OrderDetail.t * list Payment.t) :=
  customers ← generate_customers customer_count;
  products ← generate_products;
  orders ← generate_orders poisson customers (Float (F64.lit 25 10));
  order_details ← generate_order_details orders products;
  payments ← generate_payments orders order_details;
  mret (customers, products, orders, order_details, payments).

Definition write_files
    (data : list Customer.t * list Product.t * list Order.t
            * list OrderDetail.t * list Payment.t) : result Files :=
  let '(customers, products, orders, order_details, payments) := data in
  f1 ← write_csv (customer_row <$> customers)
         ["customer_id"; "name"; "email"; "phone"; "state"; "signup_date"]%string;
  f2 ← write_csv (product_row <$> products)
         ["product_id"; "name"; "category"; "unit_price"; "stock"]%string;
  f3 ← write_csv (order_row <$> orders)
         ["order_id"; "customer_id"; "order_datetime"; "shipping_state"]%string;
  f4 ← write_csv (order_detail_row <$> order_details)
         ["order_detail_id"; "order_id"; "product_id"; "quantity";
          "unit_price"; "discount"; "line_total"]%string;
  f5 ← write_csv (payment_row <$> payments)
         ["payment_id"; "order_id"; "payment_method"; "payment_datetime";
          "subtotal"; "tax"; "shipping"; "total"; "currency"]%string;
  Ok (mkFiles f1 f2 f3 f4 f5).

Definition main_with (customer_count : Z) : M Files :=
  data ← generate customer_count;
  lift (write_files data).

Definition main : M Files := main_with 200.

End WriteCsv.

(* ===================================================================== *)
(** * query_top_spenders.py *)
(* ===================================================================== *)

(** The four tables the query reads, with the columns and storage classes
    [ingest_to_sqlite.py] declares (INTEGER is [Z], REAL is [float]). *)
Module Store.

Record customers_row : Type := mkCustomer {
  c_customer_id : Z;
  c_name : string;
  c_email : string;
  c_phone : string;
  c_state : string;
  c_signup_date : string
}.

Record products_row : Type := mkProduct {
  p_product_id : Z;
  p_name : string;
  p_category : string;
  p_unit_price : float;
  p_stock : Z
}.

Record orders_row : Type := mkOrder {
  o_order_id : Z;
  o_customer_id : Z;
  o_order_datetime : string;
  o_shipping_state : string
}.

Record order_details_row : Type := mkDetail {
  od_order_detail_id : Z;
  od_order_id : Z;
  od_product_id : Z;
  od_quantity : Z;
  od_unit_price : float;
  od_discount : float;
  od_line_total : float
}.

Record t : Type := mk {
  customers : list customers_row;
  products : list products_row;
  orders : list orders_row;
  order_details : list order_details_row
}.

End Store.

Section Query.

(** The REAL aggregate [SUM] of the store over the values of one group, in
    scan order. *)
Variable sum : list float -> float.

(** [FROM customers c JOIN orders o ON ... JOIN order_details od ON ...
    JOIN products p ON ...]: the joined rows, as nested loops. *)
Definition joined (db : Store.t)
    : list (Store.customers_row * Store.orders_row
            * Store.order_details_row * Store.products_row) :=
  c ← Store.customers db;
  o ← filter (fun o => Store.o_customer_id o = Store.c_customer_id c)
         (Store.orders db);
  od ← filter (fun od => Store.od_order_id od = Store.o_order_id o)
          (Store.order_details db);
  p ← filter (fun p => Store.p_product_id p = Store.od_product_id od)
         (Store.products db);
  [(c, o, od, p)].

(** [od.quantity * od.unit_price]: INTEGER times REAL is REAL. *)
Definition spend (r : Store.customers_row * Store.orders_row
                      * Store.order_details_row * Store.products_row)
    : float :=
  let '(_, _, od, _) := r in
  F64.mul (F64.of_Z (Store.od_quantity od)) (Store.od_unit_price od).

Definition row_name (r : Store.customers_row * Store.orders_row
                         * Store.order_details_row * Store.products_row)
    : string :=
  let '(c, _, _, _) := r in Store.c_name c.

(** The spends of the joined rows whose [c.name] is [name]. *)
Definition group_spends (db : Store.t) (name : string) : list float :=
  spend <$> filter (fun r => row_name r = name) (joined db).

(** [GROUP BY c.name] with its select list: one row per distinct name. *)
Definition grouped (db : Store.t) : list (string * float) :=
  (fun name => (name, sum (group_spends db name)))
    <$> remove_dups (row_name <$> joined db).

(** The order of [ORDER BY total_spend DESC] on REAL values; a NaN is
    stored as NULL, which sorts below every number. *)
Definition sql_geb (a b : float) : bool :=
  match a, b with
  | _, S754_nan => true
  | S754_nan, _ => false
  | _, _ => F64.leb b a
  end.

Fixpoint insert_desc (r : string * float) (l : list (string * float))
    : list (string * float) :=
  match l with
  | [] => [r]
  | x :: l' =>
      if sql_geb (snd r) (snd x) then r :: l else x :: insert_desc r l'
  end.

Definition order_by_total_desc (l : list (string * float))
    : list (string * float) :=
  foldr insert_desc [] l.

(** The result set of [SQL]. *)
Definition top_spenders (db : Store.t) : list (string * float) :=
  take 5 (order_by_total_desc (grouped db)).

End Query.

(* ===================================================================== *)
(** * Vocabulary of the statements *)
(* ===================================================================== *)

(** The catalog entries in iteration order, each with its category. *)
Definition entries (cats : list (string * list (string * Z * Z)))
    : list (string * (string * Z * Z)) :=
  '(category, items) ← cats; pair category <$> items.

Definition catalog : list (string * (string * Z * Z)) :=
  entries PRODUCT_CATEGORIES.

(** An entry whose bounds are ordered and whose mean and deviation are
    representable. *)
Definition item_ok (item : string * Z * Z) : bool :=
  let '(_, lo, hi) := item in
  (lo <=? hi) &&
  match Num.int_truediv (lo + hi) 2, Num.int_truediv (hi - lo) 6 with
  | Ok _, Ok _ => true
  | _, _ => false
  end.

(** What the claim on the catalog says of a product and its entry. *)
Definition product_matches (p : Product.t) (entry : string * (string * Z * Z))
    : Prop :=
  let '(category, (name, min_price, max_price)) := entry in
  Product.name p = name ∧ Product.category p = category ∧
  Num.leb (Int min_price) (Product.unit_price p) = true ∧
  Num.leb (Product.unit_price p) (Int max_price) = true ∧
  (Product.unit_price p = Int min_price ∨
   Product.unit_price p = Int max_price ∨
   ∃ x, Product.unit_price p = Num.round2 x).

(** Ascending [order_datetime]. *)
Definition datetime_le (a b : Order.t) : Prop :=
  Order.order_datetime a <= Order.order_datetime b.

(** The lines of an order in the collection of order lines. *)
Definition lines_of (o : Order.t) (details : list OrderDetail.t)
    : list OrderDetail.t :=
  filter (fun d => OrderDetail.order_id d = Order.order_id o) details.

(** What one iteration of the order-line loop guarantees of the
    [item_count] it drew and of the lines it appended. *)
Definition block_ok (products : list Product.t) (order : Order.t)
    (b : Z * list OrderDetail.t) : Prop :=
  1 <= fst b /\
  Z.of_nat (length (snd b)) = Z.min (fst b) (Z.of_nat (length products)) /\
  (NoDup (Product.product_id <$> products) ->
   NoDup (OrderDetail.product_id <$> snd b)) /\
  Forall (fun d => OrderDetail.order_id d = Order.order_id order) (snd b).

(** A run of [m] never ends in exception [e]. *)
Definition never_raises {A} (e : exn) (m : M A) : Prop :=
  forall w, m w <> Raise e.

(** Python's left-to-right sum [acc + x1 + x2 + ...]. *)
Fixpoint sum_from (acc : num) (xs : list num) : result num :=
  match xs with
  | [] => Ok acc
  | x :: xs' => s ← Num.add acc x; sum_from s xs'
  end.

(** The line totals of the order lines carrying order id [k]. *)
Definition line_totals_of (k : Z) (details : list OrderDetail.t) : list num :=
  OrderDetail.line_total
    <$> filter (fun d => OrderDetail.order_id d = k) details.

(** The clock never runs backwards during a run of [m]. *)
Definition clock_mono {A} (m : M A) : Prop :=
  forall w a w', m w = Ok (a, w') -> clock_now w <= clock_now w'.

(** An order of one of the [customers], placed at least one day after the
    customer's signup date and on a calendar day not after [today]. *)
Definition order_dated (customers : list Customer.t) (today : Z)
    (o : Order.t) : Prop :=
  exists c, c ∈ customers /\
    Customer.customer_id c = Order.customer_id o /\
    (Customer.signup_date c + 1) * Datetime.day_us
    <= Order.order_datetime o /\
    Datetime.date (Order.order_datetime o) <= today.

(** The [i]-th next reading of a clock. *)
Fixpoint reading (now : Z) (ticks : list N) (i : nat) : Z :=
  match i, ticks with
  | S i', t :: ticks' => reading (now + Z.of_N t) ticks' i'
  | _, _ => now
  end.

(** Two states of the hidden inputs with the same random tape and whose
    clocks show the same calendar day at every reading. *)
Definition same_days (w1 w2 : World) : Prop :=
  rand_bits w1 = rand_bits w2 /\
  rand_normals w1 = rand_normals w2 /\
  forall i, Datetime.date (reading (clock_now w1) (clock_ticks w1) i)
            = Datetime.date (reading (clock_now w2) (clock_ticks w2) i).

(** Two outcomes that return the same value (or raise the same exception)
    and leave the hidden inputs in states with the same days. *)
Definition alike {A} (r1 r2 : result (A * World)) : Prop :=
  match r1, r2 with
  | Ok (a1, w1), Ok (a2, w2) => a1 = a2 /\ same_days w1 w2
  | Raise e1, Raise e2 => e1 = e2
  | _, _ => False
  end.

Definition related {A} (m1 m2 : M A) : Prop :=
  forall w1 w2, same_days w1 w2 -> alike (m1 w1) (m2 w2).

(** Rows in non-increasing order of [total_spend]. *)
Definition descending (rows : list (string * float)) : Prop :=
  Sorted (fun a b => sql_geb (snd a) (snd b) = true) rows.

(** Rows in strictly decreasing order of [total_spend]. *)
Definition strictly_descending (rows : list (string * float)) : Prop :=
  Sorted (fun a b => F64.ltb (snd b) (snd a) = true) rows.

(** The spends of the order lines of the orders of one customer. *)
Definition customer_spends (db : Store.t) (c : Store.customers_row)
    : list float :=
  spend <$> filter (fun r => Store.c_customer_id (fst (fst (fst r)))
                             = Store.c_customer_id c) (joined db).

(** Every row is the name of a customer with the sum of the spends of that
    customer's order lines. *)
Definition per_customer (sum : list float -> float) (db : Store.t)
    (rows : list (string * float)) : Prop :=
  forall name total, (name, total) ∈ rows ->
    exists c, c ∈ Store.customers db /\ Store.c_name c = name /\
              total = sum (customer_spends db c).

(** A REAL sum by repeated addition from 0.0. *)
Definition float_sum (xs : list float) : float :=
  foldl F64.add (S754_zero false) xs.

(** A store with two customers of the same name, one order line of 10.0
    each, and a third customer with one line of 2 times 10.0. *)
Definition shop : Store.t :=
  let ten := F64.lit 10 1 in
  let zero := S754_zero false in
  Store.mk
    [Store.mkCustomer 1 "Emma Smith" "emma.smith@gmail.com"
       "+1-200-200-1000" "CA" "2026-01-01";
     Store.mkCustomer 2 "Emma Smith" "emma.smith7@yahoo.com"
       "+1-201-200-1000" "NY" "2026-01-02";
     Store.mkCustomer 3 "Liam Brown" "liam.brown@gmail.com"
       "+1-202-200-1000" "TX" "2026-01-03"]
    [Store.mkProduct 1 "Ceramic Mug" "Home" ten 100]
    [Store.mkOrder 1 1 "2026-02-01 08:00:00" "CA";
     Store.mkOrder 2 2 "2026-02-02 08:00:00" "NY";
     Store.mkOrder 3 3 "2026-02-03 08:00:00" "TX"]
    [Store.mkDetail 1 1 1 1 ten zero ten;
     Store.mkDetail 2 2 1 1 ten zero ten;
     Store.mkDetail 3 3 1 2 ten zero (F64.lit 20 1)].

(** A finite float as a signed mantissa and a binary exponent. *)
Definition dyadic (x : float) : option (Z * Z) :=
  match x with
  | S754_zero _ => Some (0, 0)
  | S754_finite s m e => Some (if s then Zneg m else Zpos m, e)
  | _ => None
  end.

(** Two finite floats differ by at most 0.01, exactly: with both scaled
    to the common exponent [k], [100 * |a - b| <= 1]. *)
Definition float_within_cent (a b : float) : Prop :=
  match dyadic a, dyadic b with
  | Some (ma, ea), Some (mb, eb) =>
      let k := Z.min (Z.min ea eb) 0 in
      100 * Z.abs (ma * 2 ^ (ea - k) - mb * 2 ^ (eb - k)) <= 2 ^ (- k)
  | _, _ => False
  end.

(** Two Python numbers of the same kind differ by at most 0.01. *)
Definition within_cent (a b : num) : Prop :=
  match a, b with
  | Int x, Int y => 100 * Z.abs (x - y) <= 1
  | Float x, Float y => float_within_cent x y
  | _, _ => False
  end.

(** A Python number that is an int or a finite IEEE 754 binary64 float in
    its canonical representation. *)
Definition binary64 (a : num) : bool :=
  match a with
  | Int _ => true
  | Float x => is_finite x && valid_binary 53 1024 x
  end.

(** Earlier [order_datetime], or the same [order_datetime] and a smaller
    [order_id]. *)
Definition datetime_then_id (a b : Order.t) : Prop :=
  Order.order_datetime a < Order.order_datetime b \/
  (Order.order_datetime a = Order.order_datetime b /\
   Order.order_id a < Order.order_id b).

(** An order placed by customer [c] and shipped to that customer's state. *)
Definition order_of (c : Customer.t) (o : Order.t) : Prop :=
  Order.customer_id o = Customer.customer_id c /\
  Order.shipping_state o = Customer.state c.

(** The characters of a string. *)
Definition chars (s : string) : list ascii := list_ascii_of_string s.

(** An ASCII capital letter. *)
Definition is_upper (c : ascii) : bool :=
  let n := nat_of_ascii c in (65 <=? n)%nat && (n <=? 90)%nat.

(** A 7-bit character: the ones on which [str.lower] is [lower_ascii]. *)
Definition is_ascii (c : ascii) : bool := (nat_of_ascii c <? 128)%nat.

(** A first name, a space and a last name from the two lists. *)
Definition full_name (name : string) : Prop :=
  exists f l, f ∈ FIRST_NAMES /\ l ∈ LAST_NAMES /\
              name = (f +:+ " " +:+ l)%string.

(** [+1-AAA-BBB-CCCC] with [AAA] and [BBB] from 200 to 999 and [CCCC] from
    1000 to 9999. *)
Definition phone_number (phone : string) : Prop :=
  exists a b c, 200 <= a <= 999 /\ 200 <= b <= 999 /\ 1000 <= c <= 9999 /\
    phone = ("+1-" +:+ pretty a +:+ "-" +:+ pretty b +:+ "-" +:+ pretty c)%string.

(** The clock shows a day from [lo] to [hi] at every reading to come. *)
Definition clock_within (lo hi : Z) (w : World) : Prop :=
  forall i, lo <= Datetime.date (reading (clock_now w) (clock_ticks w) i) <= hi.

(** From a state satisfying [P], the run of [m] returns a value satisfying
    [Q] and leaves a state satisfying [P]. *)
Definition returns {A} (P : World -> Prop) (Q : A -> Prop) (m : M A) : Prop :=
  forall w, P w -> exists a w', m w = Ok (a, w') /\ P w' /\ Q a.

(** What [generate_customers] guarantees of a customer generated between
    the days [first] and [last] of the clock. *)
Definition customer_ok (first last : Z) (c : Customer.t) : Prop :=
  full_name (Customer.name c) /\
  phone_number (Customer.phone c) /\
  Customer.state c ∈ STATES /\
  first - 900 <= Customer.signup_date c <= last - 30.

(** What [generate_order_details] guarantees of a line: it belongs to one
    of the orders, copies the id and the price of one of the products, has
    a quantity of at least 1, a discount that is the int 0 or a float
    rounded to two decimals, and the line total of the source's formula. *)
Definition line_ok (orders : list Order.t) (products : list Product.t)
    (d : OrderDetail.t) : Prop :=
  (exists o, o ∈ orders /\ OrderDetail.order_id d = Order.order_id o) /\
  (exists p, p ∈ products /\
     OrderDetail.product_id d = Product.product_id p /\
     OrderDetail.unit_price d = Product.unit_price p) /\
  1 <= OrderDetail.quantity d /\
  (OrderDetail.discount d = Int 0 \/
   exists x, OrderDetail.discount d = Num.round2 x) /\
  (a ← Num.mul (OrderDetail.unit_price d) (Int (OrderDetail.quantity d));
   b ← Num.sub (Int 1) (OrderDetail.discount d);
   Num.round2 <$> Num.mul a b) = Ok (OrderDetail.line_total d).

(** The payment [p] of order [o]: made 5 to 90 whole minutes after the
    order, by one of the payment methods, in USD. *)
Definition payment_of (o : Order.t) (p : Payment.t) : Prop :=
  Payment.order_id p = Order.order_id o /\
  (exists minutes, 5 <= minutes <= 90 /\
     Payment.payment_datetime p
     = Order.order_datetime o + minutes * 60000000) /\
  Payment.payment_method p ∈ PAYMENT_METHODS /\
  Payment.currency p = "USD"%string.

(** The primary keys of the five collections are pairwise distinct, and
    every foreign key names a row of the collection it refers to. *)
Definition keys_ok (customers : list Customer.t) (products : list Product.t)
    (orders : list Order.t) (details : list OrderDetail.t)
    (payments : list Payment.t) : Prop :=
  NoDup (Customer.customer_id <$> customers) /\
  NoDup (Product.product_id <$> products) /\
  NoDup (Order.order_id <$> orders) /\
  NoDup (OrderDetail.order_detail_id <$> details) /\
  NoDup (Payment.payment_id <$> payments) /\
  Forall (fun o => Order.customer_id o ∈ Customer.customer_id <$> customers)
    orders /\
  Forall (fun d => OrderDetail.order_id d ∈ Order.order_id <$> orders /\
                   OrderDetail.product_id d ∈ Product.product_id <$> products)
    details /\
  Forall (fun p => Payment.order_id p ∈ Order.order_id <$> orders) payments.

(** The keys of a row dict. *)
Definition row_keys (r : row) : list string := fst <$> r.

(** The order lines of a customer: the lines of each of the customer's
    orders, order by order. *)
Definition customer_lines (db : Store.t) (c : Store.customers_row)
    : list Store.order_details_row :=
  o ← filter (fun o => Store.o_customer_id o = Store.c_customer_id c)
         (Store.orders db);
  filter (fun od => Store.od_order_id od = Store.o_order_id o)
    (Store.order_details db).

(** [quantity * unit_price] of an order line. *)
Definition line_spend (od : Store.order_details_row) : float :=
  F64.mul (F64.of_Z (Store.od_quantity od)) (Store.od_unit_price od).

(** Some customer called [name] has an order with an order line. *)
Definition has_lines (db : Store.t) (name : string) : Prop :=
  exists c o od,
    c ∈ Store.customers db /\ o ∈ Store.orders db /\
    od ∈ Store.order_details db /\
    Store.o_customer_id o = Store.c_customer_id c /\
    Store.od_order_id od = Store.o_order_id o /\
    Store.c_name c = name.

(** The only customer called [Store.c_name c]. *)
Definition only_of_name (db : Store.t) (c : Store.customers_row) : Prop :=
  c ∈ Store.customers db /\
  forall c', c' ∈ Store.customers db ->
    Store.c_name c' = Store.c_name c -> c' = c.

(** What the tables' constraints guarantee the query: customer ids and
    product ids are primary keys, and every order line references a
    product. *)
Definition constrained (db : Store.t) : Prop :=
  NoDup (Store.c_customer_id <$> Store.customers db) /\
  NoDup (Store.p_product_id <$> Store.products db) /\
  Forall (fun od => Store.od_product_id od
                    ∈ Store.p_product_id <$> Store.products db)
    (Store.order_details db).

(** A rank on which [SFcompare] is the lexicographic comparison. *)
Definition float_rank (x : float) : Z * Z * Z :=
  match x with
  | S754_infinity true => (-2, 0, 0)
  | S754_finite true m e => (-1, - e, Zneg m)
  | S754_zero _ => (0, 0, 0)
  | S754_finite false m e => (1, e, Zpos m)
  | S754_infinity false => (2, 0, 0)
  | S754_nan => (3, 0, 0)
  end.

Definition rank_le (a b : Z * Z * Z) : Prop :=
  let '(a1, a2, a3) := a in
  let '(b1, b2, b3) := b in
  a1 < b1 \/ (a1 = b1 /\ (a2 < b2 \/ (a2 = b2 /\ a3 <= b3))).

(** The joined rows, customer by customer. *)
Definition customer_rows (db : Store.t) (c : Store.customers_row)
    : list (Store.customers_row * Store.orders_row
            * Store.order_details_row * Store.products_row) :=
  o ← filter (fun o => Store.o_customer_id o = Store.c_customer_id c)
         (Store.orders db);
  od ← filter (fun od => Store.od_order_id od = Store.o_order_id o)
          (Store.order_details db);
  p ← filter (fun p => Store.p_product_id p = Store.od_product_id od)
         (Store.products db);
  [(c, o, od, p)].

(** What [random.poisson] does in a run: the attribute is missing. *)
Definition no_poisson : num -> M num := fun _ => raise AttributeError.

(** [generate_orders] with the Poisson branch removed. *)
Definition orders_count_gauss (avg_orders_per_customer : num) : M Z :=
  x ← Random.gauss avg_orders_per_customer (Int 1);
  n ← lift (Num.to_int x);
  mret (Z.max 1 n).

Fixpoint orders_loop_gauss (customers : list Customer.t)
    (avg_orders_per_customer : num) (oid : Z) : M (list Order.t) :=
  match customers with
  | [] => mret []
  | c :: customers' =>
      n ← orders_count_gauss avg_orders_per_customer;
      os ← customer_orders c (Z.to_nat n) oid;
      rest ← orders_loop_gauss customers' avg_orders_per_customer
               (oid + Z.of_nat (length os));
      mret (os ++ rest)
  end.

Definition generate_orders_gauss (customers : list Customer.t)
    (avg_orders_per_customer : num) : M (list Order.t) :=
  orders ← orders_loop_gauss customers avg_orders_per_customer 1;
  mret (sort_by_datetime orders).

(** ** Concrete runs *)

(** 2026-11-06 09:00:00 on the clock. *)
Definition nine_o_clock : Z := 739926 * Datetime.day_us + 9 * 3600000000.

(** A run of one customer whose single order falls on the day of the run,
    at 21:59: the deviate 3 puts the day offset at its upper clamp, and the
    draws 13 and 59 pick the last hour and minute. *)
Definition late_world : World :=
  mkWorld (replicate 29 0 ++ [13; 59])
          (replicate 20 (0, 0) ++ [(-1, 0); (3, 0)])
          nine_o_clock (replicate 4 1000%N).

(** A run of one customer with one order of three lines, each of quantity
    1 and without discount, of the Laptop Sleeve at 59.80, the Smartphone
    Case at 9.10 and the Ceramic Mug at 6.10: the deviates of those three
    products put their prices there, and the draws 3, 1 and 5 make the
    sample pick them in this order. *)
Definition threshold_world : World :=
  mkWorld (replicate 31 0 ++ [3; 1; 5])
          ([(0, 0); (-3124756, -20); (0, 0); (2010798, -20); (0, 0);
            (-3100789, -20)]
           ++ replicate 14 (0, 0)
           ++ [(-1, 0); (0, 0); (1, 0); (-1, 0); (-1, 0); (-1, 0)])
          nine_o_clock [].

(** A random state and three clocks: 09:00 and 21:00 on 2026-11-06, and
    09:00 on the next day. *)
Definition tape : list Z :=
  [3; 14; 15; 92; 65; 35; 89; 79; 32; 38; 46; 26; 43; 38; 32; 79; 50; 28;
   84; 19; 71; 69; 39; 93; 75; 10; 58; 20; 97; 49; 44; 59; 23; 7; 81; 64].

Definition deviates : list (Z * Z) :=
  [(1, -1); (-3, -2); (5, -3); (-1, 0); (7, -2); (0, 0); (-9, -3); (3, -1)].

Definition morning : World :=
  mkWorld tape deviates nine_o_clock (replicate 8 250%N).

Definition evening : World :=
  mkWorld tape deviates (nine_o_clock + 12 * 3600000000 + 1234567)
          (replicate 3 90000%N).

Definition next_morning : World :=
  mkWorld tape deviates (nine_o_clock + Datetime.day_us)
          (replicate 8 250%N).

(** The value and final state of a run that returns. *)
Definition returned {A} (d : A) (m : M A) (w : World) : A * World :=
  match m w with
  | Ok r => r
  | Raise _ => (d, w)
  end.

(** The stages of a run of three customers in the morning. *)
Definition demo_customers : list Customer.t :=
  Eval vm_compute in fst (returned [] (generate_customers 3) morning).
Definition after_customers : World :=
  Eval vm_compute in snd (returned [] (generate_customers 3) morning).
Definition demo_products : list Product.t :=
  Eval vm_compute in fst (returned [] generate_products after_customers).
Definition after_products : World :=
  Eval vm_compute in snd (returned [] generate_products after_customers).
Definition demo_orders : list Order.t :=
  Eval vm_compute in
    fst (returned [] (generate_orders no_poisson demo_customers
                        (Float (F64.lit 25 10))) after_products).
Definition after_orders : World :=
  Eval vm_compute in
    snd (returned [] (generate_orders no_poisson demo_customers
                        (Float (F64.lit 25 10))) after_products).
Definition demo_details : list OrderDetail.t :=
  Eval vm_compute in
    fst (returned [] (generate_order_details demo_orders demo_products)
           after_orders).
Definition after_details : World :=
  Eval vm_compute in
    snd (returned [] (generate_order_details demo_orders demo_products)
           after_orders).
Definition demo_payments : list Payment.t :=
  Eval vm_compute in
    fst (returned [] (generate_payments demo_orders demo_details)
           after_details).
Definition after_payments : World :=
  Eval vm_compute in
    snd (returned [] (generate_payments demo_orders demo_details)
           after_details).

(** The order of [threshold_world], its three lines, and the state in
    which the payments are generated. *)
Definition threshold_stage : list Order.t * list OrderDetail.t * World :=
  Eval vm_compute in
    returned ([], [])
      (customers ← generate_customers 1;
       products ← generate_products;
       orders ← generate_orders no_poisson customers (Float (F64.lit 25 10));
       order_details ← generate_order_details orders products;
       mret (orders, order_details))
      threshold_world.
Definition threshold_orders : list Order.t :=
  Eval vm_compute in fst (fst threshold_stage).
Definition threshold_details : list OrderDetail.t :=
  Eval vm_compute in snd (fst threshold_stage).
Definition threshold_before_payments : World :=
  Eval vm_compute in snd threshold_stage.
Definition threshold_payments : list Payment.t :=
  Eval vm_compute in
    fst (returned [] (generate_payments threshold_orders threshold_details)
           threshold_before_payments).
Definition threshold_after_payments : World :=
  Eval vm_compute in
    snd (returned [] (generate_payments threshold_orders threshold_details)
           threshold_before_payments).

(** An order date drawn in the morning for a customer who signed up on the
    day of the run. *)
Definition same_day_order : Z * World :=
  Eval vm_compute in
    returned 0 (random_order_date (Datetime.date nine_o_clock)) morning.

(** A phone number and an e-mail address drawn in the morning. *)
Definition morning_phone : string * World :=
  Eval vm_compute in returned ""%string random_phone morning.
Definition morning_email : string * World :=
  Eval vm_compute in returned ""%string (random_email "Emma Smith") morning.

(** The only order of [threshold_world]. *)
Definition threshold_order : Order.t :=
  Eval vm_compute in default (Order.mk 0 0 0 ""%string) (head threshold_orders).

(** The five collections of the morning run. *)
Definition demo_data
    : list Customer.t * list Product.t * list Order.t
      * list OrderDetail.t * list Payment.t :=
  (demo_customers, demo_products, demo_orders, demo_details, demo_payments).

(** The third customer of [shop]. *)
Definition liam_brown : Store.customers_row :=
  Store.mkCustomer 3 "Liam Brown" "liam.brown@gmail.com"
    "+1-202-200-1000" "TX" "2026-01-03".

(* ===================================================================== *)
(** * Reasoning about runs *)
(* ===================================================================== *)

Section MonadLaws.

Context {A B : Type}.

Lemma bind_ok (m : M A) (f : A -> M B) w a w1 :
  m w = Ok (a, w1) -> (m ≫= f) w = f a w1.
Proof. intros E. unfold mbind, M_bind. now rewrite E. Qed.

Lemma bind_inv (m : M A) (f : A -> M B) w b w' :
  (m ≫= f) w = Ok (b, w') ->
  exists a w1, m w = Ok (a, w1) /\ f a w1 = Ok (b, w').
Proof.
  unfold mbind, M_bind. destruct (m w) as [[a w1]|e]; [|discriminate].
  intros E. now exists a, w1.
Qed.

Lemma bind_raise (m : M A) (f : A -> M B) w e :
  (m ≫= f) w = Raise e ->
  m w = Raise e \/ exists a w1, m w = Ok (a, w1) /\ f a w1 = Raise e.
Proof.
  unfold mbind, M_bind. destruct (m w) as [[a w1]|e']; intros E.
  - right. now exists a, w1.
  - left. congruence.
Qed.

Lemma fmap_inv (f : A -> B) (m : M A) w b w' :
  (f <$> m) w = Ok (b, w') -> exists a, m w = Ok (a, w') /\ b = f a.
Proof.
  unfold fmap, M_fmap. destruct (m w) as [[a w1]|e]; [|discriminate].
  intros E. injection E as <- <-. now exists a.
Qed.

Lemma rbind_inv (r : result A) (f : A -> result B) b :
  r ≫= f = Ok b -> exists a, r = Ok a /\ f a = Ok b.
Proof. destruct r as [a|e]; [|discriminate]. intros E. now exists a. Qed.

Lemma rfmap_inv (f : A -> B) (r : result A) b :
  f <$> r = Ok b -> exists a, r = Ok a /\ b = f a.
Proof.
  destruct r as [a|e]; [|discriminate]. intros E. injection E as <-.
  now exists a.
Qed.

End MonadLaws.

Lemma ret_inv {A} (a b : A) w w' :
  (mret a : M A) w = Ok (b, w') -> a = b /\ w = w'.
Proof. intros E. injection E as <- <-. now split. Qed.

Lemma lift_inv {A} (r : result A) w a w' :
  lift r w = Ok (a, w') -> r = Ok a /\ w = w'.
Proof.
  unfold lift. destruct r; [|discriminate]. intros E. injection E as <- <-.
  now split.
Qed.

Lemma lift_ok {A} (r : result A) a w : r = Ok a -> lift r w = Ok (a, w).
Proof. now intros ->. Qed.

Lemma raise_inv {A} e w (a : A) w' : raise e w = Ok (a, w') -> False.
Proof. discriminate. Qed.

(** Decompose the hypotheses that say a run returned. *)
Ltac inv_run :=
  repeat match goal with
  | H : (_ ≫= _) _ = Ok (_, _) |- _ =>
      let a := fresh "a" in let w := fresh "w" in
      let H1 := fresh "Hrun" in let H2 := fresh "Hrun" in
      apply bind_inv in H; destruct H as (a & w & H1 & H2)
  | H : mbind _ _ _ = Ok (_, _) |- _ =>
      let a := fresh "a" in let w := fresh "w" in
      let H1 := fresh "Hrun" in let H2 := fresh "Hrun" in
      apply bind_inv in H; destruct H as (a & w & H1 & H2)
  | H : mret _ _ = Ok (_, _) |- _ =>
      apply ret_inv in H; destruct H; subst
  | H : lift _ _ = Ok (_, _) |- _ =>
      apply lift_inv in H; destruct H; subst
  | H : (_ <$> _) _ = Ok (_, _) |- _ =>
      let a := fresh "a" in let H1 := fresh "Hrun" in
      apply fmap_inv in H; destruct H as (a & H1 & ->)
  | H : raise _ _ = Ok (_, _) |- _ => destruct (raise_inv _ _ _ _ H)
  | H : _ ≫= _ = Ok _ |- _ =>
      let a := fresh "a" in
      let H1 := fresh "Hres" in let H2 := fresh "Hres" in
      apply rbind_inv in H; destruct H as (a & H1 & H2)
  | H : _ <$> _ = Ok _ |- _ =>
      let a := fresh "a" in let H1 := fresh "Hres" in
      apply rfmap_inv in H; destruct H as (a & H1 & ->)
  | H : Ok _ = Ok _ |- _ => injection H as H; subst
  end.

(** ** The primitives of [random] always return *)

Lemma next_bits_total w : exists b w', next_bits w = Ok (b, w').
Proof. unfold next_bits. destruct (rand_bits w); eauto. Qed.

Lemma next_normal_total w : exists z w', next_normal w = Ok (z, w').
Proof. unfold next_normal. destruct (rand_normals w) as [|[m e] zs]; eauto. Qed.

Lemma randbelow_spec n w k w' :
  Random.randbelow n w = Ok (k, w') -> 0 < n -> 0 <= k < n.
Proof.
  intros H Hn. apply bind_inv in H as (b & w1 & _ & H).
  apply ret_inv in H as [<- _]. now apply Z.mod_pos_bound.
Qed.

Lemma randbelow_total n w : exists k w', Random.randbelow n w = Ok (k, w').
Proof.
  unfold Random.randbelow. destruct (next_bits_total w) as (x & w' & Hx).
  rewrite (bind_ok _ _ _ _ _ Hx). eauto.
Qed.

Lemma random_total w : exists r w', Random.random w = Ok (r, w').
Proof.
  unfold Random.random. destruct (next_bits_total w) as (x & w' & Hx).
  rewrite (bind_ok _ _ _ _ _ Hx). eauto.
Qed.

Lemma randint_spec a b w k w' :
  Random.randint a b w = Ok (k, w') -> a <= k <= b.
Proof.
  unfold Random.randint. destruct (b <? a) eqn:E; [discriminate|].
  apply Z.ltb_ge in E. intros H.
  apply bind_inv in H as (j & w1 & Hj & H). apply ret_inv in H as [<- _].
  apply randbelow_spec in Hj; lia.
Qed.

Lemma randint_total a b w :
  a <= b -> exists k w', Random.randint a b w = Ok (k, w').
Proof.
  intros Hab. unfold Random.randint.
  destruct (b <? a) eqn:E; [apply Z.ltb_lt in E; lia|].
  destruct (randbelow_total (b - a + 1) w) as (x & w' & Hx).
  rewrite (bind_ok _ _ _ _ _ Hx). eauto.
Qed.

Lemma gauss_float_total mu sigma w :
  exists x w', Random.gauss (Float mu) (Float sigma) w = Ok (Float x, w').
Proof.
  unfold Random.gauss. destruct (next_normal_total w) as (z & w' & Hz).
  rewrite (bind_ok _ _ _ _ _ Hz). cbn. eauto.
Qed.

(** ** The product catalog *)

Lemma ltb_leb a b : Num.ltb a b = true -> Num.leb a b = true.
Proof. unfold Num.ltb, Num.leb. now destruct (Num.compare a b) as [[]|]. Qed.

Lemma leb_Int a b : a <= b -> Num.leb (Int a) (Int b) = true.
Proof.
  intros H. unfold Num.leb. cbn. now destruct (a ?= b) eqn:E.
Qed.

Lemma clamp_bounds lo hi x :
  lo <= hi ->
  let p := Num.max (Int lo) (Num.min (Int hi) x) in
  Num.leb (Int lo) p = true /\ Num.leb p (Int hi) = true /\
  (p = Int lo \/ p = Int hi \/ p = x).
Proof.
  intros Hle. unfold Num.max, Num.min, Num.gtb.
  destruct (Num.ltb x (Int hi)) eqn:E1.
  - destruct (Num.ltb (Int lo) x) eqn:E2.
    + auto using ltb_leb.
    + split; [apply leb_Int; lia|]. split; [now apply leb_Int|auto].
  - destruct (Num.ltb (Int lo) (Int hi)) eqn:E2.
    + split; [now apply leb_Int|]. split; [apply leb_Int; lia|auto].
    + split; [apply leb_Int; lia|]. split; [now apply leb_Int|auto].
Qed.

Lemma generate_product_total pid category item w :
  item_ok item = true ->
  exists p w', generate_product pid category item w = Ok (p, w') /\
    Product.product_id p = pid /\ product_matches p (category, item).
Proof.
  destruct item as [[name lo] hi]. unfold item_ok, generate_product.
  intros H. apply andb_true_iff in H as [Hle H]. apply Z.leb_le in Hle.
  destruct (Num.int_truediv (lo + hi) 2) as [mu|]; [|discriminate].
  destruct (Num.int_truediv (hi - lo) 6) as [sigma|]; [|discriminate].
  cbn [lift]. unfold Random.normalvariate.
  rewrite (bind_ok _ _ _ _ _ (lift_ok (Ok mu) mu w eq_refl)).
  rewrite (bind_ok _ _ _ _ _ (lift_ok (Ok sigma) sigma w eq_refl)).
  destruct (gauss_float_total mu sigma w) as (x & w1 & Hx).
  rewrite (bind_ok _ _ _ _ _ Hx).
  destruct (randint_total 50 500 w1) as (k & w2 & Hk); [lia|].
  rewrite (bind_ok _ _ _ _ _ Hk).
  eexists _, _. split; [reflexivity|]. split; [reflexivity|].
  unfold product_matches.
  cbn [Product.name Product.category Product.unit_price].
  destruct (clamp_bounds lo hi (Num.round2 (Float x)) Hle) as (H1 & H2 & H3).
  repeat split; try assumption.
  destruct H3 as [->| [->| ->]]; eauto.
Qed.

Lemma products_items_total category items pid w :
  forallb item_ok items = true ->
  exists ps w', products_items category items pid w = Ok (ps, w') /\
    Product.product_id <$> ps = seqZ pid (Z.of_nat (length items)) /\
    Forall2 product_matches ps (pair category <$> items).
Proof.
  revert pid w. induction items as [|item items IH]; intros pid w Hok.
  - exists [], w. repeat split. constructor.
  - cbn [forallb] in Hok. apply andb_true_iff in Hok as [Hitem Hok].
    destruct (generate_product_total pid category item w Hitem)
      as (p & w1 & Hp & Hid & Hm).
    destruct (IH (pid + 1) w1 Hok) as (ps & w2 & Hps & Hids & Hms).
    exists (p :: ps), w2. cbn [products_items].
    rewrite (bind_ok _ _ _ _ _ Hp), (bind_ok _ _ _ _ _ Hps).
    split; [reflexivity|]. split.
    + rewrite seqZ_cons by (cbn [length]; lia). cbn [fmap list_fmap].
      rewrite Hid, Hids. f_equal. f_equal; cbn [length]; lia.
    + now constructor.
Qed.

Lemma products_loop_total cats pid w :
  forallb (fun c => forallb item_ok (snd c)) cats = true ->
  exists ps w', products_loop cats pid w = Ok (ps, w') /\
    Product.product_id <$> ps = seqZ pid (Z.of_nat (length (entries cats))) /\
    Forall2 product_matches ps (entries cats).
Proof.
  revert pid w. induction cats as [|[category items] cats IH]; intros pid w Hok.
  - exists [], w. repeat split. constructor.
  - cbn [forallb snd] in Hok. apply andb_true_iff in Hok as [Hitems Hok].
    destruct (products_items_total category items pid w Hitems)
      as (ps & w1 & Hps & Hids & Hms).
    destruct (IH (pid + Z.of_nat (length items)) w1 Hok)
      as (qs & w2 & Hqs & Hidq & Hmq).
    exists (ps ++ qs), w2. cbn [products_loop].
    rewrite (bind_ok _ _ _ _ _ Hps), (bind_ok _ _ _ _ _ Hqs).
    split; [reflexivity|].
    assert (E : entries ((category, items) :: cats)
                = (pair category <$> items) ++ entries cats) by reflexivity.
    rewrite E. split.
    + rewrite fmap_app, Hids, Hidq, length_app, length_fmap, Nat2Z.inj_add.
      symmetry. apply seqZ_app; lia.
    + now apply Forall2_app.
Qed.

(** C8: the catalog generator always returns exactly 20 products, with ids
    1..20 in order, and each unit price lies within the bounds of its
    catalog entry: it is a bound itself or a value rounded to 2 decimals. *)
Theorem generate_products_catalog (w : World) :
  exists ps w',
    generate_products w = Ok (ps, w') /\
    length ps = 20%nat /\
    Product.product_id <$> ps = seqZ 1 20 /\
    Forall2 product_matches ps catalog.
Proof.
  destruct (products_loop_total PRODUCT_CATEGORIES 1 w) as (ps & w' & H & Hid & Hm).
  { vm_compute. reflexivity. }
  exists ps, w'. split; [exact H|]. split; [|split; [exact Hid|exact Hm]].
  apply Forall2_length in Hm. rewrite Hm. reflexivity.
Qed.

(** ** The order count and the Poisson branch *)

Lemma orders_count_gauss_eq poisson avg :
  orders_count poisson avg = orders_count_gauss avg.
Proof. reflexivity. Qed.

Lemma orders_loop_gauss_eq poisson customers avg oid w :
  orders_loop poisson customers avg oid w
  = orders_loop_gauss customers avg oid w.
Proof.
  revert oid w. induction customers as [|c cs IH]; intros oid w.
  - reflexivity.
  - cbn [orders_loop orders_loop_gauss]. rewrite orders_count_gauss_eq.
    unfold mbind, M_bind.
    destruct (orders_count_gauss avg w) as [[n w1]|]; [|reflexivity].
    destruct (customer_orders c (Z.to_nat n) oid w1) as [[os w2]|];
      [|reflexivity].
    now rewrite IH.
Qed.

(** C10: the [random] module has no attribute [poisson], so whatever a
    Poisson sampler would do, the order count of every customer is
    [max(1, int(gauss(avg, 1)))] and [generate_orders] coincides with the
    version that has no Poisson branch. *)
Theorem generate_orders_poisson_branch_dead :
  Random.hasattr "poisson" = false /\
  (forall poisson avg w,
     orders_count poisson avg w
     = (x ← Random.gauss avg (Int 1);
        n ← lift (Num.to_int x);
        mret (Z.max 1 n)) w) /\
  (forall poisson customers avg w,
     generate_orders poisson customers avg w
     = generate_orders_gauss customers avg w).
Proof.
  split; [reflexivity|]. split; [reflexivity|].
  intros poisson customers avg w. unfold generate_orders, generate_orders_gauss.
  unfold mbind, M_bind. now rewrite orders_loop_gauss_eq.
Qed.

(** ** Orders: ids, grouping and the final sort *)

Lemma insert_by_datetime_perm o l :
  Permutation (o :: l) (insert_by_datetime o l).
Proof.
  induction l as [|x l IH]; cbn [insert_by_datetime]; [reflexivity|].
  destruct (Order.order_datetime o <=? Order.order_datetime x); [reflexivity|].
  rewrite perm_swap. now constructor.
Qed.

Lemma sort_by_datetime_perm l : Permutation l (sort_by_datetime l).
Proof.
  induction l as [|o l IH]; [reflexivity|]. cbn [sort_by_datetime foldr].
  rewrite <- insert_by_datetime_perm. now constructor.
Qed.

Lemma insert_by_datetime_sorted o l :
  Sorted datetime_le l -> Sorted datetime_le (insert_by_datetime o l).
Proof.
  induction 1 as [|x l Hs IH Hhd]; cbn [insert_by_datetime].
  - repeat constructor.
  - destruct (Order.order_datetime o <=? Order.order_datetime x) eqn:E.
    + apply Z.leb_le in E. repeat constructor; assumption.
    + apply Z.leb_gt in E. constructor; [exact IH|].
      destruct Hhd as [|y l Hxy]; cbn [insert_by_datetime].
      * constructor. unfold datetime_le. lia.
      * destruct (Order.order_datetime o <=? Order.order_datetime y);
          constructor; unfold datetime_le in *; lia.
Qed.

Lemma sort_by_datetime_sorted l : Sorted datetime_le (sort_by_datetime l).
Proof.
  induction l as [|o l IH]; [constructor|].
  now apply insert_by_datetime_sorted.
Qed.

Lemma orders_count_pos poisson avg w n w' :
  orders_count poisson avg w = Ok (n, w') -> 1 <= n.
Proof.
  rewrite orders_count_gauss_eq. unfold orders_count_gauss. intros H.
  inv_run. lia.
Qed.

Lemma customer_orders_spec c n oid w os w' :
  customer_orders c n oid w = Ok (os, w') ->
  length os = n /\
  Order.order_id <$> os = seqZ oid (Z.of_nat n) /\
  Order.customer_id <$> os = replicate n (Customer.customer_id c).
Proof.
  revert oid w os w'. induction n as [|n IH]; intros oid w os w' H;
    cbn [customer_orders] in H; inv_run.
  - now repeat split.
  - destruct (IH _ _ _ _ Hrun1) as (Hlen & Hids & Hcs).
    cbn [length fmap list_fmap Order.order_id Order.customer_id replicate].
    split; [now rewrite Hlen|]. split.
    + rewrite (seqZ_cons oid) by lia. f_equal.
      change (Order.order_id <$> a0 = seqZ (Z.succ oid) (Z.pred (Z.of_nat (S n)))).
      rewrite Hids. f_equal; lia.
    + f_equal. exact Hcs.
Qed.

Lemma orders_loop_spec poisson customers avg oid w os w' :
  orders_loop poisson customers avg oid w = Ok (os, w') ->
  Order.order_id <$> os = seqZ oid (Z.of_nat (length os)) /\
  exists counts : list nat,
    length counts = length customers /\
    Forall (fun n => (1 <= n)%nat) counts /\
    Order.customer_id <$> os
    = mjoin (zip_with (fun n c => replicate n (Customer.customer_id c))
               counts customers).
Proof.
  revert oid w os w'.
  induction customers as [|c cs IH]; intros oid w os w' H;
    cbn [orders_loop] in H; inv_run.
  - split; [reflexivity|]. exists []. now repeat split.
  - apply orders_count_pos in Hrun.
    destruct (customer_orders_spec _ _ _ _ _ _ Hrun1) as (Hlen & Hids & Hcs).
    destruct (IH _ _ _ _ Hrun0) as (Hids' & counts & Hcl & Hpos & Hcs').
    split.
    + rewrite fmap_app, Hids, Hids', length_app, Nat2Z.inj_add, Hlen.
      symmetry. apply seqZ_app; lia.
    + exists (Z.to_nat a :: counts). split; [cbn [length]; now rewrite Hcl|].
      split; [constructor; [lia|assumption]|].
      rewrite fmap_app, Hcs, Hcs'. reflexivity.
Qed.

(** C7: the order generator numbers the orders 1, 2, 3, ... customer by
    customer (each customer receiving at least one order), then returns the
    stable sort of that list by [order_datetime]: a permutation of the
    generated orders, each with the id it was given, in ascending
    [order_datetime], whose ids are a permutation of 1..M. *)
Theorem generate_orders_ids_then_sort poisson customers avg w orders w' :
  generate_orders poisson customers avg w = Ok (orders, w') ->
  exists generated counts,
    orders_loop poisson customers avg 1 w = Ok (generated, w') /\
    Order.order_id <$> generated = seqZ 1 (Z.of_nat (length generated)) /\
    length counts = length customers /\
    Forall (fun n => (1 <= n)%nat) counts /\
    Order.customer_id <$> generated
    = mjoin (zip_with (fun n c => replicate n (Customer.customer_id c))
               counts customers) /\
    orders = sort_by_datetime generated /\
    Permutation generated orders /\
    Sorted datetime_le orders /\
    Permutation (Order.order_id <$> orders)
                (seqZ 1 (Z.of_nat (length orders))).
Proof.
  intros H. unfold generate_orders in H. inv_run.
  destruct (orders_loop_spec _ _ _ _ _ _ _ Hrun) as (Hids & counts & Hc).
  exists a, counts. split; [exact Hrun|]. split; [exact Hids|].
  destruct Hc as (Hc1 & Hc2 & Hc3). repeat (split; [assumption|]).
  split; [reflexivity|]. pose proof (sort_by_datetime_perm a) as Hp.
  split; [exact Hp|]. split; [apply sort_by_datetime_sorted|].
  rewrite <- Hp at 2. rewrite <- Hids. now apply fmap_Permutation.
Qed.

(** ** Sampling without replacement *)

Lemma pool_step_app {A} (init : list A) y j x :
  (init ++ [y]) !! j = Some x ->
  Permutation (init ++ [y])
    (x :: take (length init) (<[j := y]> (init ++ [y]))).
Proof.
  intros Hx.
  assert (Hj : (j < length (init ++ [y]))%nat)
    by (apply lookup_lt_is_Some; eauto).
  rewrite length_app in Hj. cbn [length] in Hj.
  destruct (decide (j = length init)) as [->|Hne].
  - rewrite list_lookup_middle in Hx by reflexivity.
    injection Hx as <-.
    rewrite list_insert_id by (now apply list_lookup_middle).
    rewrite take_app_length. apply Permutation_app_comm.
  - assert (Hj' : (j < length init)%nat) by lia.
    rewrite lookup_app_l in Hx by exact Hj'.
    rewrite insert_app_l by exact Hj'.
    rewrite take_app_length' by (now rewrite length_insert).
    rewrite insert_take_drop by exact Hj'.
    rewrite <- (take_drop_middle init j x Hx) at 1.
    rewrite (Permutation_app_comm _ [y]). cbn [app].
    rewrite <- !Permutation_middle. apply perm_swap.
Qed.

Lemma pool_step {A} (pool : list A) j x y :
  pool !! j = Some x -> pool !! (length pool - 1)%nat = Some y ->
  Permutation pool (x :: take (length pool - 1) (<[j := y]> pool)).
Proof.
  intros Hx Hy.
  assert (Hpool : pool = take (length pool - 1) pool ++ [y]).
  { rewrite <- (take_drop_middle pool (length pool - 1) y Hy) at 1.
    f_equal. f_equal. apply drop_ge. lia. }
  assert (Hlen : (length pool - 1)%nat
                 = length (take (length pool - 1) pool)).
  { rewrite length_take. lia. }
  rewrite Hlen. remember (take (length pool - 1) pool) as init eqn:Hi.
  clear Hi Hlen Hy. subst pool. now apply pool_step_app.
Qed.

Lemma sample_pool_spec {A} (pool : list A) k w res w' :
  Random.sample_pool pool k w = Ok (res, w') ->
  length res = k /\ exists rest, Permutation pool (res ++ rest).
Proof.
  revert pool w res w'. induction k as [|k IH]; intros pool w res w' H;
    cbn [Random.sample_pool] in H.
  - inv_run. split; [reflexivity|]. now exists pool.
  - apply bind_inv in H as (j & w1 & _ & H).
    destruct (pool !! Z.to_nat j) as [x|] eqn:Hx; [|discriminate].
    destruct (pool !! (length pool - 1)%nat) as [y|] eqn:Hy; [|discriminate].
    apply bind_inv in H as (l & w2 & Hl & H). apply ret_inv in H as [<- <-].
    destruct (IH _ _ _ _ Hl) as (Hlen & rest & Hperm).
    split; [cbn [length]; now rewrite Hlen|]. exists rest.
    rewrite (pool_step pool _ x y Hx Hy). cbn [app]. now apply perm_skip.
Qed.

Lemma sample_spec {A} (population : list A) k w res w' :
  Random.sample population k w = Ok (res, w') ->
  0 <= k <= Z.of_nat (length population) /\
  Z.of_nat (length res) = k /\
  exists rest, Permutation population (res ++ rest).
Proof.
  unfold Random.sample.
  destruct ((k <? 0) || (Z.of_nat (length population) <? k)) eqn:E;
    [discriminate|].
  apply orb_false_iff in E as [E1 E2].
  apply Z.ltb_ge in E1. apply Z.ltb_ge in E2. intros H.
  destruct (sample_pool_spec _ _ _ _ _ H) as (Hlen & Hrest).
  split; [lia|]. split; [lia|exact Hrest].
Qed.

Lemma sample_NoDup {A B} `{EqDecision B} (f : A -> B) population k w res w' :
  Random.sample population k w = Ok (res, w') ->
  NoDup (f <$> population) -> NoDup (f <$> res).
Proof.
  intros H Hnd. destruct (sample_spec _ _ _ _ _ H) as (_ & _ & rest & Hp).
  rewrite Hp, fmap_app in Hnd. now apply NoDup_app in Hnd as [? _].
Qed.

(** ** Order lines *)

Lemma gauss_count_pos w n w' : gauss_count w = Ok (n, w') -> 1 <= n.
Proof. unfold gauss_count. intros H. inv_run. lia. Qed.

Lemma order_line_spec order product detail_id w d w' :
  order_line order product detail_id w = Ok (d, w') ->
  OrderDetail.order_detail_id d = detail_id /\
  OrderDetail.order_id d = Order.order_id order /\
  OrderDetail.product_id d = Product.product_id product /\
  1 <= OrderDetail.quantity d.
Proof.
  unfold order_line. intros H.
  apply bind_inv in H as (q & w1 & Hq & H). apply gauss_count_pos in Hq.
  inv_run. now repeat split.
Qed.

Lemma order_lines_spec order chosen detail_id w ds w' :
  order_lines order chosen detail_id w = Ok (ds, w') ->
  OrderDetail.order_detail_id <$> ds
  = seqZ detail_id (Z.of_nat (length ds)) /\
  OrderDetail.product_id <$> ds = Product.product_id <$> chosen /\
  Forall (fun d => OrderDetail.order_id d = Order.order_id order) ds.
Proof.
  revert detail_id w ds w'. induction chosen as [|p chosen IH];
    intros detail_id w ds w' H; cbn [order_lines] in H.
  - inv_run. now repeat split.
  - apply bind_inv in H as (d & w1 & Hd & H).
    apply bind_inv in H as (l & w2 & Hl & H). apply ret_inv in H as [<- <-].
    destruct (order_line_spec _ _ _ _ _ _ Hd) as (Hid & Ho & Hp & _).
    destruct (IH _ _ _ _ Hl) as (Hids & Hps & Hos).
    cbn [fmap list_fmap length]. split; [|split].
    + rewrite (seqZ_cons detail_id) by lia. f_equal; [exact Hid|].
      etransitivity; [exact Hids|]. f_equal; lia.
    + f_equal; [exact Hp|exact Hps].
    + now constructor.
Qed.

Lemma order_block_spec products order detail_id w item_count ds w' :
  order_block products order detail_id w = Ok ((item_count, ds), w') ->
  block_ok products order (item_count, ds) /\
  OrderDetail.order_detail_id <$> ds
  = seqZ detail_id (Z.of_nat (length ds)).
Proof.
  unfold order_block. intros H.
  apply bind_inv in H as (ic & w1 & Hic & H).
  apply bind_inv in H as (chosen & w2 & Hs & H).
  apply bind_inv in H as (l & w3 & Hl & H).
  apply ret_inv in H as [H <-]. injection H as <- <-.
  apply gauss_count_pos in Hic.
  destruct (order_lines_spec _ _ _ _ _ _ Hl) as (Hids & Hps & Hos).
  destruct (sample_spec _ _ _ _ _ Hs) as (_ & Hlen & _).
  split; [|exact Hids]. unfold block_ok. cbn [fst snd].
  split; [exact Hic|]. split; [|split; [|exact Hos]].
  - rewrite <- Hlen. rewrite <- (length_fmap OrderDetail.product_id), Hps.
    now rewrite length_fmap.
  - intros Hnd. rewrite Hps. eapply sample_NoDup; eassumption.
Qed.

Lemma details_loop_spec products orders detail_id w blocks w' :
  details_loop products orders detail_id w = Ok (blocks, w') ->
  Forall2 (block_ok products) orders blocks /\
  OrderDetail.order_detail_id <$> concat (snd <$> blocks)
  = seqZ detail_id (Z.of_nat (length (concat (snd <$> blocks)))).
Proof.
  revert detail_id w blocks w'. induction orders as [|o orders IH];
    intros detail_id w blocks w' H; cbn [details_loop] in H.
  - inv_run. split; [constructor|reflexivity].
  - apply bind_inv in H as ([ic ds] & w1 & Hb & H).
    apply bind_inv in H as (bs & w2 & Hbs & H). apply ret_inv in H as [<- <-].
    destruct (order_block_spec _ _ _ _ _ _ _ Hb) as (Hok & Hids).
    destruct (IH _ _ _ _ Hbs) as (Hoks & Hidss).
    split; [now constructor|].
    cbn [fmap list_fmap concat snd] in *.
    rewrite fmap_app, Hids, Hidss, length_app, Nat2Z.inj_add.
    symmetry. apply seqZ_app; lia.
Qed.

Lemma lines_of_other o (ds : list OrderDetail.t) (ids : list Z) :
  Forall (fun d => OrderDetail.order_id d ∈ ids) ds ->
  Order.order_id o ∉ ids -> lines_of o ds = [].
Proof.
  intros Hds Hnot. unfold lines_of. induction Hds as [|d ds Hd _ IH];
    [reflexivity|].
  rewrite filter_cons_False; [exact IH|]. intros E. apply Hnot.
  now rewrite <- E.
Qed.

Lemma lines_of_own o (ds : list OrderDetail.t) :
  Forall (fun d => OrderDetail.order_id d = Order.order_id o) ds ->
  lines_of o ds = ds.
Proof.
  intros Hds. unfold lines_of. induction Hds as [|d ds Hd _ IH];
    [reflexivity|].
  rewrite filter_cons_True by exact Hd. now rewrite IH.
Qed.

Lemma blocks_order_ids products orders blocks :
  Forall2 (block_ok products) orders blocks ->
  Forall (fun d => OrderDetail.order_id d ∈ (Order.order_id <$> orders))
    (concat (snd <$> blocks)).
Proof.
  induction 1 as [|o b orders blocks (_ & _ & _ & Hb) _ IH];
    [constructor|].
  cbn [fmap list_fmap concat]. apply Forall_app. split.
  - eapply Forall_impl; [exact Hb|]. intros d ->. cbn. left.
  - eapply Forall_impl; [exact IH|]. intros d Hd. cbn. now right.
Qed.

Lemma lines_of_blocks products orders blocks (before : list OrderDetail.t) :
  NoDup (Order.order_id <$> orders) ->
  Forall2 (block_ok products) orders blocks ->
  (forall o, o ∈ orders -> lines_of o before = []) ->
  Forall2 (fun o b => lines_of o (before ++ concat (snd <$> blocks)) = snd b)
    orders blocks.
Proof.
  intros Hnd Hok. revert before.
  induction Hok as [|o b orders blocks Hb Hok IH]; intros before Hbefore;
    [constructor|].
  cbn [fmap list_fmap] in Hnd. apply NoDup_cons in Hnd as [Hnot Hnd].
  pose proof Hb as (_ & _ & _ & Hown).
  cbn [fmap list_fmap concat]. constructor.
  - unfold lines_of. rewrite !filter_app. fold (lines_of o before).
    fold (lines_of o (snd b)). fold (lines_of o (concat (snd <$> blocks))).
    rewrite (Hbefore o) by left. rewrite (lines_of_own _ _ Hown).
    rewrite (lines_of_other o _ _ (blocks_order_ids _ _ _ Hok) Hnot).
    now rewrite app_nil_r.
  - rewrite app_assoc. apply (IH Hnd). intros o' Ho'.
    unfold lines_of. rewrite filter_app. fold (lines_of o' before).
    fold (lines_of o' (snd b)). rewrite (Hbefore o') by now right.
    apply (lines_of_other o' _ [Order.order_id o]).
    + eapply Forall_impl; [exact Hown|]. intros d ->. left.
    + intros Hin. apply list_elem_of_singleton in Hin. apply Hnot.
      rewrite <- Hin. now apply list_elem_of_fmap_2.
Qed.

(** C6: in a run of [generate_order_details] over orders with distinct ids
    and a catalog with distinct product ids, the lines of each order are
    the block of lines appended for it; their product ids are pairwise
    distinct and their number is [min(item_count, len(products))], where
    [item_count] is the draw [max(1, int(gauss(2, 1)))] made for the
    order. *)
Theorem order_lines_distinct_products orders products w details w' :
  NoDup (Order.order_id <$> orders) ->
  NoDup (Product.product_id <$> products) ->
  generate_order_details orders products w = Ok (details, w') ->
  exists blocks,
    details_loop products orders 1 w = Ok (blocks, w') /\
    details = concat (snd <$> blocks) /\
    Forall2 (fun o b =>
      lines_of o details = snd b /\
      1 <= fst b /\
      Z.of_nat (length (lines_of o details))
      = Z.min (fst b) (Z.of_nat (length products)) /\
      NoDup (OrderDetail.product_id <$> lines_of o details))
      orders blocks.
Proof.
  intros Hno Hnp H. unfold generate_order_details in H.
  apply bind_inv in H as (blocks & w1 & Hb & H). apply ret_inv in H as [<- <-].
  exists blocks. split; [exact Hb|]. split; [reflexivity|].
  destruct (details_loop_spec _ _ _ _ _ _ Hb) as (Hok & _).
  pose proof (lines_of_blocks products orders blocks [] Hno Hok
                (fun _ _ => eq_refl)) as Hl.
  cbn [app] in Hl. clear Hb.
  remember (concat (snd <$> blocks)) as details eqn:Hd. clear Hd.
  induction Hl as [|o b os bs E Hl IH]; [constructor|].
  apply Forall2_cons in Hok as [(H1 & H2 & H3 & _) Hok].
  apply NoDup_cons in Hno as [_ Hno].
  constructor; [|exact (IH Hno Hok)].
  rewrite E. auto.
Qed.

(** ** Which exceptions a run can raise *)

Lemma never_raises_ret {A} e (a : A) : never_raises e (mret a).
Proof. intros w. discriminate. Qed.

Lemma never_raises_bind {A B} e (m : M A) (f : A -> M B) :
  never_raises e m -> (forall a, never_raises e (f a)) ->
  never_raises e (m ≫= f).
Proof.
  intros Hm Hf w H. apply bind_raise in H as [H|(a & w1 & _ & H)].
  - now apply (Hm w).
  - now apply (Hf a w1).
Qed.

Lemma never_raises_fmap {A B} e (g : A -> B) (m : M A) :
  never_raises e m -> never_raises e (g <$> m).
Proof.
  intros Hm w H. apply (Hm w). unfold fmap, M_fmap in H.
  destruct (m w) as [[a w1]|e']; [discriminate|congruence].
Qed.

Lemma never_raises_lift {A} e (r : result A) :
  r <> Raise e -> never_raises e (lift r).
Proof.
  intros Hr w H. apply Hr. unfold lift in H.
  destruct r; [discriminate|congruence].
Qed.

Lemma never_raises_raise {A} e e' : e' <> e -> never_raises e (@raise A e').
Proof. intros Hne w H. apply Hne. unfold raise in H. congruence. Qed.

Lemma never_raises_next_bits e : never_raises e next_bits.
Proof. intros w. unfold next_bits. now destruct (rand_bits w). Qed.

Lemma never_raises_next_normal e : never_raises e next_normal.
Proof.
  intros w. unfold next_normal. now destruct (rand_normals w) as [|[]].
Qed.

Lemma to_float_raise a e : Num.to_float a = Raise e -> e = OverflowError.
Proof.
  destruct a as [z|x]; cbn; [|discriminate].
  destruct (is_finite (of_Z z)); [discriminate|congruence].
Qed.

Lemma lift2_raise fz ff a b e :
  Num.lift2 fz ff a b = Raise e -> e = OverflowError.
Proof.
  unfold Num.lift2. intros H.
  assert (H' : (x ← Num.to_float a; y ← Num.to_float b; Ok (Float (ff x y)))
               = Raise e \/ exists x y, a = Int x /\ b = Int y).
  { destruct a, b; eauto. }
  destruct H' as [H'|(x & y & -> & ->)]; [|discriminate].
  destruct (Num.to_float a) as [x|e1] eqn:Ea.
  - destruct (Num.to_float b) as [y|e2] eqn:Eb; [discriminate|].
    cbn in H'. injection H' as <-. eapply to_float_raise; eassumption.
  - cbn in H'. injection H' as <-. eapply to_float_raise; eassumption.
Qed.

Lemma num_ops_no_KeyError a b :
  Num.add a b <> Raise KeyError /\ Num.sub a b <> Raise KeyError /\
  Num.mul a b <> Raise KeyError.
Proof.
  repeat split; intros H; apply lift2_raise in H; discriminate.
Qed.

Lemma timedelta_no_KeyError d h m : Datetime.timedelta d h m <> Raise KeyError.
Proof. unfold Datetime.timedelta. now destruct (_ && _). Qed.

Lemma plus_no_KeyError dt td : Datetime.plus dt td <> Raise KeyError.
Proof. unfold Datetime.plus. now destruct (Datetime.in_range _). Qed.

Lemma rbind_no_KeyError {A B} (r : result A) (f : A -> result B) :
  r <> Raise KeyError -> (forall a, f a <> Raise KeyError) ->
  r ≫= f <> Raise KeyError.
Proof.
  intros Hr Hf. destruct r as [a|e]; [apply Hf|]. cbn. congruence.
Qed.

Lemma rfmap_no_KeyError {A B} (r : result A) (f : A -> B) :
  r <> Raise KeyError -> f <$> r <> Raise KeyError.
Proof. intros Hr. destruct r as [a|e]; [discriminate|]. cbn. congruence. Qed.

(** Discharge [never_raises KeyError] goals on code without a lookup. *)
Ltac no_key_error :=
  repeat first
    [ simple apply never_raises_ret
    | simple apply never_raises_next_bits
    | simple apply never_raises_next_normal
    | simple apply never_raises_bind; [|intros ?]
    | simple apply never_raises_fmap
    | simple apply never_raises_lift
    | simple apply never_raises_raise; discriminate
    | simple apply rbind_no_KeyError; [|intros ?]
    | simple apply rfmap_no_KeyError
    | simple apply timedelta_no_KeyError
    | simple apply plus_no_KeyError
    | simple apply (proj1 (num_ops_no_KeyError _ _))
    | simple apply (proj1 (proj2 (num_ops_no_KeyError _ _)))
    | simple apply (proj2 (proj2 (num_ops_no_KeyError _ _)))
    | discriminate
    | match goal with
      | |- never_raises _ (if ?b then _ else _) => destruct b
      | |- never_raises _ (match ?x with _ => _ end) => destruct x
      | |- (if ?b then _ else _) <> _ => destruct b
      | |- (match ?x with _ => _ end) <> _ => destruct x
      end ].

Lemma uniform_no_KeyError a b : never_raises KeyError (Random.uniform a b).
Proof. unfold Random.uniform, Random.random. no_key_error. Qed.

Lemma randint_no_KeyError a b : never_raises KeyError (Random.randint a b).
Proof. unfold Random.randint, Random.randbelow. no_key_error. Qed.

Lemma choices1_no_KeyError {A} (population : list A) ws :
  never_raises KeyError (Random.choices1 population ws).
Proof.
  unfold Random.choices1, Random.random.
  destruct (negb _); [no_key_error|].
  destruct (last _); [|no_key_error].
  apply never_raises_bind.
  - apply never_raises_lift. intros H. apply to_float_raise in H. discriminate.
  - intros total. no_key_error.
Qed.

Lemma payment_KeyError detail_totals order pid w :
  payment detail_totals order pid w = Raise KeyError ->
  detail_totals !! Order.order_id order = None.
Proof.
  unfold payment. destruct (detail_totals !! Order.order_id order) as [gross|];
    [|reflexivity].
  intros H. exfalso. revert w H. change (never_raises KeyError
    (rate ← Random.uniform (Float (lit 5 100)) (Float (lit 95 1000));
     tax ← lift (Num.round2 <$> Num.mul gross rate);
     shipping ← (if Num.geb gross (Int 75) then mret (Int 0)
                 else Num.round2 <$>
                        Random.uniform (Float (lit 499 100))
                                       (Float (lit 1499 100)));
     total ← lift (a ← Num.add gross tax; Num.round2 <$> Num.add a shipping);
     method ← Random.choices1 PAYMENT_METHODS [40; 25; 20; 10; 5];
     minutes ← Random.randint 5 90;
     paid ← lift (td ← Datetime.timedelta 0 0 minutes;
                  Datetime.plus (Order.order_datetime order) td);
     mret (Payment.mk pid (Order.order_id order) method paid
             (Num.round2 gross) tax shipping total "USD"))).
  apply never_raises_bind; [apply uniform_no_KeyError|intros rate].
  apply never_raises_bind; [no_key_error|intros tax].
  apply never_raises_bind.
  { destruct (Num.geb gross (Int 75)); [no_key_error|].
    apply never_raises_fmap, uniform_no_KeyError. }
  intros shipping. apply never_raises_bind; [no_key_error|intros total].
  apply never_raises_bind; [apply choices1_no_KeyError|intros method].
  apply never_raises_bind; [apply randint_no_KeyError|intros minutes].
  no_key_error.
Qed.

(** ** The dict of subtotals *)

Lemma detail_totals_loop_spec details (m m' : gmap Z num) k :
  detail_totals_loop details m = Ok m' ->
  match line_totals_of k details with
  | [] => m' !! k = m !! k
  | xs => exists s, sum_from (default (Int 0) (m !! k)) xs = Ok s /\
                    m' !! k = Some s
  end.
Proof.
  revert m. induction details as [|d ds IH]; intros m H;
    cbn [detail_totals_loop] in H.
  - injection H as <-. reflexivity.
  - set (k0 := OrderDetail.order_id d) in *.
    set (m1 := match m !! k0 with Some _ => m | None => <[k0:=Int 0]> m end) in *.
    assert (Hcur : m1 !! k0 = Some (default (Int 0) (m !! k0))).
    { unfold m1. destruct (m !! k0) eqn:E; [exact E|apply lookup_insert_eq]. }
    rewrite Hcur in H. apply rbind_inv in H as (s & Hs & H).
    specialize (IH _ H). unfold line_totals_of in *.
    destruct (decide (k0 = k)) as [<-|Hne].
    + rewrite filter_cons_True by reflexivity. cbn [fmap list_fmap].
      rewrite lookup_insert_eq in IH. cbn [default] in IH.
      fold k0. cbn [sum_from]. rewrite Hs. cbn.
      destruct (OrderDetail.line_total <$> filter _ ds) as [|x xs].
      * exists s. split; [reflexivity|exact IH].
      * exact IH.
    + rewrite filter_cons_False by exact Hne.
      rewrite lookup_insert_ne in IH by exact Hne.
      replace (m1 !! k) with (m !! k) in IH; [exact IH|].
      unfold m1. destruct (m !! k0); [reflexivity|].
      now rewrite lookup_insert_ne.
Qed.

Lemma detail_totals_loop_no_KeyError details (m : gmap Z num) :
  detail_totals_loop details m <> Raise KeyError.
Proof.
  revert m. induction details as [|d ds IH]; intros m;
    cbn [detail_totals_loop]; [discriminate|].
  set (k0 := OrderDetail.order_id d).
  set (m1 := match m !! k0 with Some _ => m | None => <[k0:=Int 0]> m end).
  assert (Hcur : is_Some (m1 !! k0)).
  { unfold m1. destruct (m !! k0) eqn:E; [eauto|].
    rewrite lookup_insert_eq. eauto. }
  destruct Hcur as [cur ->]. apply rbind_no_KeyError.
  - apply num_ops_no_KeyError.
  - intros s. apply IH.
Qed.

(** ** One payment per order *)

Lemma payment_spec detail_totals order pid w p w' :
  payment detail_totals order pid w = Ok (p, w') ->
  Payment.payment_id p = pid /\
  Payment.order_id p = Order.order_id order /\
  exists gross,
    detail_totals !! Order.order_id order = Some gross /\
    Payment.subtotal p = Num.round2 gross /\
    (Num.geb gross (Int 75) = true -> Payment.shipping p = Int 0) /\
    exists r, Num.add gross (Payment.tax p) ≫= (fun a =>
                Num.add a (Payment.shipping p)) = Ok r /\
              Payment.total p = Num.round2 r.
Proof.
  unfold payment.
  destruct (detail_totals !! Order.order_id order) as [gross|];
    [|discriminate].
  intros H. apply bind_inv in H as (rate & w1 & _ & H).
  apply bind_inv in H as (tax & w2 & _ & H).
  apply bind_inv in H as (shipping & w3 & Hship & H).
  apply bind_inv in H as (total & w4 & Htot & H).
  apply bind_inv in H as (method & w5 & _ & H).
  apply bind_inv in H as (minutes & w6 & _ & H).
  apply bind_inv in H as (paid & w7 & _ & H).
  apply ret_inv in H as [<- <-]. cbn.
  split; [reflexivity|]. split; [reflexivity|]. exists gross.
  split; [reflexivity|]. split; [reflexivity|]. split.
  - intros Hge. rewrite Hge in Hship. now apply ret_inv in Hship as [<- _].
  - apply lift_inv in Htot as [Htot _].
    apply rbind_inv in Htot as (a & Ha & Htot).
    apply rfmap_inv in Htot as (r & Hr & ->).
    exists r. rewrite Ha. cbn. split; [exact Hr|reflexivity].
Qed.

Lemma payments_loop_spec detail_totals orders pid w ps w' :
  payments_loop detail_totals orders pid w = Ok (ps, w') ->
  Payment.order_id <$> ps = Order.order_id <$> orders /\
  Payment.payment_id <$> ps = seqZ pid (Z.of_nat (length orders)).
Proof.
  revert pid w ps w'. induction orders as [|o orders IH];
    intros pid w ps w' H; cbn [payments_loop] in H.
  - inv_run. now split.
  - apply bind_inv in H as (p & w1 & Hp & H).
    apply bind_inv in H as (l & w2 & Hl & H). apply ret_inv in H as [<- <-].
    destruct (payment_spec _ _ _ _ _ _ Hp) as (Hid & Ho & _).
    destruct (IH _ _ _ _ Hl) as (Hos & Hids).
    cbn [fmap list_fmap length]. split; [now rewrite Ho, Hos|].
    rewrite (seqZ_cons pid) by lia. rewrite Hid. f_equal.
    etransitivity; [exact Hids|]. f_equal; lia.
Qed.

Lemma payments_loop_KeyError detail_totals orders pid w :
  payments_loop detail_totals orders pid w = Raise KeyError ->
  exists o, o ∈ orders /\ detail_totals !! Order.order_id o = None.
Proof.
  revert pid w. induction orders as [|o orders IH]; intros pid w H;
    cbn [payments_loop] in H; [discriminate|].
  apply bind_raise in H as [H|(p & w1 & _ & H)].
  - exists o. split; [left|]. eapply payment_KeyError, H.
  - apply bind_raise in H as [H|(l & w2 & _ & H)]; [|discriminate].
    destruct (IH _ _ H) as (o' & Hin & Hnone). exists o'.
    split; [now right|exact Hnone].
Qed.

Lemma elem_of_concat {A} (x : A) (l : list A) (ls : list (list A)) :
  x ∈ l -> l ∈ ls -> x ∈ concat ls.
Proof.
  intros Hx Hl. induction Hl as [l ls|l l' ls _ IH]; cbn [concat];
    apply elem_of_app; auto.
Qed.

Lemma order_has_lines products orders blocks o :
  products <> [] ->
  Forall2 (block_ok products) orders blocks ->
  o ∈ orders -> lines_of o (concat (snd <$> blocks)) <> [].
Proof.
  intros Hp Hok Ho. apply list_elem_of_lookup in Ho as [i Hi].
  destruct (Forall2_lookup_l _ _ _ _ _ Hok Hi) as (b & Hb & H1 & H2 & _ & H4).
  destruct (snd b) as [|d ds] eqn:Eb.
  - cbn [length] in H2. destruct products; [congruence|]. cbn [length] in H2.
    lia.
  - apply Forall_cons in H4 as [Hd _].
    assert (Hin : d ∈ lines_of o (concat (snd <$> blocks))).
    { unfold lines_of. apply list_elem_of_filter. split; [exact Hd|].
      apply (elem_of_concat _ (snd b)); [rewrite Eb; left|].
      apply list_elem_of_fmap_2. eapply list_elem_of_lookup_2, Hb. }
    intros E. rewrite E in Hin. now apply not_elem_of_nil in Hin.
Qed.

(** C9: when the catalog is not empty, every order of a run of
    [generate_order_details] has at least one order line; then
    [generate_payments] never raises [KeyError] on the subtotal lookup, and
    the payments it returns are one per order, in the order of the orders,
    numbered 1, 2, 3, ... *)
Theorem every_order_has_lines_and_one_payment
    orders products w details w1 :
  products <> [] ->
  generate_order_details orders products w = Ok (details, w1) ->
  (forall o, o ∈ orders -> lines_of o details <> []) /\
  forall w2,
    generate_payments orders details w2 <> Raise KeyError /\
    forall payments w3,
      generate_payments orders details w2 = Ok (payments, w3) ->
      Payment.order_id <$> payments = Order.order_id <$> orders /\
      Payment.payment_id <$> payments
      = seqZ 1 (Z.of_nat (length orders)).
Proof.
  intros Hp H. unfold generate_order_details in H.
  apply bind_inv in H as (blocks & w0 & Hb & H). apply ret_inv in H as [<- <-].
  destruct (details_loop_spec _ _ _ _ _ _ Hb) as (Hok & _).
  pose proof (fun o => order_has_lines products orders blocks o Hp Hok)
    as Hlines.
  split; [exact Hlines|]. intros w2. unfold generate_payments. split.
  - intros H. apply bind_raise in H as [H|(m & w3 & Hm & H)].
    + unfold lift in H.
      destruct (detail_totals_loop (concat (snd <$> blocks)) ∅) eqn:E;
        [discriminate|].
      injection H as ->. now apply detail_totals_loop_no_KeyError in E.
    + apply lift_inv in Hm as [Hm <-].
      apply payments_loop_KeyError in H as (o & Ho & Hnone).
      pose proof (detail_totals_loop_spec _ _ _ (Order.order_id o) Hm) as Hs.
      specialize (Hlines o Ho). unfold line_totals_of in Hs.
      unfold lines_of in Hlines.
      destruct (filter _ _) as [|d ds]; [congruence|]. cbn in Hs.
      destruct Hs as (s & _ & Hs). congruence.
  - intros payments w3 H. apply bind_inv in H as (m & w4 & _ & H).
    eapply payments_loop_spec, H.
Qed.

(** ** The clock during a run *)

Lemma clock_mono_ret {A} (a : A) : clock_mono (mret a).
Proof. intros w b w' H. apply ret_inv in H as [_ <-]. lia. Qed.

Lemma clock_mono_bind {A B} (m : M A) (f : A -> M B) :
  clock_mono m -> (forall a, clock_mono (f a)) -> clock_mono (m ≫= f).
Proof.
  intros Hm Hf w b w' H. apply bind_inv in H as (a & w1 & H1 & H2).
  apply Hm in H1. apply Hf in H2. lia.
Qed.

Lemma clock_mono_fmap {A B} (g : A -> B) (m : M A) :
  clock_mono m -> clock_mono (g <$> m).
Proof. intros Hm w b w' H. apply fmap_inv in H as (a & H & _). eauto. Qed.

Lemma clock_mono_lift {A} (r : result A) : clock_mono (lift r).
Proof. intros w a w' H. apply lift_inv in H as [_ <-]. lia. Qed.

Lemma clock_mono_raise {A} e : clock_mono (@raise A e).
Proof. intros w a w' H. discriminate. Qed.

Lemma clock_mono_next_bits : clock_mono next_bits.
Proof.
  intros w a w'. unfold next_bits. destruct (rand_bits w); intros H;
    injection H as _ <-; cbn; lia.
Qed.

Lemma clock_mono_next_normal : clock_mono next_normal.
Proof.
  intros w a w'. unfold next_normal. destruct (rand_normals w) as [|[]];
    intros H; injection H as _ <-; cbn; lia.
Qed.

Lemma tick_spec w now w' :
  tick w = Ok (now, w') -> now = clock_now w /\ clock_now w <= clock_now w'.
Proof.
  unfold tick. destruct (clock_ticks w); intros H; injection H as <- <-;
    cbn; split; lia.
Qed.

Lemma clock_mono_tick : clock_mono tick.
Proof. intros w a w' H. now apply tick_spec in H. Qed.

(** Discharge [clock_mono] goals on straight-line code. *)
Ltac clock :=
  repeat first
    [ match goal with
      | H : context [clock_mono _] |- clock_mono _ => simple apply H
      end
    | progress cbv zeta
    | simple apply clock_mono_ret
    | simple apply clock_mono_next_bits
    | simple apply clock_mono_next_normal
    | simple apply clock_mono_tick
    | simple apply clock_mono_lift
    | simple apply clock_mono_raise
    | simple apply clock_mono_fmap
    | simple apply clock_mono_bind; [|intros ?]
    | match goal with
      | |- clock_mono (if ?b then _ else _) => destruct b
      | |- clock_mono (match ?x with _ => _ end) => destruct x
      | |- clock_mono (let '(_, _) := ?x in _) => destruct x
      end ].

Lemma clock_mono_randbelow n : clock_mono (Random.randbelow n).
Proof. unfold Random.randbelow. clock. Qed.

Lemma clock_mono_random : clock_mono Random.random.
Proof. unfold Random.random. clock. Qed.

Lemma clock_mono_randint a b : clock_mono (Random.randint a b).
Proof. unfold Random.randint. pose proof clock_mono_randbelow. clock. Qed.

Lemma clock_mono_uniform a b : clock_mono (Random.uniform a b).
Proof. unfold Random.uniform. pose proof clock_mono_random. clock. Qed.

Lemma clock_mono_choice {A} (l : list A) : clock_mono (Random.choice l).
Proof. unfold Random.choice. pose proof clock_mono_randbelow. clock. Qed.

Lemma clock_mono_gauss mu sigma : clock_mono (Random.gauss mu sigma).
Proof. unfold Random.gauss. clock. Qed.

Lemma clock_mono_choices1 {A} (l : list A) ws :
  clock_mono (Random.choices1 l ws).
Proof. unfold Random.choices1. pose proof clock_mono_random. clock. Qed.

Lemma clock_mono_sample_pool {A} (pool : list A) k :
  clock_mono (Random.sample_pool pool k).
Proof.
  revert pool. induction k as [|k IH]; intros pool; cbn [Random.sample_pool];
    pose proof clock_mono_randbelow; clock.
Qed.

Lemma clock_mono_sample {A} (l : list A) k : clock_mono (Random.sample l k).
Proof. unfold Random.sample. pose proof @clock_mono_sample_pool. clock. Qed.

Lemma clock_mono_gauss_count : clock_mono gauss_count.
Proof. unfold gauss_count. pose proof clock_mono_gauss. clock. Qed.

Lemma clock_mono_generate_product pid category item :
  clock_mono (generate_product pid category item).
Proof.
  unfold generate_product, Random.normalvariate. destruct item as [[? ?] ?].
  pose proof clock_mono_gauss. pose proof clock_mono_randint. clock.
Qed.

Lemma clock_mono_products_items category items pid :
  clock_mono (products_items category items pid).
Proof.
  revert pid. induction items as [|item items IH]; intros pid;
    cbn [products_items]; pose proof clock_mono_generate_product; clock.
Qed.

Lemma clock_mono_products_loop cats pid : clock_mono (products_loop cats pid).
Proof.
  revert pid. induction cats as [|[c items] cats IH]; intros pid;
    cbn [products_loop]; pose proof clock_mono_products_items; clock.
Qed.

Lemma clock_mono_order_line order product detail_id :
  clock_mono (order_line order product detail_id).
Proof.
  unfold order_line. pose proof clock_mono_gauss_count.
  pose proof clock_mono_random. pose proof clock_mono_uniform. clock.
Qed.

Lemma clock_mono_order_lines order chosen detail_id :
  clock_mono (order_lines order chosen detail_id).
Proof.
  revert detail_id. induction chosen as [|p chosen IH]; intros detail_id;
    cbn [order_lines]; pose proof clock_mono_order_line; clock.
Qed.

Lemma clock_mono_details_loop products orders detail_id :
  clock_mono (details_loop products orders detail_id).
Proof.
  revert detail_id. induction orders as [|o orders IH]; intros detail_id;
    cbn [details_loop]; unfold order_block;
    pose proof clock_mono_gauss_count; pose proof @clock_mono_sample;
    pose proof clock_mono_order_lines; clock.
Qed.

Lemma clock_mono_generate_order_details orders products :
  clock_mono (generate_order_details orders products).
Proof.
  unfold generate_order_details. pose proof clock_mono_details_loop. clock.
Qed.

Lemma clock_mono_payment detail_totals order pid :
  clock_mono (payment detail_totals order pid).
Proof.
  unfold payment. pose proof clock_mono_uniform.
  pose proof @clock_mono_choices1. pose proof clock_mono_randint. clock.
Qed.

Lemma clock_mono_payments_loop detail_totals orders pid :
  clock_mono (payments_loop detail_totals orders pid).
Proof.
  revert pid. induction orders as [|o orders IH]; intros pid;
    cbn [payments_loop]; pose proof clock_mono_payment; clock.
Qed.

Lemma clock_mono_generate_payments orders details :
  clock_mono (generate_payments orders details).
Proof.
  unfold generate_payments. pose proof clock_mono_payments_loop. clock.
Qed.

(** ** Signup dates and order dates *)

Lemma date_mono a b : a <= b -> Datetime.date a <= Datetime.date b.
Proof. intros H. apply Z.div_le_mono; [reflexivity|exact H]. Qed.

Lemma date_minus_days now k :
  Datetime.date (now + - (k * Datetime.day_us)) = Datetime.date now - k.
Proof.
  unfold Datetime.date. rewrite <- Z.mul_opp_l. rewrite Z.div_add by easy.
  lia.
Qed.

Lemma date_of_combine d t :
  0 <= t < Datetime.day_us ->
  Datetime.date (Datetime.combine_min d + t) = d.
Proof.
  intros Ht. unfold Datetime.date, Datetime.combine_min.
  rewrite Z.add_comm, Z.div_add by easy. rewrite Z.div_small by exact Ht.
  lia.
Qed.

Lemma timedelta_spec d h m td :
  Datetime.timedelta d h m = Ok td ->
  td = d * Datetime.day_us + (h * 60 + m) * 60000000.
Proof.
  unfold Datetime.timedelta. destruct (_ && _); [|discriminate].
  intros H. injection H as <-. unfold Datetime.day_us. lia.
Qed.

Lemma plus_spec dt td r : Datetime.plus dt td = Ok r -> r = dt + td.
Proof.
  unfold Datetime.plus. destruct (Datetime.in_range _); [|discriminate].
  now intros H; injection H as <-.
Qed.

Lemma date_plus_spec d td r :
  Datetime.date_plus d td = Ok r -> r = d + td / Datetime.day_us.
Proof.
  unfold Datetime.date_plus. destruct (Datetime.in_range _); [|discriminate].
  now intros H; injection H as <-.
Qed.

Lemma clock_mono_random_name : clock_mono random_name.
Proof. unfold random_name. pose proof @clock_mono_choice. clock. Qed.

Lemma clock_mono_random_email name : clock_mono (random_email name).
Proof.
  unfold random_email. pose proof @clock_mono_choice.
  pose proof clock_mono_random. pose proof clock_mono_randint. clock.
Qed.

Lemma clock_mono_random_phone : clock_mono random_phone.
Proof. unfold random_phone. pose proof clock_mono_randint. clock. Qed.

Lemma generate_customer_spec cid w c w' :
  generate_customer cid w = Ok (c, w') ->
  Customer.customer_id c = cid /\
  clock_now w <= clock_now w' /\
  Customer.signup_date c + 30 <= Datetime.date (clock_now w').
Proof.
  unfold generate_customer. intros H.
  apply bind_inv in H as (name & w1 & H1 & H). apply clock_mono_random_name in H1.
  apply bind_inv in H as (email & w2 & H2 & H).
  apply clock_mono_random_email in H2.
  apply bind_inv in H as (phone & w3 & H3 & H).
  apply clock_mono_random_phone in H3.
  apply bind_inv in H as (state & w4 & H4 & H). apply clock_mono_choice in H4.
  apply bind_inv in H as (now & w5 & H5 & H). apply tick_spec in H5 as [-> H5].
  apply bind_inv in H as (days & w6 & H6 & H).
  pose proof (clock_mono_randint _ _ _ _ _ H6) as H6'.
  apply randint_spec in H6.
  apply bind_inv in H as (signup & w7 & H7 & H). apply ret_inv in H as [<- <-].
  apply lift_inv in H7 as [H7 <-].
  apply rbind_inv in H7 as (td & Htd & H7).
  apply rfmap_inv in H7 as (x & Hx & ->).
  apply timedelta_spec in Htd. apply plus_spec in Hx. subst x td.
  cbn [Customer.customer_id Customer.signup_date].
  split; [reflexivity|]. split; [lia|].
  replace (days * Datetime.day_us + (0 * 60 + 0) * 60000000)
    with (days * Datetime.day_us) by lia.
  rewrite date_minus_days.
  pose proof (date_mono (clock_now w4) (clock_now w6)). lia.
Qed.

Lemma generate_customers_spec ids w cs w' :
  mapM generate_customer ids w = Ok (cs, w') ->
  Customer.customer_id <$> cs = ids /\
  clock_now w <= clock_now w' /\
  Forall (fun c => Customer.signup_date c + 30
                   <= Datetime.date (clock_now w')) cs.
Proof.
  revert w cs w'. induction ids as [|cid ids IH]; intros w cs w' H;
    cbn [mapM] in H.
  - apply ret_inv in H as [<- <-]. split; [reflexivity|].
    split; [lia|constructor].
  - apply bind_inv in H as (c & w1 & Hc & H).
    apply bind_inv in H as (l & w2 & Hl & H). apply ret_inv in H as [<- <-].
    apply generate_customer_spec in Hc as (Hid & Hm & Hs).
    destruct (IH _ _ _ Hl) as (Hids & Hm' & Hss).
    cbn [fmap list_fmap]. split; [now rewrite Hid, Hids|]. split; [lia|].
    constructor; [|exact Hss].
    pose proof (date_mono (clock_now w1) (clock_now w2) Hm'). lia.
Qed.

Lemma random_order_date_spec signup_date w dt w' :
  random_order_date signup_date w = Ok (dt, w') ->
  clock_now w <= clock_now w' /\
  (signup_date + 1) * Datetime.day_us + 8 * 3600000000 <= dt /\
  (signup_date < Datetime.date (clock_now w) ->
   Datetime.date dt <= Datetime.date (clock_now w)).
Proof.
  unfold random_order_date. intros H.
  apply bind_inv in H as (now & w1 & H1 & H). apply tick_spec in H1 as [-> H1].
  set (days := if Datetime.date (clock_now w) - signup_date <=? 0 then 1
               else Datetime.date (clock_now w) - signup_date) in *.
  apply bind_inv in H as (mu & w2 & H2 & H). apply lift_inv in H2 as [_ <-].
  apply bind_inv in H as (sigma & w3 & H3 & H). apply lift_inv in H3 as [_ <-].
  apply bind_inv in H as (g & w4 & H4 & H). apply clock_mono_gauss in H4.
  apply bind_inv in H as (raw & w5 & H5 & H). apply lift_inv in H5 as [_ <-].
  set (delta := Z.max 1 (Z.min days raw)) in *.
  apply bind_inv in H as (order_date & w6 & H6 & H).
  apply lift_inv in H6 as [H6 <-].
  apply rbind_inv in H6 as (td & Htd & H6).
  apply timedelta_spec in Htd. apply date_plus_spec in H6.
  apply bind_inv in H as (h & w7 & H7 & H).
  pose proof (clock_mono_randint _ _ _ _ _ H7) as H7'.
  apply randint_spec in H7.
  apply bind_inv in H as (m & w8 & H8 & H).
  pose proof (clock_mono_randint _ _ _ _ _ H8) as H8'.
  apply randint_spec in H8.
  apply lift_inv in H as [H <-].
  apply rbind_inv in H as (td2 & Htd2 & H).
  apply timedelta_spec in Htd2. apply plus_spec in H.
  assert (Hod : order_date = signup_date + delta).
  { subst order_date td.
    replace (delta * Datetime.day_us + (0 * 60 + 0) * 60000000)
      with (delta * Datetime.day_us) by lia.
    now rewrite Z.div_mul. }
  assert (Hdelta : 1 <= delta) by (unfold delta; lia).
  assert (Ht : 8 * 3600000000 <= td2 < Datetime.day_us).
  { subst td2. unfold Datetime.day_us. lia. }
  split; [lia|]. split.
  - subst dt order_date. unfold Datetime.combine_min.
    unfold Datetime.day_us in *. lia.
  - intros Hlt. subst dt. rewrite date_of_combine by lia.
    subst order_date. unfold delta, days.
    destruct (Datetime.date (clock_now w) - signup_date <=? 0) eqn:E.
    + apply Z.leb_le in E. lia.
    + apply Z.leb_gt in E. lia.
Qed.

Lemma customer_orders_dates c n oid w os w' :
  customer_orders c n oid w = Ok (os, w') ->
  clock_now w <= clock_now w' /\
  (Customer.signup_date c < Datetime.date (clock_now w) ->
   Forall (order_dated [c] (Datetime.date (clock_now w'))) os).
Proof.
  revert oid w os w'. induction n as [|n IH]; intros oid w os w' H;
    cbn [customer_orders] in H.
  - apply ret_inv in H as [<- <-]. split; [lia|constructor].
  - apply bind_inv in H as (dt & w1 & Hdt & H).
    apply bind_inv in H as (rest & w2 & Hrest & H).
    apply ret_inv in H as [<- <-].
    apply random_order_date_spec in Hdt as (Hm & Hlo & Hhi).
    destruct (IH _ _ _ _ Hrest) as (Hm' & Hrest').
    split; [lia|]. intros Hsd.
    pose proof (date_mono _ _ Hm). pose proof (date_mono _ _ Hm').
    constructor; [|apply Hrest'; lia].
    exists c. split; [left|]. cbn. split; [reflexivity|].
    split; [lia|]. specialize (Hhi Hsd). lia.
Qed.

Lemma order_dated_weaken cs cs' today today' o :
  cs ⊆ cs' -> today <= today' ->
  order_dated cs today o -> order_dated cs' today' o.
Proof.
  intros Hsub Hle (c & Hc & Hid & Hlo & Hhi). exists c.
  split; [now apply Hsub|]. split; [exact Hid|]. split; [exact Hlo|lia].
Qed.

Lemma clock_mono_orders_count poisson avg : clock_mono (orders_count poisson avg).
Proof.
  rewrite orders_count_gauss_eq. unfold orders_count_gauss.
  pose proof clock_mono_gauss. clock.
Qed.

Lemma orders_loop_dates poisson customers avg oid w os w' :
  orders_loop poisson customers avg oid w = Ok (os, w') ->
  clock_now w <= clock_now w' /\
  (Forall (fun c => Customer.signup_date c < Datetime.date (clock_now w))
     customers ->
   Forall (order_dated customers (Datetime.date (clock_now w'))) os).
Proof.
  revert oid w os w'. induction customers as [|c cs IH]; intros oid w os w' H;
    cbn [orders_loop] in H.
  - apply ret_inv in H as [<- <-]. split; [lia|constructor].
  - apply bind_inv in H as (n & w1 & Hn & H).
    apply clock_mono_orders_count in Hn.
    apply bind_inv in H as (os1 & w2 & Hos1 & H).
    apply bind_inv in H as (os2 & w3 & Hos2 & H).
    apply ret_inv in H as [<- <-].
    apply customer_orders_dates in Hos1 as (Hm1 & Hos1).
    apply IH in Hos2 as (Hm2 & Hos2).
    split; [lia|]. intros Hsd. apply Forall_cons in Hsd as [Hc Hcs].
    pose proof (date_mono _ _ Hn). pose proof (date_mono _ _ Hm1).
    pose proof (date_mono _ _ Hm2).
    apply Forall_app. split.
    + eapply Forall_impl; [apply Hos1; lia|]. intros o.
      apply order_dated_weaken; [|lia].
      intros x Hx. apply list_elem_of_singleton in Hx as ->. left.
    + eapply Forall_impl; [apply Hos2|].
      * eapply Forall_impl; [exact Hcs|]. intros x Hx. cbn in Hx. lia.
      * intros o. apply order_dated_weaken; [|lia].
        intros x Hx. now right.
Qed.

(** C1, as the code has it: every order of a run belongs to one of the
    generated customers and is dated at least one day after that
    customer's signup date; its calendar day is not after the day the
    clock shows when the run ends. *)
Theorem order_datetime_between poisson customer_count w
    customers products orders details payments w' :
  generate poisson customer_count w
  = Ok ((customers, products, orders, details, payments), w') ->
  forall o, o ∈ orders ->
    exists c, c ∈ customers /\
      Customer.customer_id c = Order.customer_id o /\
      (Customer.signup_date c + 1) * Datetime.day_us
      <= Order.order_datetime o /\
      Datetime.date (Order.order_datetime o)
      <= Datetime.date (clock_now w').
Proof.
  unfold generate. intros H.
  apply bind_inv in H as (cs & w1 & Hcs & H).
  apply bind_inv in H as (ps & w2 & Hps & H).
  apply clock_mono_products_loop in Hps.
  apply bind_inv in H as (os & w3 & Hos & H).
  apply bind_inv in H as (ds & w4 & Hds & H).
  apply clock_mono_generate_order_details in Hds.
  apply bind_inv in H as (pays & w5 & Hpays & H).
  apply clock_mono_generate_payments in Hpays.
  apply ret_inv in H as [H <-]. injection H as <- <- <- <- <-.
  apply generate_customers_spec in Hcs as (_ & _ & Hsd).
  unfold generate_orders in Hos.
  apply bind_inv in Hos as (pre & w3' & Hpre & Hos).
  apply ret_inv in Hos as [<- <-].
  apply orders_loop_dates in Hpre as (Hm & Hpre).
  pose proof (date_mono _ _ Hps). pose proof (date_mono _ _ Hm).
  pose proof (date_mono _ _ Hds). pose proof (date_mono _ _ Hpays).
  assert (Hall : Forall (order_dated cs (Datetime.date (clock_now w5))) pre).
  { eapply Forall_impl; [apply Hpre|].
    - eapply Forall_impl; [exact Hsd|]. intros c Hc. cbn in Hc. lia.
    - intros o. apply order_dated_weaken; [easy|lia]. }
  intros o Ho. rewrite <- (sort_by_datetime_perm pre) in Ho.
  rewrite Forall_forall in Hall. exact (Hall o Ho).
Qed.

(** C1, as stated, fails: in this run the only order is dated 21:59 on the
    day of the run, later than the clock shows when the run ends. *)
Lemma order_later_than_generation_time :
  match generate no_poisson 1 late_world with
  | Ok ((_, _, orders, _, _), w') =>
      Exists (fun o => clock_now w' < Order.order_datetime o) orders
  | Raise _ => False
  end.
Proof. vm_compute. constructor. reflexivity. Qed.

(** ** Two runs on the same days *)

Lemma related_ret {A} (a : A) : related (mret a) (mret a).
Proof. intros w1 w2 H. now split. Qed.

Lemma related_bind {A B} (m1 m2 : M A) (f1 f2 : A -> M B) :
  related m1 m2 -> (forall a, related (f1 a) (f2 a)) ->
  related (m1 ≫= f1) (m2 ≫= f2).
Proof.
  intros Hm Hf w1 w2 H. specialize (Hm w1 w2 H). unfold mbind, M_bind.
  destruct (m1 w1) as [[a1 w1']|e1], (m2 w2) as [[a2 w2']|e2];
    try contradiction; [|exact Hm].
  destruct Hm as [<- Hm]. now apply Hf.
Qed.

Lemma related_fmap {A B} (g : A -> B) (m1 m2 : M A) :
  related m1 m2 -> related (g <$> m1) (g <$> m2).
Proof.
  intros Hm w1 w2 H. specialize (Hm w1 w2 H). unfold fmap, M_fmap.
  destruct (m1 w1) as [[a1 w1']|e1], (m2 w2) as [[a2 w2']|e2];
    try contradiction; [|exact Hm].
  destruct Hm as [<- Hm]. now split.
Qed.

Lemma related_lift {A} (r : result A) : related (lift r) (lift r).
Proof. intros w1 w2 H. unfold lift. now destruct r. Qed.

Lemma related_raise {A} e : related (@raise A e) (raise e).
Proof. now intros w1 w2 H. Qed.

Lemma related_next_bits : related next_bits next_bits.
Proof.
  intros w1 w2 (Hb & Hn & Hc). unfold next_bits. rewrite Hb.
  destruct (rand_bits w2) eqn:E; cbn; (split; [reflexivity|]);
    repeat split; cbn; congruence || auto.
Qed.

Lemma related_next_normal : related next_normal next_normal.
Proof.
  intros w1 w2 (Hb & Hn & Hc). unfold next_normal. rewrite Hn.
  destruct (rand_normals w2) as [|[m e] zs] eqn:E; cbn;
    (split; [reflexivity|]); repeat split; cbn; congruence || auto.
Qed.

Lemma reading_nil now i : reading now [] i = now.
Proof. now destruct i. Qed.

Lemma reading_0 now ticks : reading now ticks 0 = now.
Proof. now destruct ticks. Qed.

Lemma tick_reading w :
  exists w', tick w = Ok (clock_now w, w') /\
    rand_bits w' = rand_bits w /\ rand_normals w' = rand_normals w /\
    forall i, reading (clock_now w') (clock_ticks w') i
              = reading (clock_now w) (clock_ticks w) (S i).
Proof.
  unfold tick. destruct (clock_ticks w) as [|t ts] eqn:E.
  - exists w. repeat split. intros i. now rewrite E, !reading_nil.
  - eexists. split; [reflexivity|]. now repeat split.
Qed.

Lemma related_tick_bind {B} (f1 f2 : Z -> M B) :
  (forall n1 n2, Datetime.date n1 = Datetime.date n2 ->
                 related (f1 n1) (f2 n2)) ->
  related (tick ≫= f1) (tick ≫= f2).
Proof.
  intros Hf w1 w2 (Hb & Hn & Hc).
  destruct (tick_reading w1) as (w1' & E1 & Hb1 & Hn1 & Hc1).
  destruct (tick_reading w2) as (w2' & E2 & Hb2 & Hn2 & Hc2).
  rewrite (bind_ok _ _ _ _ _ E1), (bind_ok _ _ _ _ _ E2).
  apply Hf; [specialize (Hc 0%nat); now rewrite !reading_0 in Hc|].
  split; [congruence|]. split; [congruence|]. intros i.
  rewrite Hc1, Hc2. apply Hc.
Qed.

(** Discharge [related m m] goals on code that does not read the clock. *)
Ltac rel :=
  repeat first
    [ match goal with
      | H : context [related _ _] |- related _ _ => simple apply H
      end
    | progress cbv zeta
    | simple apply related_ret
    | simple apply related_next_bits
    | simple apply related_next_normal
    | simple apply related_lift
    | simple apply related_raise
    | simple apply related_fmap
    | simple apply related_bind; [|intros ?]
    | match goal with
      | |- related (if ?b then _ else _) _ => destruct b
      | |- related (match ?x with _ => _ end) _ => destruct x
      end ].

Lemma related_randbelow n : related (Random.randbelow n) (Random.randbelow n).
Proof. unfold Random.randbelow. rel. Qed.

Lemma related_random : related Random.random Random.random.
Proof. unfold Random.random. rel. Qed.

Lemma related_randint a b : related (Random.randint a b) (Random.randint a b).
Proof. unfold Random.randint. pose proof related_randbelow. rel. Qed.

Lemma related_uniform a b : related (Random.uniform a b) (Random.uniform a b).
Proof. unfold Random.uniform. pose proof related_random. rel. Qed.

Lemma related_choice {A} (l : list A) :
  related (Random.choice l) (Random.choice l).
Proof. unfold Random.choice. pose proof related_randbelow. rel. Qed.

Lemma related_gauss mu sigma :
  related (Random.gauss mu sigma) (Random.gauss mu sigma).
Proof. unfold Random.gauss. rel. Qed.

Lemma related_choices1 {A} (l : list A) ws :
  related (Random.choices1 l ws) (Random.choices1 l ws).
Proof. unfold Random.choices1. pose proof related_random. rel. Qed.

Lemma related_sample_pool {A} (pool : list A) k :
  related (Random.sample_pool pool k) (Random.sample_pool pool k).
Proof.
  revert pool. induction k as [|k IH]; intros pool; cbn [Random.sample_pool];
    pose proof related_randbelow; rel.
Qed.

Lemma related_sample {A} (l : list A) k :
  related (Random.sample l k) (Random.sample l k).
Proof. unfold Random.sample. pose proof @related_sample_pool. rel. Qed.

Lemma related_gauss_count : related gauss_count gauss_count.
Proof. unfold gauss_count. pose proof related_gauss. rel. Qed.

Lemma signup_same_day n1 n2 days :
  Datetime.date n1 = Datetime.date n2 ->
  (td ← Datetime.timedelta days 0 0; Datetime.date <$> Datetime.plus n1 (- td))
  = (td ← Datetime.timedelta days 0 0;
     Datetime.date <$> Datetime.plus n2 (- td)).
Proof.
  intros Hd. destruct (Datetime.timedelta days 0 0) as [td|e] eqn:E;
    [|reflexivity].
  apply timedelta_spec in E. cbn. unfold Datetime.plus.
  replace td with (days * Datetime.day_us) by lia.
  rewrite !date_minus_days, Hd.
  destruct (Datetime.in_range _); [|reflexivity]. cbn.
  now rewrite !date_minus_days, Hd.
Qed.

Lemma related_generate_customer cid :
  related (generate_customer cid) (generate_customer cid).
Proof.
  unfold generate_customer, random_name, random_email, random_phone.
  pose proof @related_choice. pose proof related_random.
  pose proof related_randint.
  apply related_bind; [rel|intros name].
  apply related_bind; [rel|intros email].
  apply related_bind; [rel|intros phone].
  apply related_bind; [rel|intros state].
  apply related_tick_bind. intros n1 n2 Hd.
  apply related_bind; [rel|intros days].
  rewrite (signup_same_day n1 n2 days Hd). rel.
Qed.

Lemma related_mapM {A B} (f : A -> M B) l :
  (forall a, related (f a) (f a)) -> related (mapM f l) (mapM f l).
Proof. intros Hf. induction l as [|a l IH]; cbn [mapM]; rel. Qed.

Lemma related_generate_customers count :
  related (generate_customers count) (generate_customers count).
Proof. apply related_mapM, related_generate_customer. Qed.

Lemma related_generate_product pid category item :
  related (generate_product pid category item)
          (generate_product pid category item).
Proof.
  unfold generate_product, Random.normalvariate. destruct item as [[? ?] ?].
  pose proof related_gauss. pose proof related_randint. rel.
Qed.

Lemma related_products_items category items pid :
  related (products_items category items pid)
          (products_items category items pid).
Proof.
  revert pid. induction items as [|item items IH]; intros pid;
    cbn [products_items]; pose proof related_generate_product; rel.
Qed.

Lemma related_generate_products : related generate_products generate_products.
Proof.
  unfold generate_products. generalize 1. generalize PRODUCT_CATEGORIES.
  intros cats. induction cats as [|[c items] cats IH]; intros pid;
    cbn [products_loop]; pose proof related_products_items; rel.
Qed.

Lemma related_random_order_date signup_date :
  related (random_order_date signup_date) (random_order_date signup_date).
Proof.
  unfold random_order_date. apply related_tick_bind. intros n1 n2 Hd.
  rewrite Hd. pose proof related_gauss. pose proof related_randint. rel.
Qed.

Lemma related_customer_orders c n oid :
  related (customer_orders c n oid) (customer_orders c n oid).
Proof.
  revert oid. induction n as [|n IH]; intros oid; cbn [customer_orders];
    pose proof related_random_order_date; rel.
Qed.

Lemma related_generate_orders poisson customers avg :
  related (generate_orders poisson customers avg)
          (generate_orders poisson customers avg).
Proof.
  unfold generate_orders. apply related_bind; [|intros os; rel].
  generalize 1. induction customers as [|c cs IH]; intros oid;
    cbn [orders_loop]; [rel|].
  rewrite orders_count_gauss_eq. unfold orders_count_gauss.
  pose proof related_gauss. pose proof related_customer_orders. rel.
Qed.

Lemma related_order_lines order chosen detail_id :
  related (order_lines order chosen detail_id)
          (order_lines order chosen detail_id).
Proof.
  revert detail_id. induction chosen as [|p chosen IH]; intros detail_id;
    cbn [order_lines]; unfold order_line; pose proof related_gauss_count;
    pose proof related_random; pose proof related_uniform; rel.
Qed.

Lemma related_generate_order_details orders products :
  related (generate_order_details orders products)
          (generate_order_details orders products).
Proof.
  unfold generate_order_details. apply related_bind; [|intros bs; rel].
  generalize 1. induction orders as [|o orders IH]; intros detail_id;
    cbn [details_loop]; unfold order_block; pose proof related_gauss_count;
    pose proof @related_sample; pose proof related_order_lines; rel.
Qed.

Lemma related_generate_payments orders details :
  related (generate_payments orders details)
          (generate_payments orders details).
Proof.
  unfold generate_payments. apply related_bind; [rel|intros totals].
  generalize 1. induction orders as [|o orders IH]; intros pid;
    cbn [payments_loop]; unfold payment; pose proof related_uniform;
    pose proof @related_choices1; pose proof related_randint; rel.
Qed.

Lemma related_main_with repr_float poisson customer_count :
  related (main_with repr_float poisson customer_count)
          (main_with repr_float poisson customer_count).
Proof.
  unfold main_with, generate.
  apply related_bind; [|intros data; apply related_lift].
  apply related_bind; [apply related_generate_customers|intros customers].
  apply related_bind; [apply related_generate_products|intros products].
  apply related_bind; [apply related_generate_orders|intros orders].
  apply related_bind; [apply related_generate_order_details|intros details].
  apply related_bind; [apply related_generate_payments|intros payments].
  apply related_ret.
Qed.

(** C2, as the code has it: two runs from the same random state whose
    clocks show the same calendar day at every reading write the same five
    files, byte for byte (or end in the same exception). *)
Theorem same_seed_same_days_same_files repr_float poisson w1 w2 :
  same_days w1 w2 ->
  match main repr_float poisson w1, main repr_float poisson w2 with
  | Ok (files1, _), Ok (files2, _) => files1 = files2
  | Raise e1, Raise e2 => e1 = e2
  | _, _ => False
  end.
Proof.
  intros H. pose proof (related_main_with repr_float poisson 200 w1 w2 H) as R.
  unfold main. unfold alike in R.
  destruct (main_with repr_float poisson 200 w1) as [[f1 w1']|e1],
           (main_with repr_float poisson 200 w2) as [[f2 w2']|e2];
    try contradiction; [now destruct R|exact R].
Qed.

(** C2, as stated, fails: the same random state on the next day gives
    another [customers.csv]. *)
Lemma same_seed_next_day_other_files :
  match main Repr.repr no_poisson morning,
        main Repr.repr no_poisson next_morning with
  | Ok (files1, _), Ok (files2, _) =>
      String.eqb (customers_csv files1) (customers_csv files2) = false
  | _, _ => False
  end.
Proof. vm_compute. reflexivity. Qed.

Lemma same_seed_same_days_same_files_witness :
  same_days morning evening /\
  match main Repr.repr no_poisson morning,
        main Repr.repr no_poisson evening with
  | Ok (files1, _), Ok (files2, _) => files1 = files2
  | Raise e1, Raise e2 => e1 = e2
  | _, _ => False
  end.
Proof.
  assert (H : same_days morning evening).
  { split; [reflexivity|]. split; [reflexivity|]. intros i.
    do 9 (destruct i as [|i]; [vm_compute; reflexivity|]).
    vm_compute. reflexivity. }
  split; [exact H|].
  exact (same_seed_same_days_same_files Repr.repr no_poisson morning evening H).
Defined.

Lemma order_datetime_between_witness :
  generate no_poisson 3 morning
  = Ok ((demo_customers, demo_products, demo_orders, demo_details,
         demo_payments), after_payments) /\
  forall o, o ∈ demo_orders ->
    exists c, c ∈ demo_customers /\
      Customer.customer_id c = Order.customer_id o /\
      (Customer.signup_date c + 1) * Datetime.day_us
      <= Order.order_datetime o /\
      Datetime.date (Order.order_datetime o)
      <= Datetime.date (clock_now after_payments).
Proof.
  assert (H : generate no_poisson 3 morning
              = Ok ((demo_customers, demo_products, demo_orders,
                     demo_details, demo_payments), after_payments))
    by (vm_compute; reflexivity).
  split; [exact H|].
  exact (order_datetime_between no_poisson 3 morning _ _ _ _ _ _ H).
Defined.

Lemma generate_orders_ids_then_sort_witness :
  generate_orders no_poisson demo_customers (Float (lit 25 10)) after_products
  = Ok (demo_orders, after_orders) /\
  exists generated counts,
    orders_loop no_poisson demo_customers (Float (lit 25 10)) 1 after_products
    = Ok (generated, after_orders) /\
    Order.order_id <$> generated = seqZ 1 (Z.of_nat (length generated)) /\
    length counts = length demo_customers /\
    Forall (fun n => (1 <= n)%nat) counts /\
    Order.customer_id <$> generated
    = mjoin (zip_with (fun n c => replicate n (Customer.customer_id c))
               counts demo_customers) /\
    demo_orders = sort_by_datetime generated /\
    Permutation generated demo_orders /\
    Sorted datetime_le demo_orders /\
    Permutation (Order.order_id <$> demo_orders)
                (seqZ 1 (Z.of_nat (length demo_orders))).
Proof.
  assert (H : generate_orders no_poisson demo_customers (Float (lit 25 10))
                after_products = Ok (demo_orders, after_orders))
    by (vm_compute; reflexivity).
  split; [exact H|].
  exact (generate_orders_ids_then_sort _ _ _ _ _ _ H).
Defined.

Lemma order_lines_distinct_products_witness :
  NoDup (Order.order_id <$> demo_orders) /\
  NoDup (Product.product_id <$> demo_products) /\
  generate_order_details demo_orders demo_products after_orders
  = Ok (demo_details, after_details) /\
  exists blocks,
    details_loop demo_products demo_orders 1 after_orders
    = Ok (blocks, after_details) /\
    demo_details = concat (snd <$> blocks) /\
    Forall2 (fun o b =>
      lines_of o demo_details = snd b /\
      1 <= fst b /\
      Z.of_nat (length (lines_of o demo_details))
      = Z.min (fst b) (Z.of_nat (length demo_products)) /\
      NoDup (OrderDetail.product_id <$> lines_of o demo_details))
      demo_orders blocks.
Proof.
  assert (H1 : NoDup (Order.order_id <$> demo_orders))
    by (apply (bool_decide_unpack _); vm_compute; reflexivity).
  assert (H2 : NoDup (Product.product_id <$> demo_products))
    by (apply (bool_decide_unpack _); vm_compute; reflexivity).
  assert (H3 : generate_order_details demo_orders demo_products after_orders
               = Ok (demo_details, after_details))
    by (vm_compute; reflexivity).
  split; [exact H1|]. split; [exact H2|]. split; [exact H3|].
  exact (order_lines_distinct_products _ _ _ _ _ H1 H2 H3).
Defined.

Lemma every_order_has_lines_and_one_payment_witness :
  demo_products <> [] /\
  generate_order_details demo_orders demo_products after_orders
  = Ok (demo_details, after_details) /\
  (forall o, o ∈ demo_orders -> lines_of o demo_details <> []) /\
  forall w2,
    generate_payments demo_orders demo_details w2 <> Raise KeyError /\
    forall payments w3,
      generate_payments demo_orders demo_details w2 = Ok (payments, w3) ->
      Payment.order_id <$> payments = Order.order_id <$> demo_orders /\
      Payment.payment_id <$> payments
      = seqZ 1 (Z.of_nat (length demo_orders)).
Proof.
  assert (H1 : demo_products <> []) by discriminate.
  assert (H2 : generate_order_details demo_orders demo_products after_orders
               = Ok (demo_details, after_details))
    by (vm_compute; reflexivity).
  split; [exact H1|]. split; [exact H2|].
  exact (every_order_has_lines_and_one_payment _ _ _ _ _ H1 H2).
Defined.

(** ** The top-spender query *)

Lemma SFcompare_antisym a b :
  SFcompare b a = CompOpp <$> SFcompare a b.
Proof.
  destruct a as [sa|sa| |sa ma ea], b as [sb|sb| |sb mb eb]; cbn;
    try reflexivity; try (now destruct sa); try (now destruct sb);
    try (now destruct sa, sb).
  assert (Hm : Pos.compare_cont Eq mb ma
               = CompOpp (Pos.compare_cont Eq ma mb))
    by (now rewrite Pos.compare_cont_antisym).
  rewrite (Z.compare_antisym ea eb), Hm.
  destruct sa, sb; try reflexivity; f_equal;
    destruct (ea ?= eb); cbn; try reflexivity;
    now rewrite ?CompOpp_involutive.
Qed.

Lemma SFcompare_defined a b :
  a <> S754_nan -> b <> S754_nan -> exists c, SFcompare a b = Some c.
Proof.
  intros Ha Hb.
  destruct a as [sa|sa| |sa ma ea], b as [sb|sb| |sb mb eb]; try congruence;
    cbn; eauto.
Qed.

Lemma sql_geb_total a b : sql_geb a b = false -> sql_geb b a = true.
Proof.
  assert (Hb : b = S754_nan \/ b <> S754_nan)
    by (destruct b; auto; right; discriminate).
  destruct Hb as [->|Hb]; [now destruct a|].
  assert (Ha : a = S754_nan \/ a <> S754_nan)
    by (destruct a; auto; right; discriminate).
  destruct Ha as [->|Ha]; [now destruct b|].
  destruct (SFcompare_defined a b Ha Hb) as (c & Hc).
  assert (Hab : sql_geb a b = F64.leb b a) by (now destruct a, b).
  assert (Hba : sql_geb b a = F64.leb a b) by (now destruct a, b).
  rewrite Hab, Hba. unfold F64.leb, SFleb.
  rewrite (SFcompare_antisym a b), Hc. now destruct c.
Qed.

Lemma insert_desc_perm r l : Permutation (r :: l) (insert_desc r l).
Proof.
  induction l as [|x l IH]; cbn [insert_desc]; [reflexivity|].
  destruct (sql_geb (snd r) (snd x)); [reflexivity|].
  rewrite perm_swap. now constructor.
Qed.

Lemma order_by_total_desc_perm l : Permutation l (order_by_total_desc l).
Proof.
  induction l as [|r l IH]; [reflexivity|]. cbn [order_by_total_desc foldr].
  rewrite <- insert_desc_perm. now constructor.
Qed.

Lemma insert_desc_sorted r l : descending l -> descending (insert_desc r l).
Proof.
  unfold descending. induction 1 as [|x l Hs IH Hhd]; cbn [insert_desc].
  - repeat constructor.
  - destruct (sql_geb (snd r) (snd x)) eqn:E.
    + repeat constructor; assumption.
    + apply sql_geb_total in E. constructor; [exact IH|].
      destruct Hhd as [|y l Hxy]; cbn [insert_desc].
      * now constructor.
      * destruct (sql_geb (snd r) (snd y)); now constructor.
Qed.

Lemma order_by_total_desc_sorted l : descending (order_by_total_desc l).
Proof.
  induction l as [|r l IH]; [constructor|]. now apply insert_desc_sorted.
Qed.

Lemma Sorted_take {A} (R : A -> A -> Prop) n l :
  Sorted R l -> Sorted R (take n l).
Proof.
  intros H. revert n. induction H as [|x l Hs IH Hhd]; intros [|n];
    cbn [take]; [constructor|constructor|constructor|].
  constructor; [apply IH|].
  destruct Hhd as [|y l' Hxy]; destruct n; cbn [take]; now constructor.
Qed.

Lemma joined_customer db r :
  r ∈ joined db -> fst (fst (fst r)) ∈ Store.customers db.
Proof.
  unfold joined. intros H.
  apply list_elem_of_bind in H as (c & H & Hc).
  apply list_elem_of_bind in H as (o & H & _).
  apply list_elem_of_bind in H as (od & H & _).
  apply list_elem_of_bind in H as (p & H & _).
  apply list_elem_of_singleton in H as ->. exact Hc.
Qed.

(** ** The order of [ORDER BY total_spend DESC] *)

Lemma leb_rank a b :
  a <> S754_nan -> b <> S754_nan ->
  F64.leb a b = true <-> rank_le (float_rank a) (float_rank b).
Proof.
  intros Ha Hb. unfold F64.leb, SFleb.
  destruct a as [sa|sa| |sa ma ea], b as [sb|sb| |sb mb eb]; try congruence;
    cbn [SFcompare float_rank rank_le];
    try (destruct sa; cbn; split; (lia || congruence || discriminate));
    try (destruct sb; cbn; split; (lia || congruence || discriminate));
    try (destruct sa, sb; cbn; split; (lia || congruence || discriminate)).
  change (Pos.compare_cont Eq ma mb) with (Pos.compare ma mb).
  destruct sa, sb; cbn;
    destruct (Z.compare_spec ea eb), (Pos.compare_spec ma mb); cbn;
    split; try (intros; lia); try congruence; try discriminate;
    try (intros; subst; lia).
Qed.

Lemma rank_le_trans a b c : rank_le a b -> rank_le b c -> rank_le a c.
Proof.
  destruct a as [[a1 a2] a3], b as [[b1 b2] b3], c as [[c1 c2] c3].
  unfold rank_le. lia.
Qed.

Lemma sql_geb_trans a b c :
  sql_geb a b = true -> sql_geb b c = true -> sql_geb a c = true.
Proof.
  assert (Hnan : forall x : float, x = S754_nan \/ x <> S754_nan)
    by (intros []; auto; right; discriminate).
  destruct (Hnan c) as [->|Hc]; [now destruct a|].
  destruct (Hnan b) as [->|Hb]; [now destruct c|].
  destruct (Hnan a) as [->|Ha]; [now destruct b|].
  assert (Hgeb : forall x y, x <> S754_nan -> y <> S754_nan ->
                   sql_geb x y = F64.leb y x) by (now intros [] []).
  rewrite !Hgeb by assumption. rewrite !leb_rank by assumption.
  intros H1 H2. eapply rank_le_trans; eassumption.
Qed.

Lemma order_by_total_desc_strongly_sorted l :
  StronglySorted (fun a b => sql_geb (snd a) (snd b) = true)
    (order_by_total_desc l).
Proof.
  apply Sorted_StronglySorted; [|apply order_by_total_desc_sorted].
  intros x y z. apply sql_geb_trans.
Qed.

Lemma StronglySorted_take_drop {A} (R : A -> A -> Prop) n l x y :
  StronglySorted R l -> x ∈ take n l -> y ∈ drop n l -> R x y.
Proof.
  revert n. induction l as [|a l IH]; intros n Hs Hx Hy.
  - rewrite take_nil in Hx. now apply not_elem_of_nil in Hx.
  - apply StronglySorted_inv in Hs as [Hs Ha]. destruct n as [|n].
    + now apply not_elem_of_nil in Hx.
    + cbn [take drop] in Hx, Hy. apply elem_of_cons in Hx as [->|Hx].
      * rewrite Forall_forall in Ha. apply Ha.
        apply list_elem_of_lookup in Hy as [i Hi]. rewrite lookup_drop in Hi.
        eapply list_elem_of_lookup_2, Hi.
      * eapply IH; eassumption.
Qed.

(** ** The groups of [GROUP BY c.name] *)

Lemma joined_customer_rows db :
  joined db = c ← Store.customers db; customer_rows db c.
Proof. reflexivity. Qed.

Lemma customer_rows_name db c r :
  r ∈ customer_rows db c -> row_name r = Store.c_name c.
Proof.
  unfold customer_rows. intros H.
  apply list_elem_of_bind in H as (o & H & _).
  apply list_elem_of_bind in H as (od & H & _).
  apply list_elem_of_bind in H as (p & H & _).
  apply list_elem_of_singleton in H as ->. reflexivity.
Qed.

Lemma filter_none {A} (P : A -> Prop) `{!forall x, Decision (P x)} (l : list A) :
  Forall (fun x => ~ P x) l -> filter P l = [].
Proof.
  induction 1 as [|x l Hx _ IH]; [reflexivity|].
  rewrite filter_cons_False by exact Hx. exact IH.
Qed.

Lemma filter_all {A} (P : A -> Prop) `{!forall x, Decision (P x)} (l : list A) :
  Forall P l -> filter P l = l.
Proof.
  induction 1 as [|x l Hx _ IH]; [reflexivity|].
  rewrite filter_cons_True by exact Hx. now rewrite IH.
Qed.

Lemma one_product db od :
  NoDup (Store.p_product_id <$> Store.products db) ->
  Store.od_product_id od ∈ Store.p_product_id <$> Store.products db ->
  exists p, filter (fun p => Store.p_product_id p = Store.od_product_id od)
              (Store.products db) = [p].
Proof.
  generalize (Store.products db) as ps. induction ps as [|p ps IH];
    intros Hnd Hin; cbn [fmap list_fmap] in *.
  - now apply not_elem_of_nil in Hin.
  - apply NoDup_cons in Hnd as [Hp Hnd].
    destruct (decide (Store.p_product_id p = Store.od_product_id od)) as [E|E].
    + exists p. rewrite filter_cons_True by exact E. f_equal.
      apply filter_none, Forall_forall. intros q Hq Eq.
      apply Hp. rewrite E, <- Eq. now apply list_elem_of_fmap_2.
    + rewrite filter_cons_False by exact E. apply IH; [exact Hnd|].
      apply elem_of_cons in Hin as [Hin|Hin]; [congruence|exact Hin].
Qed.

Lemma customer_rows_spend db c :
  constrained db ->
  spend <$> customer_rows db c = line_spend <$> customer_lines db c.
Proof.
  intros (_ & Hp & Hfk). unfold customer_rows, customer_lines.
  induction (filter (fun o => Store.o_customer_id o = Store.c_customer_id c)
               (Store.orders db)) as [|o os IH]; [reflexivity|].
  rewrite !bind_cons, !fmap_app, IH. f_equal. clear IH.
  assert (Hsub : Forall (fun od => od ∈ Store.order_details db)
                   (filter (fun od => Store.od_order_id od = Store.o_order_id o)
                      (Store.order_details db))).
  { apply Forall_forall. intros od Hod.
    now apply list_elem_of_filter in Hod as [_ Hod]. }
  induction Hsub as [|od ods Hod _ IH]; [reflexivity|].
  rewrite bind_cons, fmap_app, IH. cbn [fmap list_fmap]. 
  rewrite Forall_forall in Hfk.
  destruct (one_product db od Hp (Hfk od Hod)) as [p ->]. reflexivity.
Qed.

Lemma group_of_only_customer db c :
  NoDup (Store.c_customer_id <$> Store.customers db) ->
  only_of_name db c ->
  filter (fun r => row_name r = Store.c_name c) (joined db)
  = customer_rows db c.
Proof.
  intros Hnd [Hc Honly]. rewrite joined_customer_rows.
  apply NoDup_fmap_1 in Hnd.
  induction (Store.customers db) as [|c' cs IH].
  - now apply not_elem_of_nil in Hc.
  - apply NoDup_cons in Hnd as [Hc' Hnd]. rewrite bind_cons, filter_app.
    destruct (decide (Store.c_name c' = Store.c_name c)) as [E|Hne].
    + assert (c' = c) as -> by (apply Honly; [left|exact E]).
      rewrite filter_all.
      2: { apply Forall_forall. intros r. apply customer_rows_name. }
      rewrite filter_none; [apply app_nil_r|].
      apply Forall_forall. intros r Hr Hname.
      apply list_elem_of_bind in Hr as (c2 & Hr & Hc2).
      apply customer_rows_name in Hr.
      assert (c2 = c) by (apply Honly; [now right|congruence]).
      subst c2. exact (Hc' Hc2).
    + rewrite filter_none.
      2: { apply Forall_forall. intros r Hr Hname.
           apply customer_rows_name in Hr. congruence. }
      apply IH; [exact Hnd| |intros c2 Hc2; apply Honly; now right].
      apply elem_of_cons in Hc as [Hc|Hc]; [congruence|exact Hc].
Qed.

Lemma joined_names db name :
  constrained db ->
  name ∈ row_name <$> joined db <-> has_lines db name.
Proof.
  intros (_ & Hp & Hfk). split.
  - intros H. apply list_elem_of_fmap in H as (r & -> & Hr).
    unfold joined in Hr.
    apply list_elem_of_bind in Hr as (c & Hr & Hc).
    apply list_elem_of_bind in Hr as (o & Hr & Ho).
    apply list_elem_of_bind in Hr as (od & Hr & Hod).
    apply list_elem_of_bind in Hr as (p & Hr & _).
    apply list_elem_of_singleton in Hr as ->.
    apply list_elem_of_filter in Ho as [Eo Ho].
    apply list_elem_of_filter in Hod as [Eod Hod].
    now exists c, o, od.
  - intros (c & o & od & Hc & Ho & Hod & Eo & Eod & <-).
    rewrite Forall_forall in Hfk.
    destruct (one_product db od Hp (Hfk od Hod)) as [p Ep].
    apply list_elem_of_fmap. exists (c, o, od, p). split; [reflexivity|].
    unfold joined.
    apply list_elem_of_bind. exists c. split; [|exact Hc].
    apply list_elem_of_bind. exists o.
    split; [|now apply list_elem_of_filter].
    apply list_elem_of_bind. exists od.
    split; [|now apply list_elem_of_filter].
    apply list_elem_of_bind. exists p. split; [left|].
    rewrite Ep. left.
Qed.

(** C3, as the code has it, on a store that meets the constraints of its
    tables.  [GROUP BY c.name] makes one row per customer name that has
    order lines, and for a customer whose name no other customer has the
    row's total is the sum of quantity times unit price over that
    customer's order lines.  [ORDER BY total_spend DESC LIMIT 5] returns
    five of these rows, or all when there are fewer: in non-increasing order
    of [total_spend], and no row left out has a larger total than a row
    returned. *)
Theorem top_spenders_per_name (db : Store.t) :
  constrained db ->
  NoDup (fst <$> grouped float_sum db) /\
  (forall name, name ∈ fst <$> grouped float_sum db <-> has_lines db name) /\
  (forall c total,
     only_of_name db c ->
     (Store.c_name c, total) ∈ grouped float_sum db ->
     total = float_sum (line_spend <$> customer_lines db c)) /\
  top_spenders float_sum db ⊆+ grouped float_sum db /\
  length (top_spenders float_sum db)
  = Nat.min 5 (length (grouped float_sum db)) /\
  descending (top_spenders float_sum db) /\
  (forall r g,
     r ∈ top_spenders float_sum db -> g ∈ grouped float_sum db ->
     g ∉ top_spenders float_sum db -> sql_geb (snd r) (snd g) = true).
Proof.
  intros Hdb.
  assert (Hnames : fst <$> grouped float_sum db
                   = remove_dups (row_name <$> joined db)).
  { unfold grouped. rewrite <- list_fmap_compose. apply list_fmap_id. }
  pose proof (order_by_total_desc_perm (grouped float_sum db)) as Hperm.
  split; [rewrite Hnames; apply NoDup_remove_dups|].
  split.
  { intros name. rewrite Hnames, elem_of_remove_dups.
    now apply joined_names. }
  split.
  { intros c total Hc H. unfold grouped in H.
    apply list_elem_of_fmap in H as (n & E & _). injection E as <- ->.
    unfold group_spends.
    rewrite (group_of_only_customer db c (proj1 Hdb) Hc).
    f_equal. now apply customer_rows_spend. }
  unfold top_spenders. split.
  { rewrite Hperm at 2. apply sublist_submseteq, sublist_take. }
  split; [now rewrite length_take, <- (Permutation_length Hperm)|].
  split; [apply Sorted_take, order_by_total_desc_sorted|].
  intros r g Hr Hg Hno. rewrite Hperm in Hg.
  rewrite <- (take_drop 5 (order_by_total_desc (grouped float_sum db)))
    in Hg at 1.
  apply elem_of_app in Hg as [Hg|Hg]; [contradiction|].
  apply (StronglySorted_take_drop
           (fun a b => sql_geb (snd a) (snd b) = true) 5
           (order_by_total_desc (grouped float_sum db)) r g);
    [apply order_by_total_desc_strongly_sorted|exact Hr|exact Hg].
Qed.

Lemma top_spenders_per_name_witness :
  constrained shop /\
  only_of_name shop liam_brown /\
  (Store.c_name liam_brown, F64.lit 20 1) ∈ grouped float_sum shop /\
  F64.lit 20 1 = float_sum (line_spend <$> customer_lines shop liam_brown) /\
  length (top_spenders float_sum shop)
  = Nat.min 5 (length (grouped float_sum shop)).
Proof.
  assert (H1 : constrained shop).
  { split; [|split].
    - apply (bool_decide_unpack _). vm_compute. reflexivity.
    - apply (bool_decide_unpack _). vm_compute. reflexivity.
    - apply (bool_decide_unpack _). vm_compute. reflexivity. }
  assert (H2 : only_of_name shop liam_brown).
  { split; [do 2 right; left|]. intros c' Hc' Hname.
    repeat (apply elem_of_cons in Hc' as [->|Hc']; [try discriminate Hname|]).
    - reflexivity.
    - now apply not_elem_of_nil in Hc'. }
  assert (H3 : (Store.c_name liam_brown, F64.lit 20 1)
               ∈ grouped float_sum shop).
  { vm_compute. right. left. }
  split; [exact H1|]. split; [exact H2|]. split; [exact H3|].
  destruct (top_spenders_per_name shop H1)
    as (_ & _ & Htotal & _ & Hlen & _).
  split; [exact (Htotal _ _ H2 H3)|exact Hlen].
Defined.

(** C3, as stated, fails: in this store the two rows have the same total,
    and the total of the name two customers share is the sum of neither
    customer. *)
Lemma top_spenders_ties_and_shared_names :
  ~ strictly_descending (top_spenders float_sum shop) /\
  ~ per_customer float_sum shop (top_spenders float_sum shop).
Proof.
  assert (E : top_spenders float_sum shop
              = [("Emma Smith"%string, F64.lit 20 1);
                 ("Liam Brown"%string, F64.lit 20 1)])
    by (vm_compute; reflexivity).
  rewrite E. split.
  - intros H. inversion H as [|x l _ Hhd]; subst.
    inversion Hhd as [|y l' Hlt]; subst. vm_compute in Hlt.
    discriminate Hlt.
  - intros H.
    destruct (H "Emma Smith"%string (F64.lit 20 1))
      as (c & Hc & Hname & Hsum); [left|].
    apply list_elem_of_In in Hc. cbn [shop Store.customers In] in Hc.
    destruct Hc as [<-|[<-|[<-|[]]]];
      [vm_compute in Hsum; discriminate Hsum
      |vm_compute in Hsum; discriminate Hsum
      |discriminate Hname].
Qed.

(** ** The shipping threshold *)

(** C4 fails on the code: in this run the line totals 59.8, 9.1 and 6.1 add
    up, in floating point, to 74.99999999999999; the payment shows the
    subtotal 75.0, which is not below 75, and yet shipping 4.99 is
    charged, because the threshold is tested on the unrounded sum. *)
Lemma shipping_charged_at_subtotal_75 :
  match generate no_poisson 1 threshold_world with
  | Ok ((_, _, _, details, payments), _) =>
      OrderDetail.line_total <$> details
      = [Float (lit 5980 100); Float (lit 910 100); Float (lit 610 100)] /\
      sum_from (Int 0) (line_totals_of 1 details)
      = Ok (Float (S754_finite false 5277655813324799 (-46))) /\
      exists p, payments = [p] /\
        Payment.subtotal p = Float (lit 75 1) /\
        Num.geb (Payment.subtotal p) (Int 75) = true /\
        Payment.shipping p = Float (lit 499 100) /\
        Num.gtb (Payment.shipping p) (Int 0) = true
  | Raise _ => False
  end.
Proof.
  vm_compute. split; [reflexivity|]. split; [reflexivity|].
  eexists. repeat split; reflexivity.
Qed.

(** ** Rounding to the nearest integer *)

Lemma round_half_even_near n d :
  0 < d -> 2 * Z.abs (round_half_even n d * d - n) <= d.
Proof.
  intros Hd. unfold round_half_even.
  pose proof (Z.div_mod n d ltac:(lia)) as E.
  pose proof (Z.mod_pos_bound n d Hd) as Hr.
  set (q := n / d) in *. set (r := n mod d) in *.
  destruct (Z.compare_spec (2 * r) d) as [C|C|C];
    [destruct (Z.even q)| |]; lia.
Qed.

Lemma round_half_even_best n d z :
  0 < d -> Z.abs (round_half_even n d * d - n) <= Z.abs (z * d - n).
Proof.
  intros Hd. unfold round_half_even.
  pose proof (Z.div_mod n d ltac:(lia)) as E.
  pose proof (Z.mod_pos_bound n d Hd) as Hr.
  set (q := n / d) in *. set (r := n mod d) in *.
  assert (Hz : 0 <= (q - z) * d \/ d <= (z - q) * d)
    by (destruct (Z.le_gt_cases z q); [left|right]; nia).
  destruct (Z.compare_spec (2 * r) d) as [C|C|C];
    [destruct (Z.even q)| |]; lia.
Qed.

Lemma round_half_even_exact q d : 0 < d -> round_half_even (q * d) d = q.
Proof.
  intros Hd. unfold round_half_even.
  rewrite Z.div_mul, Z.mod_mul by lia.
  destruct (Z.compare_spec (2 * 0) d); lia.
Qed.

Lemma round_half_even_nonneg n d : 0 <= n -> 0 < d -> 0 <= round_half_even n d.
Proof.
  intros Hn Hd. unfold round_half_even.
  pose proof (Z.div_pos n d Hn Hd).
  destruct (_ ?= _); [destruct (Z.even _)| |]; lia.
Qed.

(** ** Binary scalings

    Exponents may be negative, so the bounds are stated after multiplying
    through by [2^K] for any [K] making every exponent non-negative. *)

Lemma pow2_pos k : 0 <= k -> 0 < 2 ^ k.
Proof. intros. apply Z.pow_pos_nonneg; lia. Qed.

Lemma pow2_add a b : 0 <= a -> 0 <= b -> 2 ^ (a + b) = 2 ^ a * 2 ^ b.
Proof. intros. apply Z.pow_add_r; lia. Qed.

Lemma pow2_split a b : 0 <= b <= a -> 2 ^ a = 2 ^ b * 2 ^ (a - b).
Proof. intros. rewrite <- pow2_add by lia. f_equal. lia. Qed.

Lemma abs_scale a c : 0 <= c -> Z.abs (a * c) = Z.abs a * c.
Proof. intros. rewrite Z.abs_mul, (Z.abs_eq c); lia. Qed.

Lemma hundredths_near m e K :
  0 <= K -> 0 <= e + K ->
  2 * Z.abs (hundredths m e * 2 ^ K - 100 * Zpos m * 2 ^ (e + K)) <= 2 ^ K.
Proof.
  intros HK HeK. pose proof (pow2_pos K HK) as HP.
  assert (He : (exists p, e = Zneg p) \/ 0 <= e)
    by (destruct e; eauto; right; lia).
  destruct He as [[p ->]|He]; cycle 1.
  - replace (hundredths m e) with (Zpos m * 100 * 2 ^ e)
      by (destruct e; try reflexivity; lia).
    rewrite (pow2_add e K) by lia.
    replace (_ - _) with 0 by ring. cbn. lia.
  - cbn [hundredths].
    pose proof (pow2_pos (Zpos p) ltac:(lia)) as Hp.
    pose proof (round_half_even_near (Zpos m * 100) _ Hp) as H.
    pose proof (pow2_pos (Zneg p + K) HeK) as Hc.
    rewrite (pow2_split K (Zpos p)) by lia.
    replace (K - Zpos p) with (Zneg p + K) by lia.
    set (c := 2 ^ (Zneg p + K)) in *. set (d := 2 ^ Zpos p) in *.
    set (N := round_half_even _ _) in *.
    replace (N * (d * c) - 100 * Zpos m * c)
      with ((N * d - Zpos m * 100) * c) by ring.
    rewrite abs_scale by lia. nia.
Qed.

Lemma scaled_near n d e K :
  0 < d -> 0 <= K -> 0 <= e + K ->
  2 * Z.abs (scaled n d e * d * 2 ^ (e + K) - n * 2 ^ K) <= d * 2 ^ (e + K).
Proof.
  intros Hd HK HeK. pose proof (pow2_pos _ HeK) as Hc.
  assert (He : (exists p, e = Zneg p) \/ 0 <= e)
    by (destruct e; eauto; right; lia).
  destruct He as [[p ->]|He].
  - cbn [scaled].
    pose proof (round_half_even_near (n * 2 ^ Zpos p) d Hd) as H.
    rewrite (pow2_split K (Zpos p)) by lia.
    replace (K - Zpos p) with (Zneg p + K) by lia.
    set (c := 2 ^ (Zneg p + K)) in *. set (q := round_half_even _ _) in *.
    replace (q * d * c - n * (2 ^ Zpos p * c))
      with ((q * d - n * 2 ^ Zpos p) * c) by ring.
    rewrite abs_scale by lia. nia.
  - replace (scaled n d e) with (round_half_even n (d * 2 ^ e))
      by (destruct e; try reflexivity; lia).
    pose proof (pow2_pos e He) as Hp.
    pose proof (round_half_even_near n (d * 2 ^ e) ltac:(nia)) as H.
    rewrite (pow2_add e K) by lia.
    pose proof (pow2_pos K HK) as HP.
    set (c := 2 ^ K) in *. set (q := round_half_even _ _) in *.
    replace (q * d * (2 ^ e * c) - n * c)
      with ((q * (d * 2 ^ e) - n) * c) by ring.
    rewrite abs_scale by lia. nia.
Qed.

Lemma scaled_best n d e K z :
  0 < d -> 0 <= K -> 0 <= e + K ->
  Z.abs (scaled n d e * d * 2 ^ (e + K) - n * 2 ^ K)
  <= Z.abs (z * d * 2 ^ (e + K) - n * 2 ^ K).
Proof.
  intros Hd HK HeK. pose proof (pow2_pos _ HeK) as Hc.
  assert (He : (exists p, e = Zneg p) \/ 0 <= e)
    by (destruct e; eauto; right; lia).
  destruct He as [[p ->]|He].
  - cbn [scaled].
    pose proof (round_half_even_best (n * 2 ^ Zpos p) d z Hd) as H.
    rewrite (pow2_split K (Zpos p)) by lia.
    replace (K - Zpos p) with (Zneg p + K) by lia.
    set (c := 2 ^ (Zneg p + K)) in *. set (q := round_half_even _ _) in *.
    replace (q * d * c - n * (2 ^ Zpos p * c))
      with ((q * d - n * 2 ^ Zpos p) * c) by ring.
    replace (z * d * c - n * (2 ^ Zpos p * c))
      with ((z * d - n * 2 ^ Zpos p) * c) by ring.
    rewrite !abs_scale by lia. nia.
  - replace (scaled n d e) with (round_half_even n (d * 2 ^ e))
      by (destruct e; try reflexivity; lia).
    pose proof (pow2_pos e He) as Hp.
    pose proof (round_half_even_best n (d * 2 ^ e) z ltac:(nia)) as H.
    rewrite (pow2_add e K) by lia.
    pose proof (pow2_pos K HK) as HP.
    set (c := 2 ^ K) in *. set (q := round_half_even _ _) in *.
    replace (q * d * (2 ^ e * c) - n * c)
      with ((q * (d * 2 ^ e) - n) * c) by ring.
    replace (z * d * (2 ^ e * c) - n * c)
      with ((z * (d * 2 ^ e) - n) * c) by ring.
    rewrite !abs_scale by lia. nia.
Qed.

Lemma scaled_nonneg n d e : 0 <= n -> 0 < d -> 0 <= scaled n d e.
Proof.
  intros Hn Hd.
  destruct e as [|p|p]; cbn [scaled]; apply round_half_even_nonneg;
    try pose proof (pow2_pos (Zpos p) ltac:(lia)); try nia.
Qed.

Lemma ilog2_spec n d K :
  0 < n -> 0 < d -> 0 <= K -> 0 <= ilog2 n d + K ->
  d * 2 ^ (ilog2 n d + K) <= n * 2 ^ K < d * 2 ^ (ilog2 n d + K + 1).
Proof.
  intros Hn Hd HK. unfold ilog2.
  pose proof (Z.log2_spec n Hn) as [Hn1 Hn2].
  pose proof (Z.log2_spec d Hd) as [Hd1 Hd2].
  pose proof (Z.log2_nonneg n) as Ha. pose proof (Z.log2_nonneg d) as Hb.
  set (a := Z.log2 n) in *. set (b := Z.log2 d) in *.
  pose proof (pow2_pos K HK) as HP.
  pose proof (pow2_pos b Hb) as HB.
  assert (Hk : (exists p, a - b = Zneg p) \/ 0 <= a - b)
    by (destruct (a - b); eauto; right; lia).
  set (ge := match a - b with Zneg p => _ | _ => _ end).
  assert (Hge : 0 <= a - b + K ->
                ge = true /\ d * 2 ^ (a - b + K) <= n * 2 ^ K \/
                ge = false /\ n * 2 ^ K < d * 2 ^ (a - b + K)).
  { intros HkK. pose proof (pow2_pos _ HkK). subst ge.
    destruct Hk as [[p Hp]|Hk].
    - rewrite Hp in *. pose proof (pow2_pos (Zpos p) ltac:(lia)) as Hq.
      rewrite (pow2_split K (Zpos p)) by lia.
      replace (K - Zpos p) with (Zneg p + K) by lia.
      destruct (Z.leb_spec d (n * 2 ^ Zpos p)); [left|right]; split; auto; nia.
    - replace (match a - b with Zneg p => _ | _ => d * 2 ^ (a - b) <=? n end)
        with (d * 2 ^ (a - b) <=? n) by (destruct (a - b); try reflexivity; lia).
      pose proof (pow2_pos _ Hk).
      rewrite (pow2_add (a - b) K) by lia.
      destruct (Z.leb_spec (d * 2 ^ (a - b)) n); [left|right]; split; auto; nia. }
  clearbody ge. destruct ge; intros HL.
  - destruct Hge as [[_ Hlo]|[? _]]; [lia| |discriminate]. split; [exact Hlo|].
    pose proof (pow2_pos (a - b + K + 1) ltac:(lia)) as Hc.
    assert (E : 2 ^ Z.succ a * 2 ^ K = 2 ^ b * 2 ^ (a - b + K + 1)).
    { rewrite <- !pow2_add by lia. f_equal. lia. }
    nia.
  - destruct Hge as [[? _]|[_ Hup]]; [lia|discriminate|].
    replace (a - b - 1 + K + 1) with (a - b + K) by lia. split; [|exact Hup].
    pose proof (pow2_pos (a - b - 1 + K) ltac:(lia)) as Hc.
    assert (E : 2 ^ Z.succ b * 2 ^ (a - b - 1 + K) = 2 ^ a * 2 ^ K).
    { rewrite <- !pow2_add by lia. f_equal. lia. }
    nia.
Qed.

Lemma ilog2_unique n d l K :
  0 < n -> 0 < d -> 0 <= K -> 0 <= l + K ->
  d * 2 ^ (l + K) <= n * 2 ^ K < d * 2 ^ (l + K + 1) ->
  ilog2 n d = l.
Proof.
  intros Hn Hd HK Hl [Hlo Hup].
  set (K' := Z.max K (- ilog2 n d)).
  pose proof (ilog2_spec n d K' Hn Hd ltac:(lia) ltac:(lia)) as [Hlo' Hup'].
  pose proof (pow2_pos (K' - K) ltac:(lia)) as Hc.
  rewrite (pow2_split K' K) in Hlo', Hup' by lia.
  assert (E1 : 2 ^ (l + K') = 2 ^ (l + K) * 2 ^ (K' - K))
    by (rewrite <- pow2_add by lia; f_equal; lia).
  assert (E2 : 2 ^ (l + K' + 1) = 2 ^ (l + K + 1) * 2 ^ (K' - K))
    by (rewrite <- pow2_add by lia; f_equal; lia).
  set (L := ilog2 n d) in *.
  assert (H1 : 2 ^ (L + K') < 2 ^ (l + K' + 1)) by (rewrite E2; nia).
  assert (H2 : 2 ^ (l + K') < 2 ^ (L + K' + 1)) by (rewrite E1; nia).
  apply Z.pow_lt_mono_r_iff in H1, H2; lia.
Qed.

(** ** Canonical binary64 floats *)

Lemma digits2_pos_spec m :
  2 ^ (Zpos (digits2_pos m) - 1) <= Zpos m < 2 ^ Zpos (digits2_pos m).
Proof.
  induction m as [p IH|p IH|]; cbn [digits2_pos].
  3: { cbn. lia. }
  all: rewrite Pos2Z.inj_succ.
  all: replace (Z.succ (Zpos (digits2_pos p)) - 1)
         with (Zpos (digits2_pos p) - 1 + 1) by lia.
  all: rewrite Z.pow_succ_r by lia.
  all: rewrite (pow2_add _ 1) by lia.
  all: change (2 ^ 1) with 2; lia.
Qed.

Lemma valid_binary64 s m e :
  valid_binary 53 1024 (S754_finite s m e) = true ->
  Zpos m < 2 ^ 53 /\ -1074 <= e <= 971 /\ (-1074 < e -> 2 ^ 52 <= Zpos m).
Proof.
  cbn [valid_binary]. unfold bounded, canonical_mantissa, fexp, emin.
  intros [Hc He]%andb_prop.
  apply Z.eqb_eq in Hc. apply Z.leb_le in He.
  pose proof (digits2_pos_spec m) as [Hlo Hup].
  set (dg := Zpos (digits2_pos m)) in *.
  assert (Hdg : dg <= 53 /\ (-1074 < e -> dg = 53)) by lia.
  destruct Hdg as [Hdg Hn]. repeat split; try lia.
  - apply Z.lt_le_trans with (1 := Hup). apply Z.pow_le_mono_r; lia.
  - intros H. rewrite (Hn H) in Hlo. exact Hlo.
Qed.

(** ** The nearest float *)

Lemma float_within_cent_scaled a b ma ea mb eb K :
  dyadic a = Some (ma, ea) -> dyadic b = Some (mb, eb) ->
  0 <= K -> 0 <= ea + K -> 0 <= eb + K ->
  100 * Z.abs (ma * 2 ^ (ea + K) - mb * 2 ^ (eb + K)) <= 2 ^ K ->
  float_within_cent a b.
Proof.
  intros Ha Hb HK Hea Heb H. unfold float_within_cent. rewrite Ha, Hb.
  cbv zeta. set (k := Z.min (Z.min ea eb) 0).
  pose proof (pow2_pos (K + k) ltac:(lia)) as Hc.
  pose proof (pow2_pos (- k) ltac:(lia)) as Hk.
  replace (2 ^ K) with (2 ^ (- k) * 2 ^ (K + k)) in H
    by (rewrite <- pow2_add by lia; f_equal; lia).
  replace (2 ^ (ea + K)) with (2 ^ (ea - k) * 2 ^ (K + k)) in H
    by (rewrite <- pow2_add by lia; f_equal; lia).
  replace (2 ^ (eb + K)) with (2 ^ (eb - k) * 2 ^ (K + k)) in H
    by (rewrite <- pow2_add by lia; f_equal; lia).
  set (c := 2 ^ (K + k)) in *.
  replace (ma * (2 ^ (ea - k) * c) - mb * (2 ^ (eb - k) * c))
    with ((ma * 2 ^ (ea - k) - mb * 2 ^ (eb - k)) * c) in H by ring.
  rewrite abs_scale in H by lia. nia.
Qed.

Lemma nearest_dyadic s n d :
  0 < n -> 0 < d ->
  let E := Z.max (ilog2 n d - 52) (-1074) in
  E <= 970 ->
  exists mb eb, dyadic (nearest s n d) = Some (mb, eb) /\
    forall K, 0 <= K -> 0 <= E + K ->
      0 <= eb + K /\
      mb * 2 ^ (eb + K) = (if s then - scaled n d E else scaled n d E) * 2 ^ (E + K).
Proof.
  intros Hn Hd E HE. unfold nearest.
  destruct (Z.leb_spec n 0) as [?|_]; [lia|].
  fold E. cbv zeta.
  pose proof (scaled_nonneg n d E ltac:(lia) Hd) as Hq.
  set (q := scaled n d E) in *.
  destruct (Z.eqb_spec q (2 ^ 53)) as [Hq53|Hq53].
  - change (2 ^ 52) with (Zpos (Z.to_pos (2 ^ 52))). cbv iota.
    destruct (Z.leb_spec (E + 1) 971); [|lia].
    exists (if s then - 2 ^ 52 else 2 ^ 52), (E + 1). split.
    + cbn [dyadic]. destruct s; reflexivity.
    + intros K HK HEK. split; [lia|].
      replace (E + 1 + K) with (1 + (E + K)) by lia.
      rewrite (pow2_add 1 (E + K)), Hq53 by lia.
      destruct s; change (2 ^ 53) with (2 ^ 52 * 2 ^ 1); ring.
  - cbv iota. destruct q as [|m|m]; [| |lia].
    + exists 0, 0. split; [reflexivity|]. intros K HK HEK. split; [lia|].
      destruct s; ring.
    + destruct (Z.leb_spec E 971); [|lia].
      exists (if s then Zneg m else Zpos m), E. split; [reflexivity|].
      intros K HK HEK. split; [lia|]. destruct s; reflexivity.
Qed.

Lemma nearest_exact s m e :
  2 ^ 52 <= Zpos m < 2 ^ 53 -> 0 <= e <= 971 ->
  nearest s (Zpos m * 100 * 2 ^ e) 100 = S754_finite s m e.
Proof.
  intros Hm He. pose proof (pow2_pos e ltac:(lia)) as Hp.
  assert (HL : ilog2 (Zpos m * 100 * 2 ^ e) 100 = 52 + e).
  { apply (ilog2_unique _ _ _ 0); [nia|lia|lia|lia|].
    rewrite !Z.add_0_r, Z.pow_0_r, Z.mul_1_r.
    rewrite (pow2_add 52 e), (pow2_add (52 + e) 1), (pow2_add 52 e) by lia.
    change (2 ^ 1) with 2. nia. }
  unfold nearest. destruct (Z.leb_spec (Zpos m * 100 * 2 ^ e) 0); [nia|].
  rewrite HL. replace (Z.max (52 + e - 52) (-1074)) with e by lia.
  replace (scaled (Zpos m * 100 * 2 ^ e) 100 e) with (Zpos m).
  2: { replace (scaled (Zpos m * 100 * 2 ^ e) 100 e)
         with (round_half_even (Zpos m * 100 * 2 ^ e) (100 * 2 ^ e))
         by (destruct e; try reflexivity; lia).
       rewrite <- Z.mul_assoc. symmetry. apply round_half_even_exact. lia. }
  cbv zeta. destruct (Z.eqb_spec (Zpos m) (2 ^ 53)); [lia|].
  cbv iota. destruct (Z.leb_spec e 971); [reflexivity|lia].
Qed.

Lemma float_within_cent_refl x : is_finite x = true -> float_within_cent x x.
Proof.
  intros Hx.
  destruct (dyadic x) as [[m e]|] eqn:E; [|destruct x; discriminate].
  pose proof (pow2_pos (Z.max 0 (- e)) ltac:(lia)).
  apply (float_within_cent_scaled x x m e m e (Z.max 0 (- e)) E E); lia.
Qed.

(** ** Rounding to cents moves a float by at most 0.01 *)

Lemma round2_within_cent x :
  is_finite x = true -> valid_binary 53 1024 x = true ->
  float_within_cent x (round2 x).
Proof.
  intros Hfin Hv.
  destruct x as [s| | |s m e];
    [apply float_within_cent_refl; reflexivity|discriminate..|].
  apply valid_binary64 in Hv as (Hm & He & Hn). cbn [round2].
  assert (Hsign : (exists p, e = Zneg p) \/ 0 <= e)
    by (destruct e; eauto; right; lia).
  destruct Hsign as [[p ->]|He0]; cycle 1.
  { replace (hundredths m e) with (Zpos m * 100 * 2 ^ e)
      by (destruct e; try reflexivity; lia).
    rewrite nearest_exact by lia.
    apply float_within_cent_refl. reflexivity. }
  pose proof (pow2_pos (Zpos p) ltac:(lia)) as HD.
  assert (HD2 : 2 ^ 1 <= 2 ^ Zpos p) by (apply Z.pow_le_mono_r; lia).
  change (2 ^ 1) with 2 in HD2.
  pose proof (hundredths_near m (Zneg p) (Zpos p) ltac:(lia) ltac:(lia)) as H0.
  replace (Zneg p + Zpos p) with 0 in H0 by lia.
  rewrite Z.pow_0_r, Z.mul_1_r in H0.
  assert (HN : 0 <= hundredths m (Zneg p)).
  { cbn [hundredths]. apply round_half_even_nonneg; lia. }
  set (N := hundredths m (Zneg p)) in *.
  set (D := 2 ^ Zpos p) in *.
  change (2 ^ 53) with 9007199254740992 in Hm.
  destruct (Z.eq_dec N 0) as [HN0|HN0].
  { rewrite HN0 in *. cbn [nearest Z.leb Z.compare].
    apply (float_within_cent_scaled _ _ (if s then Zneg m else Zpos m)
             (Zneg p) 0 0 (Zpos p)); try reflexivity; try lia.
    replace (Zneg p + Zpos p) with 0 by lia. fold D.
    destruct s; rewrite Z.pow_0_r; lia. }
  set (L := ilog2 N 100).
  assert (HL : L <= 53).
  { destruct (Z.le_gt_cases L 53) as [|HL]; [assumption|exfalso].
    pose proof (ilog2_spec N 100 0 ltac:(lia) ltac:(lia) ltac:(lia)
                  ltac:(fold L; lia)) as [Hlo _].
    fold L in Hlo. rewrite Z.add_0_r, Z.pow_0_r, Z.mul_1_r in Hlo.
    assert (H54 : 2 ^ 54 <= 2 ^ L) by (apply Z.pow_le_mono_r; lia).
    change (2 ^ 54) with 18014398509481984 in H54.
    assert ((N - 1) * 2 <= (N - 1) * D) by nia.
    lia. }
  destruct (nearest_dyadic s N 100 ltac:(lia) ltac:(lia) ltac:(fold L; lia))
    as (mb & eb & Hdy & Hval).
  fold L in Hval. set (E := Z.max (L - 52) (-1074)) in *.
  set (K := Z.max (Zpos p) (- E)).
  destruct (Hval K ltac:(lia) ltac:(lia)) as [HebK Heq].
  apply (float_within_cent_scaled _ _ (if s then Zneg m else Zpos m)
           (Zneg p) mb eb K); try reflexivity; try assumption; try lia.
  rewrite Heq.
  pose proof (hundredths_near m (Zneg p) K ltac:(lia) ltac:(lia)) as Ha.
  fold N in Ha.
  pose proof (pow2_pos K ltac:(lia)) as HP.
  pose proof (pow2_pos (Zneg p + K) ltac:(lia)) as HA.
  pose proof (pow2_pos (E + K) ltac:(lia)) as HB.
  set (q := scaled N 100 E) in *.
  assert (Hbest : Z.abs (q * 100 * 2 ^ (E + K) - N * 2 ^ K)
                  <= Z.abs (100 * Zpos m * 2 ^ (Zneg p + K) - N * 2 ^ K)).
  { destruct (Z.le_gt_cases E (Zneg p)) as [HEp|HEp].
    - pose proof (scaled_best N 100 E K (Zpos m * 2 ^ (Zneg p - E))
                    ltac:(lia) ltac:(lia) ltac:(lia)) as Hb.
      fold q in Hb.
      replace (2 ^ (Zneg p + K)) with (2 ^ (Zneg p - E) * 2 ^ (E + K))
        by (rewrite <- pow2_add by lia; f_equal; lia).
      replace (100 * Zpos m * (2 ^ (Zneg p - E) * 2 ^ (E + K)))
        with (Zpos m * 2 ^ (Zneg p - E) * 100 * 2 ^ (E + K)) by ring.
      exact Hb.
    - pose proof (scaled_best N 100 E K (2 ^ 52)
                    ltac:(lia) ltac:(lia) ltac:(lia)) as Hb.
      fold q in Hb.
      assert (HEL : E = L - 52) by lia.
      pose proof (ilog2_spec N 100 K ltac:(lia) ltac:(lia) ltac:(lia)
                    ltac:(fold L; lia)) as [Hlo _].
      fold L in Hlo.
      replace (2 ^ (L + K)) with (2 ^ 52 * 2 ^ (E + K)) in Hlo
        by (rewrite <- pow2_add by lia; f_equal; lia).
      assert (HBA : 2 ^ (E + K) = 2 ^ (E + Zpos p) * 2 ^ (Zneg p + K))
        by (rewrite <- pow2_add by lia; f_equal; lia).
      assert (H2 : 2 ^ 1 <= 2 ^ (E + Zpos p)) by (apply Z.pow_le_mono_r; lia).
      change (2 ^ 1) with 2 in H2.
      change (2 ^ 52) with 4503599627370496 in *.
      set (A := 2 ^ (Zneg p + K)) in *. set (B := 2 ^ (E + K)) in *.
      assert (HmA : Zpos m * A <= 4503599627370496 * B).
      { rewrite HBA. set (c := 2 ^ (E + Zpos p)) in *.
        apply Z.le_trans with (9007199254740992 * A).
        - apply Z.mul_le_mono_nonneg_r; lia.
        - replace (4503599627370496 * (c * A))
            with (4503599627370496 * c * A) by ring.
          apply Z.mul_le_mono_nonneg_r; lia. }
      lia. }
  set (A := 2 ^ (Zneg p + K)) in *. set (B := 2 ^ (E + K)) in *.
  destruct s.
  - change (Zneg m) with (- Zpos m). lia.
  - lia.
Qed.

(** ** The subtotal of a payment *)

Lemma within_cent_round2 s : binary64 s = true -> within_cent s (Num.round2 s).
Proof.
  destruct s as [z|x]; cbn [binary64 within_cent Num.round2].
  - intros _. rewrite Z.sub_diag. cbn. lia.
  - intros [Hfin Hv]%andb_prop. now apply round2_within_cent.
Qed.

Lemma payments_loop_each detail_totals orders pid w ps w' p :
  payments_loop detail_totals orders pid w = Ok (ps, w') ->
  p ∈ ps ->
  exists o pid' w1 w2,
    o ∈ orders /\ payment detail_totals o pid' w1 = Ok (p, w2).
Proof.
  revert pid w ps w'. induction orders as [|o orders IH];
    intros pid w ps w' H Hp; cbn [payments_loop] in H.
  - apply ret_inv in H as [<- _]. now apply not_elem_of_nil in Hp.
  - apply bind_inv in H as (p0 & w1 & Hp0 & H).
    apply bind_inv in H as (l & w2 & Hl & H). apply ret_inv in H as [<- <-].
    apply elem_of_cons in Hp as [->|Hp].
    + exists o, pid, w, w1. split; [left|exact Hp0].
    + destruct (IH _ _ _ _ Hl Hp) as (o' & pid' & w3 & w4 & Ho' & H').
      exists o', pid', w3, w4. split; [now right|exact H'].
Qed.

(** X1: in a run of [generate_payments], the payments follow the orders
    one for one, and for every payment the sum of the line totals of its
    order's lines (added up from 0 in the order of the lines, as the loop
    over [order_details] does) is defined and the payment's subtotal is
    that sum rounded to two decimals; when the sum is an int or a finite
    binary64 float, the subtotal is within 0.01 of it. *)
Theorem subtotal_within_cent_of_line_totals orders details w payments w' :
  generate_payments orders details w = Ok (payments, w') ->
  Payment.order_id <$> payments = Order.order_id <$> orders /\
  forall p, p ∈ payments ->
    exists s,
      sum_from (Int 0) (line_totals_of (Payment.order_id p) details) = Ok s /\
      Payment.subtotal p = Num.round2 s /\
      (binary64 s = true -> within_cent s (Payment.subtotal p)).
Proof.
  unfold generate_payments. intros H.
  apply bind_inv in H as (m & w0 & Hm & H). apply lift_inv in Hm as [Hm <-].
  split; [eapply payments_loop_spec, H|]. intros p Hp.
  destruct (payments_loop_each _ _ _ _ _ _ _ H Hp)
    as (o & pid & w1 & w2 & _ & Hpay).
  destruct (payment_spec _ _ _ _ _ _ Hpay)
    as (_ & Hid & gross & Hgross & Hsub & _).
  pose proof (detail_totals_loop_spec _ _ _ (Order.order_id o) Hm) as Hs.
  rewrite lookup_empty in Hs. rewrite Hid.
  destruct (line_totals_of (Order.order_id o) details) as [|x xs];
    [congruence|].
  destruct Hs as (s & Hs & Hlook). exists s. split; [exact Hs|].
  assert (gross = s) as -> by congruence.
  split; [exact Hsub|]. intros Hb. rewrite Hsub.
  now apply within_cent_round2.
Qed.

Lemma subtotal_within_cent_of_line_totals_witness :
  generate_payments threshold_orders threshold_details
    threshold_before_payments
  = Ok (threshold_payments, threshold_after_payments) /\
  Payment.order_id <$> threshold_payments
  = Order.order_id <$> threshold_orders /\
  forall p, p ∈ threshold_payments ->
    exists s,
      sum_from (Int 0) (line_totals_of (Payment.order_id p) threshold_details)
      = Ok s /\
      Payment.subtotal p = Num.round2 s /\
      within_cent s (Payment.subtotal p).
Proof.
  assert (H : generate_payments threshold_orders threshold_details
                threshold_before_payments
              = Ok (threshold_payments, threshold_after_payments))
    by (vm_compute; reflexivity).
  assert (Hb : Forall (fun p =>
                 from_option binary64 false
                   (match sum_from (Int 0)
                            (line_totals_of (Payment.order_id p)
                               threshold_details)
                    with Ok s => Some s | Raise _ => None end) = true)
                 threshold_payments)
    by (apply (bool_decide_unpack _); vm_compute; reflexivity).
  split; [exact H|].
  destruct (subtotal_within_cent_of_line_totals _ _ _ _ _ H) as [Hids Hall].
  split; [exact Hids|]. intros p Hp.
  destruct (Hall p Hp) as (s & Hs & Hsub & Hw).
  exists s. split; [exact Hs|]. split; [exact Hsub|]. apply Hw.
  rewrite Forall_forall in Hb. specialize (Hb p Hp).
  rewrite Hs in Hb. exact Hb.
Defined.

(** ** The sort of the orders is stable *)

Lemma insert_by_datetime_stable o l :
  StronglySorted datetime_then_id l ->
  Forall (fun x => Order.order_id o < Order.order_id x) l ->
  StronglySorted datetime_then_id (insert_by_datetime o l).
Proof.
  induction l as [|x l IH]; intros Hs Hid; cbn [insert_by_datetime].
  - repeat constructor.
  - apply StronglySorted_inv in Hs as [Hs Hx].
    apply Forall_cons in Hid as [Hox Hid].
    destruct (Z.leb_spec (Order.order_datetime o) (Order.order_datetime x))
      as [Hle|Hgt].
    + constructor; [constructor; assumption|].
      constructor; [unfold datetime_then_id; lia|].
      rewrite Forall_forall in Hx, Hid |- *. intros y Hy.
      specialize (Hx y Hy). specialize (Hid y Hy).
      unfold datetime_then_id in *. lia.
    + constructor; [now apply IH|].
      rewrite <- (insert_by_datetime_perm o l).
      constructor; [unfold datetime_then_id; lia|exact Hx].
Qed.

Lemma sort_by_datetime_stable l :
  StronglySorted (fun a b => Order.order_id a < Order.order_id b) l ->
  StronglySorted datetime_then_id (sort_by_datetime l).
Proof.
  induction l as [|o l IH]; intros Hs; cbn [sort_by_datetime foldr].
  - constructor.
  - apply StronglySorted_inv in Hs as [Hs Ho].
    apply insert_by_datetime_stable; [now apply IH|].
    fold (sort_by_datetime l). now rewrite <- (sort_by_datetime_perm l).
Qed.

Lemma seqZ_ascending (f : Order.t -> Z) (l : list Order.t) m :
  f <$> l = seqZ m (Z.of_nat (length l)) ->
  StronglySorted (fun a b => f a < f b) l.
Proof.
  revert m. induction l as [|x l IH]; intros m H; [constructor|].
  cbn [fmap list_fmap length] in H. rewrite seqZ_cons in H by lia.
  injection H as Hx Hl.
  replace (Z.pred (Z.of_nat (S (length l)))) with (Z.of_nat (length l))
    in Hl by lia.
  constructor; [eapply IH, Hl|].
  rewrite Forall_forall. intros y Hy.
  assert (Hin : f y ∈ seqZ (Z.succ m) (Z.of_nat (length l))).
  { rewrite <- Hl. now apply list_elem_of_fmap_2. }
  apply elem_of_seqZ in Hin. lia.
Qed.

(** X2: the list [generate_orders] returns is in ascending order of
    ([order_datetime], [order_id]): orders with the same [order_datetime]
    follow each other in the order in which they were generated, the
    sort being stable. *)
Theorem generate_orders_ties_by_id poisson customers avg w orders w' :
  generate_orders poisson customers avg w = Ok (orders, w') ->
  StronglySorted datetime_then_id orders.
Proof.
  unfold generate_orders. intros H.
  apply bind_inv in H as (generated & w1 & Hg & H).
  apply ret_inv in H as [<- _].
  apply orders_loop_spec in Hg as (Hids & _).
  apply sort_by_datetime_stable. eapply seqZ_ascending, Hids.
Qed.

(** ** Customers and their orders *)

Lemma customer_orders_of c n oid w os w' :
  customer_orders c n oid w = Ok (os, w') ->
  length os = n /\ Forall (order_of c) os.
Proof.
  revert oid w os w'. induction n as [|n IH]; intros oid w os w' H;
    cbn [customer_orders] in H.
  - apply ret_inv in H as [<- _]. now split.
  - apply bind_inv in H as (dt & w1 & _ & H).
    apply bind_inv in H as (rest & w2 & Hrest & H).
    apply ret_inv in H as [<- _].
    destruct (IH _ _ _ _ Hrest) as (Hlen & Hall).
    split; [cbn; now rewrite Hlen|]. constructor; [now split|exact Hall].
Qed.

Lemma orders_loop_of poisson customers avg oid w os w' :
  orders_loop poisson customers avg oid w = Ok (os, w') ->
  (forall c, c ∈ customers -> exists o, o ∈ os /\ order_of c o) /\
  (forall o, o ∈ os -> exists c, c ∈ customers /\ order_of c o) /\
  (length customers <= length os)%nat.
Proof.
  revert oid w os w'. induction customers as [|c cs IH];
    intros oid w os w' H; cbn [orders_loop] in H.
  - apply ret_inv in H as [<- _]. repeat split.
    + intros c Hc. now apply not_elem_of_nil in Hc.
    + intros o Ho. now apply not_elem_of_nil in Ho.
    + reflexivity.
  - apply bind_inv in H as (n & w1 & Hn & H). apply orders_count_pos in Hn.
    apply bind_inv in H as (mine & w2 & Hmine & H).
    apply bind_inv in H as (rest & w3 & Hrest & H).
    apply ret_inv in H as [<- _].
    apply customer_orders_of in Hmine as (Hlen & Hof).
    destruct (IH _ _ _ _ Hrest) as (Hc & Ho & Hl).
    rewrite Forall_forall in Hof. repeat split.
    + intros c' [->|Hc']%elem_of_cons.
      * destruct mine as [|o mine]; [cbn in Hlen; lia|].
        exists o. split; [left|apply Hof; left].
      * destruct (Hc c' Hc') as (o & Hin & Hoc). exists o.
        split; [apply elem_of_app; now right|exact Hoc].
    + intros o [Hin|Hin]%elem_of_app.
      * exists c. split; [left|now apply Hof].
      * destruct (Ho o Hin) as (c' & Hc' & Hoc). exists c'.
        split; [now right|exact Hoc].
    + rewrite length_app. cbn [length]. lia.
Qed.

(** X3: in the list [generate_orders] returns, every customer has at least
    one order, every order carries the [customer_id] and, as
    [shipping_state], the [state] of one of the customers, and there are
    at least as many orders as customers (none for no customers). *)
Theorem generate_orders_every_customer poisson customers avg w orders w' :
  generate_orders poisson customers avg w = Ok (orders, w') ->
  (forall c, c ∈ customers -> exists o, o ∈ orders /\ order_of c o) /\
  (forall o, o ∈ orders -> exists c, c ∈ customers /\ order_of c o) /\
  (length customers <= length orders)%nat.
Proof.
  unfold generate_orders. intros H.
  apply bind_inv in H as (generated & w1 & Hg & H).
  apply ret_inv in H as [<- _].
  apply orders_loop_of in Hg as (Hc & Ho & Hl).
  pose proof (sort_by_datetime_perm generated) as Hp.
  repeat split.
  - intros c Hin. destruct (Hc c Hin) as (o & Hoin & Hoc). exists o.
    split; [now rewrite <- Hp|exact Hoc].
  - intros o Hin. apply Ho. now rewrite Hp.
  - now rewrite <- (Permutation_length Hp).
Qed.

(** ** The date and the time of day of an order *)

(** X4: the datetime [random_order_date] returns falls on a whole minute
    between 08:00 and 21:59 of a day from one day after the signup date up
    to [max(1, days_since_signup)] days after it; for a customer who
    signed up on the day of the run or later, that is the day after the
    signup date, a day after the run. *)
Theorem random_order_date_day_and_minute signup_date w dt w' :
  random_order_date signup_date w = Ok (dt, w') ->
  let today := Datetime.date (clock_now w) in
  (exists delta h m,
     1 <= delta <= Z.max 1 (today - signup_date) /\
     8 <= h <= 21 /\ 0 <= m <= 59 /\
     dt = (signup_date + delta) * Datetime.day_us + (h * 60 + m) * 60000000) /\
  (today <= signup_date ->
   Datetime.date dt = signup_date + 1 /\ today < Datetime.date dt).
Proof.
  intros H today. unfold random_order_date in H.
  apply bind_inv in H as (now & w1 & H1 & H). apply tick_spec in H1 as [-> H1].
  change (Datetime.date (clock_now w)) with today in H.
  set (days := if today - signup_date <=? 0 then 1
               else today - signup_date) in *.
  apply bind_inv in H as (mu & w2 & H2 & H).
  apply bind_inv in H as (sigma & w3 & H3 & H).
  apply bind_inv in H as (g & w4 & H4 & H).
  apply bind_inv in H as (raw & w5 & H5 & H).
  set (delta := Z.max 1 (Z.min days raw)) in *.
  apply bind_inv in H as (order_date & w6 & H6 & H).
  apply lift_inv in H6 as [H6 _].
  apply rbind_inv in H6 as (td & Htd & H6).
  apply timedelta_spec in Htd. apply date_plus_spec in H6.
  apply bind_inv in H as (h & w7 & H7 & H). apply randint_spec in H7.
  apply bind_inv in H as (m & w8 & H8 & H). apply randint_spec in H8.
  apply lift_inv in H as [H _].
  apply rbind_inv in H as (td2 & Htd2 & H).
  apply timedelta_spec in Htd2. apply plus_spec in H.
  assert (Hod : order_date = signup_date + delta).
  { subst order_date td.
    replace (delta * Datetime.day_us + (0 * 60 + 0) * 60000000)
      with (delta * Datetime.day_us) by lia.
    now rewrite Z.div_mul. }
  assert (Hdelta : 1 <= delta <= Z.max 1 (today - signup_date)).
  { unfold delta, days. destruct (Z.leb_spec (today - signup_date) 0); lia. }
  assert (Hdt : dt = (signup_date + delta) * Datetime.day_us
                     + (h * 60 + m) * 60000000).
  { subst dt td2 order_date. unfold Datetime.combine_min. lia. }
  split; [now exists delta, h, m|]. intros Hle.
  assert (Hd : Datetime.date dt = signup_date + delta).
  { rewrite Hdt. apply (date_of_combine (signup_date + delta)).
    unfold Datetime.day_us. lia. }
  rewrite Hd. lia.
Qed.

Lemma random_order_date_day_and_minute_witness :
  random_order_date (Datetime.date nine_o_clock) morning = Ok same_day_order /\
  Datetime.date (clock_now morning) <= Datetime.date nine_o_clock /\
  Datetime.date (fst same_day_order) = Datetime.date nine_o_clock + 1 /\
  Datetime.date (clock_now morning) < Datetime.date (fst same_day_order).
Proof.
  assert (H : random_order_date (Datetime.date nine_o_clock) morning
              = Ok same_day_order) by (vm_compute; reflexivity).
  assert (Hle : Datetime.date (clock_now morning)
                <= Datetime.date nine_o_clock) by (vm_compute; discriminate).
  split; [exact H|]. split; [exact Hle|].
  exact (proj2 (random_order_date_day_and_minute _ _ _ _ H) Hle).
Defined.

Lemma generate_orders_ties_by_id_witness :
  generate_orders no_poisson demo_customers (Float (F64.lit 25 10))
    after_products = Ok (demo_orders, after_orders) /\
  StronglySorted datetime_then_id demo_orders.
Proof.
  assert (H : generate_orders no_poisson demo_customers
                (Float (F64.lit 25 10)) after_products
              = Ok (demo_orders, after_orders)) by (vm_compute; reflexivity).
  split; [exact H|]. exact (generate_orders_ties_by_id _ _ _ _ _ _ H).
Defined.

Lemma generate_orders_every_customer_witness :
  generate_orders no_poisson demo_customers (Float (F64.lit 25 10))
    after_products = Ok (demo_orders, after_orders) /\
  (forall c, c ∈ demo_customers ->
     exists o, o ∈ demo_orders /\ order_of c o) /\
  (forall o, o ∈ demo_orders ->
     exists c, c ∈ demo_customers /\ order_of c o) /\
  (length demo_customers <= length demo_orders)%nat.
Proof.
  assert (H : generate_orders no_poisson demo_customers
                (Float (F64.lit 25 10)) after_products
              = Ok (demo_orders, after_orders)) by (vm_compute; reflexivity).
  split; [exact H|]. exact (generate_orders_every_customer _ _ _ _ _ _ H).
Defined.

(** ** Names, e-mail addresses and phone numbers *)

Lemma chars_app s t : chars (s +:+ t) = chars s ++ chars t.
Proof.
  induction s as [|c s IH]; [reflexivity|].
  change (c :: chars (s +:+ t) = c :: (chars s ++ chars t)). now rewrite IH.
Qed.

Lemma chars_map_string f s : chars (map_string f s) = f <$> chars s.
Proof.
  unfold chars. induction s as [|c s IH]; cbn; [reflexivity|now rewrite IH].
Qed.

Lemma length_chars s : length (chars s) = String.length s.
Proof.
  unfold chars. induction s as [|c s IH]; cbn; [reflexivity|now rewrite IH].
Qed.

Lemma choice_spec {A} (seq : list A) w x w' :
  Random.choice seq w = Ok (x, w') -> x ∈ seq.
Proof.
  unfold Random.choice. intros H.
  apply bind_inv in H as (i & w1 & _ & H).
  destruct (seq !! Z.to_nat i) as [y|] eqn:E; [|discriminate].
  apply ret_inv in H as [<- _]. eapply list_elem_of_lookup_2, E.
Qed.

Lemma random_name_spec w name w' :
  random_name w = Ok (name, w') -> full_name name.
Proof.
  unfold random_name. intros H.
  apply bind_inv in H as (f & w1 & Hf & H). apply choice_spec in Hf.
  apply bind_inv in H as (l & w2 & Hl & H). apply choice_spec in Hl.
  apply ret_inv in H as [<- _]. now exists f, l.
Qed.

Lemma random_phone_spec w phone w' :
  random_phone w = Ok (phone, w') -> phone_number phone.
Proof.
  unfold random_phone. intros H.
  apply bind_inv in H as (a & w1 & Ha & H). apply randint_spec in Ha.
  apply bind_inv in H as (b & w2 & Hb & H). apply randint_spec in Hb.
  apply bind_inv in H as (c & w3 & Hc & H). apply randint_spec in Hc.
  apply ret_inv in H as [<- _]. now exists a, b, c.
Qed.

Lemma pretty_length_between lo n len k :
  forallb (fun k => (String.length (pretty k) =? len)%nat) (seqZ lo n) = true ->
  lo <= k < lo + n -> String.length (pretty k) = len.
Proof.
  intros H Hk. rewrite forallb_forall in H.
  apply Nat.eqb_eq, H, list_elem_of_In, elem_of_seqZ, Hk.
Qed.

(** X8: the string [random_phone] returns is [+1-AAA-BBB-CCCC] with [AAA]
    and [BBB] between 200 and 999 and [CCCC] between 1000 and 9999, so it
    is 15 characters long. *)
Theorem random_phone_format w phone w' :
  random_phone w = Ok (phone, w') ->
  phone_number phone /\ String.length phone = 15%nat.
Proof.
  intros H. apply random_phone_spec in H as Hp. split; [exact Hp|].
  destruct Hp as (a & b & c & Ha & Hb & Hc & ->).
  assert (H3 : forall k, 200 <= k <= 999 -> String.length (pretty k) = 3%nat).
  { intros k Hk. apply (pretty_length_between 200 800); [|lia].
    vm_compute. reflexivity. }
  assert (H4 : forall k, 1000 <= k <= 9999 -> String.length (pretty k) = 4%nat).
  { intros k Hk. apply (pretty_length_between 1000 9000); [|lia].
    vm_compute. reflexivity. }
  rewrite <- !length_chars, !chars_app, !length_app, !length_chars.
  rewrite (H3 a Ha), (H3 b Hb), (H4 c Hc). reflexivity.
Qed.

Lemma email_base_char c :
  let c' := space_to_dot (lower_ascii c) in
  c' <> " "%char /\ is_upper c' = false /\
  (c' = "@"%char <-> c = "@"%char).
Proof.
  destruct c as [[] [] [] [] [] [] [] []]; vm_compute;
    (split; [discriminate|split; [reflexivity|split; congruence]]).
Qed.

Lemma digit_chars k :
  1 <= k <= 99 ->
  Forall (fun c => c <> " "%char /\ is_upper c = false /\ c <> "@"%char)
    (chars (pretty k)).
Proof.
  intros Hk.
  assert (H : forallb (fun k =>
                forallb (fun c => negb (Ascii.eqb c " "%char) && negb (is_upper c)
                                  && negb (Ascii.eqb c "@"%char))
                  (chars (pretty k))) (seqZ 1 99) = true)
    by (vm_compute; reflexivity).
  rewrite forallb_forall in H.
  specialize (H k). rewrite <- list_elem_of_In, elem_of_seqZ in H.
  specialize (H ltac:(lia)). rewrite forallb_forall in H.
  rewrite Forall_forall. intros c Hc. apply list_elem_of_In, H in Hc.
  apply andb_prop in Hc as [[H1 H2]%andb_prop H3].
  apply negb_true_iff in H1, H2, H3.
  apply Ascii.eqb_neq in H1. apply Ascii.eqb_neq in H3. now repeat split.
Qed.

Lemma count_occ_none (l : list ascii) x :
  Forall (fun c => c <> x) l -> count_occ ascii_dec l x = 0%nat.
Proof. intros H. apply count_occ_not_In. rewrite Forall_forall in H.
  intros Hin. apply (H x); [now apply list_elem_of_In|reflexivity]. Qed.

(** X7: for a name of ASCII characters, the address [random_email] returns
    has no space and no capital letter, and one [@] more than the name
    has: exactly one for a name without [@]. *)
Theorem random_email_characters name w email w' :
  Forall (fun c => is_ascii c = true) (chars name) ->
  random_email name w = Ok (email, w') ->
  Forall (fun c => c <> " "%char /\ is_upper c = false) (chars email) /\
  count_occ ascii_dec (chars email) "@"%char
  = S (count_occ ascii_dec (chars name) "@"%char).
Proof.
  intros _ H. unfold random_email in H.
  apply bind_inv in H as (domain & w1 & Hd & H). apply choice_spec in Hd.
  apply bind_inv in H as (r & w2 & _ & H).
  apply bind_inv in H as (suffix & w3 & Hs & H).
  apply ret_inv in H as [<- _].
  assert (Hsuffix : Forall (fun c => c <> " "%char /\ is_upper c = false
                                     /\ c <> "@"%char) (chars suffix)).
  { destruct (F64.ltb r (lit 7 10)).
    - apply ret_inv in Hs as [<- _]. constructor.
    - apply fmap_inv in Hs as (k & Hk & ->). apply randint_spec in Hk.
      now apply digit_chars. }
  assert (Hdomain : Forall (fun c => c <> " "%char /\ is_upper c = false
                                     /\ c <> "@"%char) (chars domain)).
  { repeat (apply elem_of_cons in Hd as [->|Hd];
            [apply Forall_forall; intros c Hc; apply list_elem_of_In in Hc;
             cbn in Hc; intuition (subst; (discriminate || reflexivity))|]).
    now apply not_elem_of_nil in Hd. }
  rewrite !chars_app, !chars_map_string, <- list_fmap_compose. split.
  - repeat (apply Forall_app; split).
    + apply Forall_fmap, Forall_forall. intros c _.
      destruct (email_base_char c) as (H1 & H2 & _). now split.
    + eapply Forall_impl; [exact Hsuffix|]. intros c Hc. cbn in Hc. tauto.
    + repeat constructor. discriminate.
    + eapply Forall_impl; [exact Hdomain|]. intros c Hc. cbn in Hc. tauto.
  - rewrite !count_occ_app.
    rewrite (count_occ_none (chars suffix)), (count_occ_none (chars domain)).
    2, 3: eapply Forall_impl; [eassumption|]; intros c Hc; cbn in Hc; tauto.
    assert (Hb : forall l : list ascii,
               count_occ ascii_dec ((space_to_dot ∘ lower_ascii) <$> l) "@"%char
               = count_occ ascii_dec l "@"%char).
    { induction l as [|c l IH]; [reflexivity|]. cbn [fmap list_fmap].
      destruct (email_base_char c) as (_ & _ & Hat). cbn in Hat.
      destruct (ascii_dec c "@"%char) as [E|E].
      - rewrite (count_occ_cons_eq ascii_dec l E).
        rewrite (count_occ_cons_eq ascii_dec _ (proj2 Hat E)). now rewrite IH.
      - rewrite (count_occ_cons_neq ascii_dec l E).
        rewrite (count_occ_cons_neq ascii_dec _ (fun H => E (proj1 Hat H))).
        exact IH. }
    rewrite Hb. cbn. lia.
Qed.

Lemma random_phone_format_witness :
  random_phone morning = Ok morning_phone /\
  phone_number (fst morning_phone) /\
  String.length (fst morning_phone) = 15%nat.
Proof.
  assert (H : random_phone morning = Ok morning_phone)
    by (vm_compute; reflexivity).
  split; [exact H|]. exact (random_phone_format _ _ _ H).
Defined.

Lemma random_email_characters_witness :
  Forall (fun c => is_ascii c = true) (chars "Emma Smith") /\
  random_email "Emma Smith" morning = Ok morning_email /\
  Forall (fun c => c <> " "%char /\ is_upper c = false)
    (chars (fst morning_email)) /\
  count_occ ascii_dec (chars (fst morning_email)) "@"%char
  = S (count_occ ascii_dec (chars "Emma Smith") "@"%char).
Proof.
  assert (H1 : Forall (fun c => is_ascii c = true) (chars "Emma Smith"))
    by (repeat constructor).
  assert (H2 : random_email "Emma Smith" morning = Ok morning_email)
    by (vm_compute; reflexivity).
  split; [exact H1|]. split; [exact H2|].
  exact (random_email_characters _ _ _ _ H1 H2).
Defined.

(** ** The customers *)

Lemma generate_customer_record cid w c w' :
  generate_customer cid w = Ok (c, w') ->
  Customer.customer_id c = cid /\
  clock_now w <= clock_now w' /\
  customer_ok (Datetime.date (clock_now w)) (Datetime.date (clock_now w')) c.
Proof.
  unfold generate_customer. intros H.
  apply bind_inv in H as (name & w1 & H1 & H).
  pose proof (clock_mono_random_name _ _ _ H1) as M1.
  apply random_name_spec in H1.
  apply bind_inv in H as (email & w2 & H2 & H).
  apply clock_mono_random_email in H2.
  apply bind_inv in H as (phone & w3 & H3 & H).
  pose proof (clock_mono_random_phone _ _ _ H3) as M3.
  apply random_phone_spec in H3.
  apply bind_inv in H as (state & w4 & H4 & H).
  pose proof (clock_mono_choice _ _ _ _ H4) as M4. apply choice_spec in H4.
  apply bind_inv in H as (now & w5 & H5 & H). apply tick_spec in H5 as [-> H5].
  apply bind_inv in H as (days & w6 & H6 & H).
  pose proof (clock_mono_randint _ _ _ _ _ H6) as M6.
  apply randint_spec in H6.
  apply bind_inv in H as (signup & w7 & H7 & H). apply lift_inv in H7 as [H7 <-].
  apply ret_inv in H as [<- <-].
  apply rbind_inv in H7 as (td & Htd & H7). apply timedelta_spec in Htd.
  apply rfmap_inv in H7 as (dt & Hdt & ->). apply plus_spec in Hdt.
  assert (Hs : Datetime.date dt = Datetime.date (clock_now w4) - days).
  { subst dt td.
    replace (days * Datetime.day_us + (0 * 60 + 0) * 60000000)
      with (days * Datetime.day_us) by lia.
    apply date_minus_days. }
  assert (Hm : clock_now w <= clock_now w4 <= clock_now w6) by lia.
  pose proof (date_mono _ _ (proj1 Hm)). pose proof (date_mono _ _ (proj2 Hm)).
  cbn. split; [reflexivity|]. split; [lia|].
  repeat split; try assumption; cbn; lia.
Qed.

Lemma customer_ok_weaken first first' last last' c :
  first' <= first -> last <= last' ->
  customer_ok first last c -> customer_ok first' last' c.
Proof. unfold customer_ok. intros ? ? (? & ? & ? & ?). repeat split; auto; lia. Qed.

Lemma generate_customers_records ids w cs w' :
  mapM generate_customer ids w = Ok (cs, w') ->
  Customer.customer_id <$> cs = ids /\
  clock_now w <= clock_now w' /\
  Forall (customer_ok (Datetime.date (clock_now w))
                      (Datetime.date (clock_now w'))) cs.
Proof.
  revert w cs w'. induction ids as [|cid ids IH]; intros w cs w' H;
    cbn [mapM] in H.
  - apply ret_inv in H as [<- <-]. split; [reflexivity|].
    split; [lia|constructor].
  - apply bind_inv in H as (c & w1 & Hc & H).
    apply bind_inv in H as (l & w2 & Hl & H). apply ret_inv in H as [<- <-].
    apply generate_customer_record in Hc as (Hid & Hm & Hok).
    destruct (IH _ _ _ Hl) as (Hids & Hm' & Hoks).
    pose proof (date_mono _ _ Hm). pose proof (date_mono _ _ Hm').
    cbn [fmap list_fmap]. split; [now rewrite Hid, Hids|]. split; [lia|].
    constructor.
    + eapply customer_ok_weaken; [| |exact Hok]; lia.
    + eapply Forall_impl; [exact Hoks|]. intros c'.
      apply customer_ok_weaken; lia.
Qed.

(** X5: [generate_customers(count)] returns [count] customers (none when
    [count] is not positive) numbered 1 to [count] in order; each has a
    first and a last name from the two lists, a phone number
    [+1-AAA-BBB-CCCC], a state of [STATES], and a signup date from 900
    days before the day the clock shows when the run starts to 30 days
    before the day it shows when the run ends. *)
Theorem generate_customers_numbered count w customers w' :
  generate_customers count w = Ok (customers, w') ->
  length customers = Z.to_nat count /\
  Customer.customer_id <$> customers = seqZ 1 count /\
  Forall (customer_ok (Datetime.date (clock_now w))
                      (Datetime.date (clock_now w'))) customers.
Proof.
  unfold generate_customers. intros H.
  apply generate_customers_records in H as (Hids & _ & Hok).
  split; [|split; [exact Hids|exact Hok]].
  rewrite <- (length_fmap Customer.customer_id), Hids. apply length_seqZ.
Qed.

Lemma generate_customers_numbered_witness :
  generate_customers 3 morning = Ok (demo_customers, after_customers) /\
  length demo_customers = Z.to_nat 3 /\
  Customer.customer_id <$> demo_customers = seqZ 1 3 /\
  Forall (customer_ok (Datetime.date (clock_now morning))
                      (Datetime.date (clock_now after_customers)))
    demo_customers.
Proof.
  assert (H : generate_customers 3 morning
              = Ok (demo_customers, after_customers))
    by (vm_compute; reflexivity).
  split; [exact H|]. exact (generate_customers_numbered _ _ _ _ H).
Defined.

(** ** Runs that return *)

Lemma returns_ret {A} P (Q : A -> Prop) a : Q a -> returns P Q (mret a).
Proof. intros Ha w Hw. now exists a, w. Qed.

Lemma returns_bind {A B} P (Q : A -> Prop) (R : B -> Prop)
    (m : M A) (f : A -> M B) :
  returns P Q m -> (forall a, Q a -> returns P R (f a)) ->
  returns P R (m ≫= f).
Proof.
  intros Hm Hf w Hw. destruct (Hm w Hw) as (a & w1 & E & Hw1 & Ha).
  destruct (Hf a Ha w1 Hw1) as (b & w2 & E2 & Hw2 & Hb).
  exists b, w2. split; [|now split]. now rewrite (bind_ok _ _ _ _ _ E).
Qed.

Lemma returns_weaken {A} P (Q Q' : A -> Prop) m :
  returns P Q m -> (forall a, Q a -> Q' a) -> returns P Q' m.
Proof.
  intros Hm HQ w Hw. destruct (Hm w Hw) as (a & w1 & E & Hw1 & Ha).
  exists a, w1. auto.
Qed.

Lemma returns_lift {A} P (Q : A -> Prop) (r : result A) a :
  r = Ok a -> Q a -> returns P Q (lift r).
Proof. intros -> Ha w Hw. now exists a, w. Qed.

Lemma returns_next_bits lo hi :
  returns (clock_within lo hi) (fun _ => True) next_bits.
Proof.
  intros w Hw. unfold next_bits. destruct (rand_bits w) as [|b bs].
  - now exists 0, w.
  - eexists _, _. split; [reflexivity|]. split; [exact Hw|exact I].
Qed.

Lemma returns_now lo hi :
  returns (clock_within lo hi) (fun now => lo <= Datetime.date now <= hi)
    Datetime.now.
Proof.
  intros w Hw. unfold Datetime.now, tick. pose proof (Hw 0%nat) as H0.
  rewrite reading_0 in H0. destruct (clock_ticks w) as [|t ts] eqn:E.
  - now exists (clock_now w), w.
  - eexists _, _. split; [reflexivity|]. split; [|exact H0].
    intros i. specialize (Hw (S i)). rewrite E in Hw. exact Hw.
Qed.

Lemma returns_randbelow lo hi n :
  0 < n ->
  returns (clock_within lo hi) (fun k => 0 <= k < n) (Random.randbelow n).
Proof.
  intros Hn. unfold Random.randbelow.
  eapply returns_bind; [apply returns_next_bits|]. intros b _.
  apply returns_ret. now apply Z.mod_pos_bound.
Qed.

Lemma returns_random lo hi :
  returns (clock_within lo hi) (fun _ => True) Random.random.
Proof.
  unfold Random.random.
  eapply returns_bind; [apply returns_next_bits|]. intros b _.
  now apply returns_ret.
Qed.

Lemma returns_randint lo hi a b :
  a <= b ->
  returns (clock_within lo hi) (fun k => a <= k <= b) (Random.randint a b).
Proof.
  intros Hab. unfold Random.randint.
  destruct (Z.ltb_spec b a); [lia|].
  eapply returns_bind; [apply (returns_randbelow _ _ (b - a + 1)); lia|].
  intros k Hk. apply returns_ret. cbv beta in *. lia.
Qed.

Lemma returns_choice {A} lo hi (seq : list A) :
  seq <> [] ->
  returns (clock_within lo hi) (fun x => x ∈ seq) (Random.choice seq).
Proof.
  intros Hne. unfold Random.choice.
  eapply returns_bind.
  { apply (returns_randbelow _ _ (Z.of_nat (length seq))).
    destruct seq; [congruence|cbn; lia]. }
  intros i Hi. cbv beta in Hi.
  destruct (lookup_lt_is_Some_2 seq (Z.to_nat i) ltac:(lia)) as [x Hx].
  rewrite Hx. apply returns_ret. eapply list_elem_of_lookup_2, Hx.
Qed.

Lemma returns_generate_customer cid :
  returns (clock_within 901 Datetime.max_ordinal) (fun _ => True)
    (generate_customer cid).
Proof.
  unfold generate_customer, random_name, random_email, random_phone.
  eapply returns_bind.
  { eapply returns_bind; [now apply returns_choice|]. intros f _.
    eapply returns_bind; [now apply returns_choice|]. intros l _.
    now apply (returns_ret _ (fun _ => True)). }
  intros name _. eapply returns_bind.
  { eapply returns_bind; [now apply returns_choice|]. intros domain _.
    eapply returns_bind; [apply returns_random|]. intros r _.
    eapply returns_bind with (Q := fun _ => True).
    - destruct (F64.ltb r (lit 7 10)); [now apply returns_ret|].
      intros w Hw.
      destruct (returns_randint _ _ 1 99 ltac:(lia) w Hw)
        as (k & w1 & E & Hw1 & _).
      exists (pretty k), w1. split; [|now split].
      unfold fmap, M_fmap. now rewrite E.
    - intros suffix _. now apply (returns_ret _ (fun _ => True)). }
  intros email _. eapply returns_bind.
  { eapply returns_bind; [apply (returns_randint _ _ 200 999); lia|].
    intros a _.
    eapply returns_bind; [apply (returns_randint _ _ 200 999); lia|].
    intros b _.
    eapply returns_bind; [apply (returns_randint _ _ 1000 9999); lia|].
    intros c _. now apply (returns_ret _ (fun _ => True)). }
  intros phone _.
  eapply returns_bind; [now apply returns_choice|]. intros state _.
  eapply returns_bind; [apply returns_now|]. intros now Hnow.
  eapply returns_bind; [apply (returns_randint _ _ 30 900); lia|].
  intros days Hdays. cbv beta in Hnow, Hdays.
  eapply returns_bind with (Q := fun _ => True).
  - eapply returns_lift; [|exact I].
    unfold Datetime.timedelta.
    replace (((days * 24 + 0) * 60 + 0) * 60000000)
      with (days * Datetime.day_us) by (unfold Datetime.day_us; lia).
    rewrite Z.div_mul by easy.
    destruct (Z.leb_spec (-999999999) days); [|lia].
    destruct (Z.leb_spec days 999999999); [|lia].
    cbn [andb mbind result_bind]. unfold Datetime.plus.
    rewrite date_minus_days. unfold Datetime.in_range.
    destruct (Z.leb_spec 1 (Datetime.date now - days)); [|lia].
    destruct (Z.leb_spec (Datetime.date now - days) Datetime.max_ordinal);
      [|lia].
    reflexivity.
  - intros signup _. now apply returns_ret.
Qed.

(** X6: as long as the clock shows days from 0003-06-20 (ordinal 901) to
    9999-12-31, [generate_customers] returns: no draw, lookup or date
    computation in it raises. *)
Theorem generate_customers_returns count w :
  clock_within 901 Datetime.max_ordinal w ->
  exists customers w', generate_customers count w = Ok (customers, w').
Proof.
  unfold generate_customers. generalize (seqZ 1 count) as ids.
  intros ids Hw.
  assert (H : returns (clock_within 901 Datetime.max_ordinal) (fun _ => True)
                (mapM generate_customer ids)).
  { clear. induction ids as [|cid ids IH]; cbn [mapM].
    - now apply returns_ret.
    - eapply returns_bind; [apply returns_generate_customer|]. intros c _.
      eapply returns_bind; [exact IH|]. intros cs _. now apply returns_ret. }
  destruct (H w Hw) as (cs & w' & E & _). now exists cs, w'.
Qed.

Lemma generate_customers_returns_witness :
  clock_within 901 Datetime.max_ordinal morning /\
  exists customers w', generate_customers 3 morning = Ok (customers, w').
Proof.
  assert (H : clock_within 901 Datetime.max_ordinal morning).
  { intros i.
    assert (Hi : (i < 9)%nat \/ (9 <= i)%nat) by lia.
    destruct Hi as [Hi|Hi].
    - do 9 (destruct i as [|i]; [vm_compute; split; discriminate|]). lia.
    - do 9 (destruct i as [|i]; [lia|]). vm_compute. split; discriminate. }
  split; [exact H|]. exact (generate_customers_returns 3 morning H).
Defined.

(** ** Stock *)

Lemma generate_product_stock pid category item w p w' :
  generate_product pid category item w = Ok (p, w') ->
  50 <= Product.stock p <= 500.
Proof.
  destruct item as [[name lo] hi]. unfold generate_product. intros H.
  apply bind_inv in H as (mu & w1 & _ & H).
  apply bind_inv in H as (sigma & w2 & _ & H).
  apply bind_inv in H as (x & w3 & _ & H).
  apply bind_inv in H as (stock & w4 & Hs & H). apply randint_spec in Hs.
  apply ret_inv in H as [<- _]. exact Hs.
Qed.

Lemma products_items_stock category items pid w ps w' :
  products_items category items pid w = Ok (ps, w') ->
  Forall (fun p => 50 <= Product.stock p <= 500) ps.
Proof.
  revert pid w ps w'. induction items as [|item items IH];
    intros pid w ps w' H; cbn [products_items] in H.
  - apply ret_inv in H as [<- _]. constructor.
  - apply bind_inv in H as (p & w1 & Hp & H).
    apply bind_inv in H as (l & w2 & Hl & H). apply ret_inv in H as [<- _].
    constructor; [eapply generate_product_stock, Hp|eapply IH, Hl].
Qed.

Lemma products_loop_stock cats pid w ps w' :
  products_loop cats pid w = Ok (ps, w') ->
  Forall (fun p => 50 <= Product.stock p <= 500) ps.
Proof.
  revert pid w ps w'. induction cats as [|[category items] cats IH];
    intros pid w ps w' H; cbn [products_loop] in H.
  - apply ret_inv in H as [<- _]. constructor.
  - apply bind_inv in H as (l & w1 & Hl & H).
    apply bind_inv in H as (r & w2 & Hr & H). apply ret_inv in H as [<- _].
    apply Forall_app. split;
      [eapply products_items_stock, Hl|eapply IH, Hr].
Qed.

(** ** The order lines *)

Lemma order_line_ok orders products order product detail_id w d w' :
  order ∈ orders -> product ∈ products ->
  order_line order product detail_id w = Ok (d, w') ->
  line_ok orders products d.
Proof.
  intros Ho Hp H. unfold order_line in H.
  apply bind_inv in H as (q & w1 & Hq & H). apply gauss_count_pos in Hq.
  apply bind_inv in H as (r & w2 & _ & H).
  apply bind_inv in H as (discount & w3 & Hd & H).
  apply bind_inv in H as (total & w4 & Ht & H).
  apply lift_inv in Ht as [Ht _]. apply ret_inv in H as [<- _].
  unfold line_ok. cbn. split; [now exists order|].
  split; [now exists product|]. split; [exact Hq|]. split; [|exact Ht].
  destruct (F64.ltb r (lit 7 10)).
  - apply ret_inv in Hd as [<- _]. now left.
  - apply fmap_inv in Hd as (x & _ & ->). right. now exists x.
Qed.

Lemma order_lines_ok orders products order chosen detail_id w ds w' :
  order ∈ orders -> Forall (fun p => p ∈ products) chosen ->
  order_lines order chosen detail_id w = Ok (ds, w') ->
  Forall (line_ok orders products) ds.
Proof.
  intros Ho. revert detail_id w ds w'. induction chosen as [|p chosen IH];
    intros detail_id w ds w' Hc H; cbn [order_lines] in H.
  - apply ret_inv in H as [<- _]. constructor.
  - apply Forall_cons in Hc as [Hp Hc].
    apply bind_inv in H as (d & w1 & Hd & H).
    apply bind_inv in H as (l & w2 & Hl & H). apply ret_inv in H as [<- _].
    constructor; [eapply order_line_ok; eassumption|eapply IH; eassumption].
Qed.

Lemma order_block_ok orders products order detail_id w b w' :
  order ∈ orders ->
  order_block products order detail_id w = Ok (b, w') ->
  Forall (line_ok orders products) (snd b).
Proof.
  intros Ho H. unfold order_block in H.
  apply bind_inv in H as (ic & w1 & _ & H).
  apply bind_inv in H as (chosen & w2 & Hs & H).
  apply bind_inv in H as (l & w3 & Hl & H). apply ret_inv in H as [<- _].
  cbn [snd]. eapply order_lines_ok; [exact Ho| |exact Hl].
  destruct (sample_spec _ _ _ _ _ Hs) as (_ & _ & rest & Hperm).
  rewrite Forall_forall. intros p Hp. rewrite Hperm.
  apply elem_of_app. now left.
Qed.

Lemma details_loop_ok all products orders detail_id w blocks w' :
  Forall (fun o => o ∈ all) orders ->
  details_loop products orders detail_id w = Ok (blocks, w') ->
  Forall (line_ok all products) (concat (snd <$> blocks)).
Proof.
  revert detail_id w blocks w'. induction orders as [|o orders IH];
    intros detail_id w blocks w' Hall H; cbn [details_loop] in H.
  - apply ret_inv in H as [<- _]. constructor.
  - apply Forall_cons in Hall as [Ho Hall].
    apply bind_inv in H as (b & w1 & Hb & H).
    apply bind_inv in H as (bs & w2 & Hbs & H). apply ret_inv in H as [<- _].
    cbn [fmap list_fmap concat]. apply Forall_app. split.
    + eapply order_block_ok; eassumption.
    + eapply IH; eassumption.
Qed.

(** X10: the lines [generate_order_details] returns are numbered 1, 2, 3,
    ... in order, and each of them carries the id of one of the orders,
    the id and the unit price of one of the products, a quantity of at
    least 1, a discount that is the int 0 or a rounded float, and the line
    total [round(unit_price * quantity * (1 - discount), 2)]. *)
Theorem generate_order_details_lines orders products w details w' :
  generate_order_details orders products w = Ok (details, w') ->
  OrderDetail.order_detail_id <$> details
  = seqZ 1 (Z.of_nat (length details)) /\
  Forall (line_ok orders products) details.
Proof.
  unfold generate_order_details. intros H.
  apply bind_inv in H as (blocks & w1 & Hb & H). apply ret_inv in H as [<- _].
  split; [eapply details_loop_spec, Hb|].
  eapply details_loop_ok; [|exact Hb]. now apply Forall_forall.
Qed.

Lemma generate_order_details_lines_witness :
  generate_order_details demo_orders demo_products after_orders
  = Ok (demo_details, after_details) /\
  OrderDetail.order_detail_id <$> demo_details
  = seqZ 1 (Z.of_nat (length demo_details)) /\
  Forall (line_ok demo_orders demo_products) demo_details.
Proof.
  assert (H : generate_order_details demo_orders demo_products after_orders
              = Ok (demo_details, after_details))
    by (vm_compute; reflexivity).
  split; [exact H|]. exact (generate_order_details_lines _ _ _ _ _ H).
Defined.

(** ** Orders without lines *)

Lemma payments_loop_lookup detail_totals orders pid w ps w' o :
  payments_loop detail_totals orders pid w = Ok (ps, w') ->
  o ∈ orders -> is_Some (detail_totals !! Order.order_id o).
Proof.
  revert pid w ps w'. induction orders as [|o' orders IH];
    intros pid w ps w' H Ho; cbn [payments_loop] in H.
  - now apply not_elem_of_nil in Ho.
  - apply bind_inv in H as (p & w1 & Hp & H).
    apply bind_inv in H as (l & w2 & Hl & H).
    apply elem_of_cons in Ho as [->|Ho]; [|eapply IH; eassumption].
    destruct (payment_spec _ _ _ _ _ _ Hp) as (_ & _ & gross & Hg & _).
    now exists gross.
Qed.

(** X12: when some order has no line in [order_details],
    [generate_payments] does not return: the lookup of that order's
    subtotal fails, unless the run has raised before. *)
Theorem generate_payments_needs_lines orders details o w :
  o ∈ orders -> lines_of o details = [] ->
  exists e, generate_payments orders details w = Raise e.
Proof.
  intros Ho Hnone.
  destruct (generate_payments orders details w) as [[ps w']|e] eqn:H;
    [exfalso|now exists e].
  unfold generate_payments in H.
  apply bind_inv in H as (m & w0 & Hm & H). apply lift_inv in Hm as [Hm <-].
  destruct (payments_loop_lookup _ _ _ _ _ _ o H Ho) as [gross Hg].
  pose proof (detail_totals_loop_spec _ _ _ (Order.order_id o) Hm) as Hs.
  unfold line_totals_of in Hs. unfold lines_of in Hnone.
  rewrite Hnone in Hs. cbn in Hs. rewrite lookup_empty in Hs. congruence.
Qed.

(** ** An empty product list *)

Lemma order_block_empty order detail_id w :
  order_block [] order detail_id w
  = match gauss_count w with
    | Ok (item_count, w') => Ok ((item_count, []), w')
    | Raise e => Raise e
    end.
Proof.
  unfold order_block. unfold mbind at 1, M_bind at 1.
  destruct (gauss_count w) as [[ic w']|e] eqn:E; [|reflexivity].
  apply gauss_count_pos in E. cbn [length].
  replace (Z.min ic (Z.of_nat 0)) with 0 by lia. reflexivity.
Qed.

Lemma details_loop_empty orders detail_id w :
  details_loop [] orders detail_id w
  = match mapM (fun _ => gauss_count) orders w with
    | Ok (counts, w') => Ok ((fun n => (n, [])) <$> counts, w')
    | Raise e => Raise e
    end.
Proof.
  revert detail_id w. induction orders as [|o orders IH]; intros detail_id w;
    cbn [details_loop mapM]; [reflexivity|].
  unfold mbind at 1 3, M_bind at 1 3. rewrite order_block_empty.
  destruct (gauss_count w) as [[ic w1]|e]; [|reflexivity].
  unfold mbind at 1 2, M_bind at 1 2. cbn [snd length]. rewrite IH.
  destruct (mapM (fun _ => gauss_count) orders w1) as [[counts w2]|e];
    reflexivity.
Qed.

(** X11: with an empty product list, a run of [generate_order_details] is
    the run of its [item_count] draws, one per order: it returns no line
    when they return and raises what they raise, [random.sample] on the
    empty list raising nothing.  On orders without any line
    [generate_payments] raises [KeyError] as soon as there is an order. *)
Theorem empty_catalog_no_lines_no_payments orders w :
  generate_order_details orders [] w
  = match mapM (fun _ => gauss_count) orders w with
    | Ok (_, w') => Ok ([], w')
    | Raise e => Raise e
    end /\
  forall o orders' w2, generate_payments (o :: orders') [] w2 = Raise KeyError.
Proof.
  split; [|reflexivity].
  unfold generate_order_details. unfold mbind, M_bind.
  rewrite details_loop_empty.
  destruct (mapM (fun _ => gauss_count) orders w) as [[counts w']|e];
    [|reflexivity].
  cbn. f_equal. f_equal. clear. induction counts as [|n counts IH];
    [reflexivity|exact IH].
Qed.

(** ** When and how an order is paid *)

Lemma choices1_spec {A} (population : list A) ws w x w' :
  Random.choices1 population ws w = Ok (x, w') -> x ∈ population.
Proof.
  unfold Random.choices1.
  destruct (negb _); [discriminate|].
  destruct (last _) as [t|]; [|discriminate]. intros H.
  apply bind_inv in H as (total & w1 & _ & H).
  destruct (negb _); [discriminate|].
  apply bind_inv in H as (r & w2 & _ & H).
  destruct (population !! _) as [y|] eqn:E; [|discriminate].
  apply ret_inv in H as [<- _]. eapply list_elem_of_lookup_2, E.
Qed.

Lemma payment_paid detail_totals order pid w p w' :
  payment detail_totals order pid w = Ok (p, w') -> payment_of order p.
Proof.
  unfold payment.
  destruct (detail_totals !! Order.order_id order) as [gross|]; [|discriminate].
  intros H.
  apply bind_inv in H as (rate & w1 & _ & H).
  apply bind_inv in H as (tax & w2 & _ & H).
  apply bind_inv in H as (shipping & w3 & _ & H).
  apply bind_inv in H as (total & w4 & _ & H).
  apply bind_inv in H as (method & w5 & Hm & H). apply choices1_spec in Hm.
  apply bind_inv in H as (minutes & w6 & Hmin & H).
  apply randint_spec in Hmin.
  apply bind_inv in H as (paid & w7 & Hpaid & H).
  apply lift_inv in Hpaid as [Hpaid _]. apply ret_inv in H as [<- _].
  apply rbind_inv in Hpaid as (td & Htd & Hpaid).
  apply timedelta_spec in Htd. apply plus_spec in Hpaid.
  unfold payment_of. cbn. split; [reflexivity|].
  split; [|split; [exact Hm|reflexivity]].
  exists minutes. split; [exact Hmin|]. subst paid td. lia.
Qed.

Lemma payments_loop_paid detail_totals orders pid w ps w' :
  payments_loop detail_totals orders pid w = Ok (ps, w') ->
  Forall2 payment_of orders ps.
Proof.
  revert pid w ps w'. induction orders as [|o orders IH];
    intros pid w ps w' H; cbn [payments_loop] in H.
  - apply ret_inv in H as [<- _]. constructor.
  - apply bind_inv in H as (p & w1 & Hp & H).
    apply bind_inv in H as (l & w2 & Hl & H). apply ret_inv in H as [<- _].
    constructor; [eapply payment_paid, Hp|eapply IH, Hl].
Qed.

(** X13: [generate_payments] returns one payment per order, in the order
    of the orders; each carries its order's id, a [payment_datetime] 5 to
    90 whole minutes after the [order_datetime], one of the five payment
    methods, and the currency USD. *)
Theorem generate_payments_paid_after orders details w payments w' :
  generate_payments orders details w = Ok (payments, w') ->
  Forall2 payment_of orders payments.
Proof.
  unfold generate_payments. intros H.
  apply bind_inv in H as (m & w0 & _ & H). eapply payments_loop_paid, H.
Qed.

Lemma generate_payments_paid_after_witness :
  generate_payments demo_orders demo_details after_details
  = Ok (demo_payments, after_payments) /\
  Forall2 payment_of demo_orders demo_payments.
Proof.
  assert (H : generate_payments demo_orders demo_details after_details
              = Ok (demo_payments, after_payments))
    by (vm_compute; reflexivity).
  split; [exact H|]. exact (generate_payments_paid_after _ _ _ _ _ H).
Defined.

(** X9: every product [generate_products] returns has a stock from 50 to
    500. *)
Theorem generate_products_stock w products w' :
  generate_products w = Ok (products, w') ->
  Forall (fun p => 50 <= Product.stock p <= 500) products.
Proof. apply products_loop_stock. Qed.

Lemma generate_products_stock_witness :
  generate_products after_customers = Ok (demo_products, after_products) /\
  Forall (fun p => 50 <= Product.stock p <= 500) demo_products.
Proof.
  assert (H : generate_products after_customers
              = Ok (demo_products, after_products))
    by (vm_compute; reflexivity).
  split; [exact H|]. exact (generate_products_stock _ _ _ H).
Defined.

Lemma generate_payments_needs_lines_witness :
  threshold_order ∈ threshold_orders /\
  lines_of threshold_order [] = [] /\
  exists e, generate_payments threshold_orders [] morning = Raise e.
Proof.
  assert (H1 : threshold_order ∈ threshold_orders) by left.
  assert (H2 : lines_of threshold_order [] = []) by reflexivity.
  split; [exact H1|]. split; [exact H2|].
  exact (generate_payments_needs_lines _ _ _ morning H1 H2).
Defined.

(** ** The writer's field names *)

Lemma csv_row_outcome repr_float fieldnames r :
  match csv_row repr_float fieldnames r with
  | Ok _ => Forall (fun k => k ∈ fieldnames) (row_keys r)
  | Raise e => e = ValueError /\ Exists (fun k => k ∉ fieldnames) (row_keys r)
  end.
Proof.
  unfold csv_row.
  destruct (forallb _ r) eqn:E.
  - rewrite forallb_forall in E. unfold row_keys.
    apply Forall_fmap, Forall_forall. intros kv Hkv.
    apply list_elem_of_In, E, existsb_exists in Hkv as (k & Hk & Heq).
    apply String.eqb_eq in Heq. cbn. rewrite Heq. now apply list_elem_of_In.
  - split; [reflexivity|]. unfold row_keys.
    apply Exists_fmap, Exists_exists.
    apply (f_equal negb) in E. cbn in E.
    assert (Hex : existsb (fun kv => negb (existsb (String.eqb (fst kv))
                                             fieldnames)) r = true).
    { clear -E. induction r as [|kv r IH]; [discriminate|]. cbn in *.
      rewrite negb_andb in E. apply orb_true_iff in E as [E|E].
      - now rewrite E.
      - rewrite (IH E). apply orb_true_r. }
    apply existsb_exists in Hex as (kv & Hkv & Hno).
    exists kv. split; [now apply list_elem_of_In|].
    apply negb_true_iff in Hno. intros Hin. cbn in Hin.
    apply list_elem_of_In in Hin.
    assert (existsb (String.eqb (fst kv)) fieldnames = true); [|congruence].
    apply existsb_exists. exists (fst kv). split; [exact Hin|].
    apply String.eqb_refl.
Qed.

Lemma csv_rows_outcome repr_float fieldnames rows :
  match csv_rows repr_float fieldnames rows with
  | Ok _ => Forall (fun r => Forall (fun k => k ∈ fieldnames) (row_keys r)) rows
  | Raise e =>
      e = ValueError /\
      Exists (fun r => Exists (fun k => k ∉ fieldnames) (row_keys r)) rows
  end.
Proof.
  induction rows as [|r rows IH]; cbn [csv_rows]; [constructor|].
  pose proof (csv_row_outcome repr_float fieldnames r) as Hr.
  destruct (csv_row repr_float fieldnames r) as [l|e]; cbn.
  - destruct (csv_rows repr_float fieldnames rows) as [ls|e]; cbn.
    + now constructor.
    + destruct IH as [-> IH]. split; [reflexivity|now right].
  - destruct Hr as [-> Hr]. split; [reflexivity|now left].
Qed.

Lemma write_csv_rows_ok repr_float fieldnames rows :
  Forall (fun r => Forall (fun k => k ∈ fieldnames) (row_keys r)) rows ->
  exists text, write_csv repr_float rows fieldnames = Ok text.
Proof.
  intros Hall. pose proof (csv_rows_outcome repr_float fieldnames rows) as H.
  unfold write_csv.
  destruct (csv_rows repr_float fieldnames rows) as [body|e];
    [now eexists|exfalso].
  destruct H as [_ H]. apply Exists_exists in H as (r & Hr & Hex).
  rewrite Forall_forall in Hall. specialize (Hall r Hr).
  apply Exists_exists in Hex as (k & Hk & Hno).
  rewrite Forall_forall in Hall. exact (Hno (Hall k Hk)).
Qed.

Lemma write_csv_returns {A} repr_float (f : A -> row) fieldnames (l : list A) :
  (forall a, Forall (fun k => k ∈ fieldnames) (row_keys (f a))) ->
  exists text, write_csv repr_float (f <$> l) fieldnames = Ok text.
Proof.
  intros Hf.
  pose proof (write_csv_rows_ok repr_float fieldnames (f <$> l)) as H.
  apply H. apply Forall_fmap, Forall_forall. intros a _. apply Hf.
Qed.

(** X15: the rows [main] builds carry exactly the field names it passes to
    the writer: whatever the five collections are, writing the five files
    raises nothing. *)
Theorem write_files_returns repr_float data :
  exists files, write_files repr_float data = Ok files.
Proof.
  destruct data as [[[[customers products] orders] details] payments].
  unfold write_files.
  destruct (write_csv_returns repr_float customer_row
              ["customer_id"; "name"; "email"; "phone"; "state";
               "signup_date"]%string customers) as [f1 ->].
  { intros c. repeat constructor; set_solver. }
  destruct (write_csv_returns repr_float product_row
              ["product_id"; "name"; "category"; "unit_price";
               "stock"]%string products) as [f2 ->].
  { intros c. repeat constructor; set_solver. }
  destruct (write_csv_returns repr_float order_row
              ["order_id"; "customer_id"; "order_datetime";
               "shipping_state"]%string orders) as [f3 ->].
  { intros c. repeat constructor; set_solver. }
  destruct (write_csv_returns repr_float order_detail_row
              ["order_detail_id"; "order_id"; "product_id"; "quantity";
               "unit_price"; "discount"; "line_total"]%string details)
    as [f4 ->].
  { intros c. repeat constructor; set_solver. }
  destruct (write_csv_returns repr_float payment_row
              ["payment_id"; "order_id"; "payment_method";
               "payment_datetime"; "subtotal"; "tax"; "shipping"; "total";
               "currency"]%string payments) as [f5 ->].
  { intros c. repeat constructor; set_solver. }
  now eexists.
Qed.

(** ** Keys and sizes of a generated data set *)

Lemma blocks_at_least products orders blocks :
  products <> [] ->
  Forall2 (block_ok products) orders blocks ->
  (length orders <= length (concat (snd <$> blocks)))%nat.
Proof.
  intros Hp. induction 1 as [|o b orders blocks (H1 & H2 & _) _ IH];
    [reflexivity|].
  cbn [fmap list_fmap concat length]. rewrite length_app.
  destruct products; [congruence|]. cbn [length] in H2. lia.
Qed.

Lemma fmap_elem_of_seqZ_NoDup {A} (f : A -> Z) (l : list A) m n :
  f <$> l = seqZ m n -> NoDup (f <$> l).
Proof. intros ->. apply NoDup_seqZ. Qed.

Lemma generate_stages poisson customer_count w
    customers products orders details payments w' :
  generate poisson customer_count w
  = Ok ((customers, products, orders, details, payments), w') ->
  exists w1 w2 w3 w4 generated blocks detail_totals,
    mapM generate_customer (seqZ 1 customer_count) w = Ok (customers, w1) /\
    products_loop PRODUCT_CATEGORIES 1 w1 = Ok (products, w2) /\
    orders_loop poisson customers (Float (F64.lit 25 10)) 1 w2
    = Ok (generated, w3) /\
    orders = sort_by_datetime generated /\
    details_loop products orders 1 w3 = Ok (blocks, w4) /\
    details = concat (snd <$> blocks) /\
    payments_loop detail_totals orders 1 w4 = Ok (payments, w').
Proof.
  unfold generate. intros H.
  apply bind_inv in H as (cs & w1 & Hcs & H).
  apply bind_inv in H as (ps & w2 & Hps & H).
  apply bind_inv in H as (os & w3 & Hos & H).
  apply bind_inv in H as (ds & w4 & Hds & H).
  apply bind_inv in H as (pays & w5 & Hpays & H).
  apply ret_inv in H as [H <-]. injection H as <- <- <- <- <-.
  unfold generate_orders in Hos.
  apply bind_inv in Hos as (generated & w3' & Hgen & Hos).
  apply ret_inv in Hos as [<- ->].
  unfold generate_order_details in Hds.
  apply bind_inv in Hds as (blocks & w4' & Hb & Hds).
  apply ret_inv in Hds as [<- ->].
  unfold generate_payments in Hpays.
  apply bind_inv in Hpays as (m & w5' & Hm & Hpays).
  apply lift_inv in Hm as [_ <-].
  now exists w1, w2, w3, w4, generated, blocks, m.
Qed.

Lemma generate_products_ids w products w' :
  products_loop PRODUCT_CATEGORIES 1 w = Ok (products, w') ->
  Product.product_id <$> products = seqZ 1 20 /\ length products = 20%nat.
Proof.
  intros H.
  destruct (products_loop_total PRODUCT_CATEGORIES 1 w)
    as (ps & w1 & H' & Hid & Hm); [vm_compute; reflexivity|].
  rewrite H in H'. injection H' as <- <-.
  split; [exact Hid|]. apply Forall2_length in Hm. rewrite Hm. reflexivity.
Qed.

(** X16: in a data set [main] generates, the ids of the customers, of the
    products, of the orders, of the order lines and of the payments are
    pairwise distinct within each collection; every order names a customer
    of the set, every order line an order and a product of the set, and
    every payment an order of the set. *)
Theorem generate_keys poisson customer_count w
    customers products orders details payments w' :
  generate poisson customer_count w
  = Ok ((customers, products, orders, details, payments), w') ->
  keys_ok customers products orders details payments.
Proof.
  intros H.
  apply generate_stages in H
    as (w1 & w2 & w3 & w4 & generated & blocks & m
        & Hcs & Hps & Hgen & -> & Hb & -> & Hpays).
  apply generate_customers_records in Hcs as (Hcids & _).
  apply generate_products_ids in Hps as (Hpids & _).
  pose proof (orders_loop_spec _ _ _ _ _ _ _ Hgen) as (Hoids & _).
  apply orders_loop_of in Hgen as (_ & Hoc & _).
  pose proof (sort_by_datetime_perm generated) as Hperm.
  pose proof (details_loop_spec _ _ _ _ _ _ Hb) as (Hblocks & Hdids).
  assert (Hall : Forall (fun o => o ∈ sort_by_datetime generated)
                   (sort_by_datetime generated)) by now apply Forall_forall.
  pose proof (details_loop_ok _ _ _ _ _ _ _ Hall Hb) as Hlines.
  apply payments_loop_spec in Hpays as (Hpo & Hpids').
  unfold keys_ok. repeat split.
  - eapply fmap_elem_of_seqZ_NoDup, Hcids.
  - eapply fmap_elem_of_seqZ_NoDup, Hpids.
  - rewrite <- Hperm. eapply fmap_elem_of_seqZ_NoDup, Hoids.
  - eapply fmap_elem_of_seqZ_NoDup, Hdids.
  - eapply fmap_elem_of_seqZ_NoDup, Hpids'.
  - rewrite Forall_forall. intros o Ho. rewrite <- Hperm in Ho.
    destruct (Hoc o Ho) as (c & Hc & -> & _). now apply list_elem_of_fmap_2.
  - eapply Forall_impl; [exact Hlines|].
    intros d ((o & Ho & ->) & (p & Hp & -> & _) & _).
    split; now apply list_elem_of_fmap_2.
  - rewrite Forall_forall. intros p Hp. rewrite <- Hpo.
    now apply list_elem_of_fmap_2.
Qed.

(** X17: a data set [main] generates for [customer_count] customers has
    [customer_count] customers (none when the count is not positive) and
    20 products; every customer has an order, every order has an order
    line, and the payments follow the orders one for one; so there are at
    least as many orders as customers, at least as many lines as orders,
    and as many payments as orders. *)
Theorem generate_sizes poisson customer_count w
    customers products orders details payments w' :
  generate poisson customer_count w
  = Ok ((customers, products, orders, details, payments), w') ->
  length customers = Z.to_nat customer_count /\
  length products = 20%nat /\
  (forall c, c ∈ customers -> exists o, o ∈ orders /\ order_of c o) /\
  (forall o, o ∈ orders -> lines_of o details <> []) /\
  Payment.order_id <$> payments = Order.order_id <$> orders /\
  (length customers <= length orders)%nat /\
  (length orders <= length details)%nat /\
  length payments = length orders.
Proof.
  intros H.
  apply generate_stages in H
    as (w1 & w2 & w3 & w4 & generated & blocks & m
        & Hcs & Hps & Hgen & -> & Hb & -> & Hpays).
  apply generate_customers_records in Hcs as (Hcids & _).
  apply generate_products_ids in Hps as (_ & Hplen).
  apply orders_loop_of in Hgen as (Hevery & _ & Hlen).
  pose proof (sort_by_datetime_perm generated) as Hperm.
  apply details_loop_spec in Hb as (Hblocks & _).
  apply payments_loop_spec in Hpays as (Hpo & _).
  assert (Hne : products <> []) by (destruct products; discriminate).
  split; [|split; [exact Hplen|]].
  { rewrite <- (length_fmap Customer.customer_id), Hcids. apply length_seqZ. }
  split.
  { intros c Hc. destruct (Hevery c Hc) as (o & Ho & Hoc). exists o.
    split; [now rewrite <- Hperm|exact Hoc]. }
  split; [intros o Ho; now apply (order_has_lines products _ _ o Hne Hblocks)|].
  split; [exact Hpo|].
  split; [now rewrite <- (Permutation_length Hperm)|].
  split; [now apply (blocks_at_least products)|].
  rewrite <- (length_fmap Payment.order_id), Hpo. apply length_fmap.
Qed.

Lemma generate_keys_witness :
  generate no_poisson 3 morning = Ok (demo_data, after_payments) /\
  keys_ok demo_customers demo_products demo_orders demo_details demo_payments.
Proof.
  assert (H : generate no_poisson 3 morning = Ok (demo_data, after_payments))
    by (vm_compute; reflexivity).
  split; [exact H|]. exact (generate_keys _ _ _ _ _ _ _ _ _ H).
Defined.

Lemma generate_sizes_witness :
  generate no_poisson 3 morning = Ok (demo_data, after_payments) /\
  length demo_customers = Z.to_nat 3 /\
  length demo_products = 20%nat /\
  (forall c, c ∈ demo_customers -> exists o, o ∈ demo_orders /\ order_of c o) /\
  (forall o, o ∈ demo_orders -> lines_of o demo_details <> []) /\
  Payment.order_id <$> demo_payments = Order.order_id <$> demo_orders /\
  (length demo_customers <= length demo_orders)%nat /\
  (length demo_orders <= length demo_details)%nat /\
  length demo_payments = length demo_orders.
Proof.
  assert (H : generate no_poisson 3 morning = Ok (demo_data, after_payments))
    by (vm_compute; reflexivity).
  split; [exact H|]. exact (generate_sizes _ _ _ _ _ _ _ _ _ H).
Defined.
